(** * andi_ski_go: the simulation core of [docs/game.js]

    A shallow embedding of the per-frame update of the ski game and of the
    classes it drives ([Player], [Obstacle], [ParticleSystem],
    [BackgroundManager], [AudioManager], [Game]), followed by the properties
    of the specification that were checked on it and by further properties
    of the code.

    Conventions of the embedding.
    - A JavaScript number is an exact rational ([Qc], canonical fractions, so
      that equality of numbers is Leibniz equality).  Rounding of IEEE doubles
      is not modelled.
    - [undefined] only matters for [Game.pathTarget], which is therefore an
      [option]; a comparison with [undefined] is a comparison with NaN and is
      false.
    - [Math.random], [Math.sin], [Math.cos] and [Math.PI] belong to the
      platform and are taken through the class [Platform]; the number of
      [Math.random()] calls made so far by the simulation is threaded as a
      cursor ([rng]).  The calls made for the display alone (the snow patches
      of [BackgroundManager]) are not counted there and have a cursor of
      their own: they only shift the numbers that the simulation receives,
      and the properties hold for every sequence of random numbers.
    - [performance.now()] is an argument of the functions that read it.
    - The DOM is not modelled, except for the opacity of the player element;
      the calls made to the [AudioManager] are kept as a log of cues, which
      [heard] replays on the flags of the manager. *)

From Stdlib Require Import QArith Qcanon Qround Lqa Lia ZArith Arith List Bool String Sorted.
From Stdlib Require Qcabs.
Import ListNotations.

Open Scope Qc_scope.

(** ** Numbers *)

Notation "$ q" := (Q2Qc q%Q) (at level 1, q constr at level 0, format "$ q") : Qc_scope.

Definition ltb (a b : Qc) : bool := match a ?= b with Lt => true | _ => false end.
Definition leb (a b : Qc) : bool := match a ?= b with Gt => false | _ => true end.
Definition eqb (a b : Qc) : bool := match a ?= b with Eq => true | _ => false end.

Infix "<?" := ltb (at level 70) : Qc_scope.
Infix "<=?" := leb (at level 70) : Qc_scope.
Infix "=?" := eqb (at level 70) : Qc_scope.
Notation "a >? b" := (ltb b a) (at level 70, only parsing) : Qc_scope.
Notation "a >=? b" := (leb b a) (at level 70, only parsing) : Qc_scope.

Definition Math_abs (a : Qc) : Qc := Qcabs.Qcabs a.
Definition Math_max (a b : Qc) : Qc := if a <? b then b else a.
Definition Math_min (a b : Qc) : Qc := if b <? a then b else a.
Definition Math_floor (a : Qc) : Z := Qfloor a.
Definition ofNat (n : nat) : Qc := Q2Qc (inject_Z (Z.of_nat n)).

(** The platform: [Math_random n] is the value returned by the [n]-th call of
    [Math.random()] made by the simulation (counting from 0). *)
Class Platform : Type := {
  Math_sin : Qc -> Qc;
  Math_cos : Qc -> Qc;
  Math_PI : Qc;
  Math_random : nat -> Qc
}.

(** [const CONFIG = { ... }] *)
Module CONFIG.
Definition GAME_WIDTH : Qc := $1024.
Definition GAME_HEIGHT : Qc := $640.
Definition PLAYER_SPEED : Qc := $8.
Definition INITIAL_SCROLL_SPEED : Qc := $3.5.
Definition MAX_SPEED : Qc := $8.
Definition JUMP_DURATION : Qc := $800.
Definition OBSTACLE_SPAWN_RATE : nat := 60.
Definition WIN_DISTANCE : Qc := $2000.
Definition METER_SCALE : Qc := $0.1.
End CONFIG.

(** ** class Player *)

Module Player.

(** [opacity] is [element.style.opacity]; [vx] is never read and is left
      out. *)
Record t : Type := mk {
    x : Qc;
    y : Qc;
    isJumping : bool;
    jumpStartTime : Qc;
    baseScale : Qc;
    scale : Qc;
    angle : Qc;
    bobOffset : Qc;
    frameCount : nat;
    opacity : Qc
  }.

Definition new (x0 y0 : Qc) : t :=
    {| x := x0; y := y0; isJumping := false; jumpStartTime := 0;
       baseScale := $0.8; scale := $0.8; angle := 0; bobOffset := 0;
       frameCount := 0; opacity := 1 |}.

Definition move (dx : Qc) (p : t) : t :=
    let targetAngle := if dx >? 0 then $15 else $(-15) in
    {| x := x p + dx; y := y p; isJumping := isJumping p;
       jumpStartTime := jumpStartTime p; baseScale := baseScale p;
       scale := scale p;
       angle := angle p + (targetAngle - angle p) * $0.1;
       bobOffset := bobOffset p; frameCount := frameCount p;
       opacity := opacity p |}.

(** [now] is the value of [performance.now()] at the key press. *)
Definition jump (now : Qc) (p : t) : t :=
    if isJumping p then p
    else {| x := x p; y := y p; isJumping := true; jumpStartTime := now;
            baseScale := baseScale p; scale := scale p; angle := angle p;
            bobOffset := bobOffset p; frameCount := frameCount p;
            opacity := opacity p |}.

Definition setOpacity (v : Qc) (p : t) : t :=
    {| x := x p; y := y p; isJumping := isJumping p;
       jumpStartTime := jumpStartTime p; baseScale := baseScale p;
       scale := scale p; angle := angle p; bobOffset := bobOffset p;
       frameCount := frameCount p; opacity := v |}.

(** The elapsed fraction of the jump at time [now]. *)
Definition progress (now : Qc) (p : t) : Qc :=
    (now - jumpStartTime p) / CONFIG.JUMP_DURATION.

Section WithPlatform.
Context {env : Platform}.

(** [deltaTime] is not read by the source; [now] is [performance.now()]. *)
Definition update (now : Qc) (p : t) : t :=
      let frameCount' := S (frameCount p) in
      let angle' := if Math_abs (angle p) >? $0.1 then angle p * $0.9 else angle p in
      let bobOffset' :=
        if negb (isJumping p) then
          let bobSpeed := if Math_abs angle' >? $5 then $0.3 else $0.15 in
          Math_sin (ofNat frameCount' * bobSpeed) * $2
        else bobOffset p in
      if isJumping p then
        if progress now p >=? 1 then
          {| x := x p; y := y p; isJumping := false;
             jumpStartTime := jumpStartTime p; baseScale := baseScale p;
             scale := baseScale p; angle := angle'; bobOffset := bobOffset';
             frameCount := frameCount'; opacity := opacity p |}
        else
          let jumpHeight := Math_sin (progress now p * Math_PI) in
          {| x := x p; y := y p; isJumping := true;
             jumpStartTime := jumpStartTime p; baseScale := baseScale p;
             scale := baseScale p + jumpHeight * $0.4; angle := angle';
             bobOffset := bobOffset'; frameCount := frameCount';
             opacity := opacity p |}
      else
        {| x := x p; y := y p; isJumping := false;
           jumpStartTime := jumpStartTime p; baseScale := baseScale p;
           scale := scale p; angle := angle'; bobOffset := bobOffset';
           frameCount := frameCount'; opacity := opacity p |}.
End WithPlatform.

End Player.

(** ** class Obstacle *)

Module Obstacle.

Inductive kind : Type :=
    rock | tree | flag | ditch | kid | jj_barrier | carousel | poop.

Inductive barrier : Type := wait | jump | crack | done.

Definition kind_eqb (a b : kind) : bool :=
    match a, b with
    | rock, rock | tree, tree | flag, flag | ditch, ditch | kid, kid
    | jj_barrier, jj_barrier | carousel, carousel | poop, poop => true
    | _, _ => false
    end.

(** Fields that the source defines for one type only ([kidOffsetX],
      [barrierState], [animTimer], [rotation], [scaleX], [animationSpeed],
      [phase]) are present on every obstacle here and are read for that type
      only.  [triggered] is [undefined] (falsy) until a carousel fires. *)
Record t : Type := mk {
    x : Qc;
    y : Qc;
    type : kind;
    width : Qc;
    height : Qc;
    kidOffsetX : Qc;
    barrierState : barrier;
    animTimer : nat;
    rotation : Qc;
    scaleX : Qc;
    animationSpeed : Qc;
    phase : nat;
    triggered : bool
  }.

Definition new (x0 y0 : Qc) (ty : kind) : t :=
    let w := match ty with
             | jj_barrier => CONFIG.GAME_WIDTH
             | carousel => CONFIG.GAME_WIDTH
             | tree => $60
             | flag => $20
             | kid => $45
             | ditch => $50
             | _ => $40
             end in
    let h := match ty with
             | jj_barrier => $60
             | carousel => $300
             | tree => $75
             | flag => $30
             | kid => $55
             | ditch => $20
             | _ => $30
             end in
    {| x := x0; y := y0; type := ty; width := w; height := h;
       kidOffsetX := 0; barrierState := wait; animTimer := 0; rotation := 0;
       scaleX := match ty with ditch => $0.1 | _ => 0 end;
       animationSpeed := match ty with ditch => $0.05 | _ => 0 end;
       phase := 0; triggered := false |}.

Definition setY (v : Qc) (o : t) : t :=
    {| x := x o; y := v; type := type o; width := width o; height := height o;
       kidOffsetX := kidOffsetX o; barrierState := barrierState o;
       animTimer := animTimer o; rotation := rotation o; scaleX := scaleX o;
       animationSpeed := animationSpeed o; phase := phase o;
       triggered := triggered o |}.

Definition setKidOffsetX (v : Qc) (o : t) : t :=
    {| x := x o; y := y o; type := type o; width := width o; height := height o;
       kidOffsetX := v; barrierState := barrierState o;
       animTimer := animTimer o; rotation := rotation o; scaleX := scaleX o;
       animationSpeed := animationSpeed o; phase := phase o;
       triggered := triggered o |}.

Definition setPhase (v : nat) (o : t) : t :=
    {| x := x o; y := y o; type := type o; width := width o; height := height o;
       kidOffsetX := kidOffsetX o; barrierState := barrierState o;
       animTimer := animTimer o; rotation := rotation o; scaleX := scaleX o;
       animationSpeed := animationSpeed o; phase := v;
       triggered := triggered o |}.

Definition setTriggered (v : bool) (o : t) : t :=
    {| x := x o; y := y o; type := type o; width := width o; height := height o;
       kidOffsetX := kidOffsetX o; barrierState := barrierState o;
       animTimer := animTimer o; rotation := rotation o; scaleX := scaleX o;
       animationSpeed := animationSpeed o; phase := phase o;
       triggered := v |}.

Definition setAnimation (r s : Qc) (b : barrier) (n : nat) (o : t) : t :=
    {| x := x o; y := y o; type := type o; width := width o; height := height o;
       kidOffsetX := kidOffsetX o; barrierState := b; animTimer := n;
       rotation := r; scaleX := s; animationSpeed := animationSpeed o;
       phase := phase o; triggered := triggered o |}.

(** Only the attributes of the SVG element follow from the position, so
      [updatePosition] and [updateKidPosition] have no effect here. *)
Definition updateAnimation (o : t) : t :=
    match type o with
    | carousel =>
        setAnimation (rotation o + $2) (scaleX o) (barrierState o) (animTimer o) o
    | ditch =>
        if scaleX o <? $1.5
        then setAnimation (rotation o) (scaleX o + animationSpeed o)
                          (barrierState o) (animTimer o) o
        else o
    | jj_barrier =>
        match barrierState o with
        | wait =>
            if y o <? CONFIG.GAME_HEIGHT - $100
            then setAnimation (rotation o) (scaleX o) jump 0 o
            else o
        | jump =>
            let timer := S (animTimer o) in
            if (timer <=? 40)%nat
            then setAnimation (rotation o) (scaleX o) jump timer o
            else setAnimation (rotation o) (scaleX o) crack 0 o
        | crack =>
            let timer := S (animTimer o) in
            if (timer <=? 10)%nat
            then setAnimation (rotation o) (scaleX o) crack timer o
            else setAnimation (rotation o) (scaleX o) done timer o
        | done => o
        end
    | _ => o
    end.

End Obstacle.

(** ** class ParticleSystem *)

Module ParticleSystem.

Record particle : Type := mkParticle {
    x : Qc;
    y : Qc;
    vx : Qc;
    vy : Qc;
    life : Qc;
    decay : Qc;
    size : Qc;
    color : string
  }.

(** The state of a [ParticleSystem] is its [particles] array. *)
Definition t : Type := list particle.

Definition new : t := [].

Section WithPlatform.
Context {env : Platform}.

(** One iteration of the loop of [spawnExplosion]; it calls
        [Math.random()] four times. *)
Definition spawnOne (x0 y0 : Qc) (col : string) (rng : nat) : particle :=
      let size := $10 + Math_random rng * $20 in
      let angle := Math_random (rng + 1) * Math_PI * $2 in
      let speed := $5 + Math_random (rng + 2) * $25 in
      {| x := x0; y := y0;
         vx := Math_cos angle * speed;
         vy := Math_sin angle * speed;
         life := $1.5;
         decay := $0.01 + Math_random (rng + 3) * $0.01;
         size := size; color := col |}.

(** [for (let i = 0; i < particleCount; i++) { ... push ... }] *)
Fixpoint spawnLoop (count : nat) (x0 y0 : Qc) (col : string)
             (rng : nat) (ps : t) : t * nat :=
      match count with
      | O => (ps, rng)
      | S count' =>
          spawnLoop count' x0 y0 col (rng + 4) (ps ++ [spawnOne x0 y0 col rng])
      end.

Definition particleCount : nat := 60.

Definition spawnExplosion (x0 y0 : Qc) (col : string) (rng : nat) (ps : t)
      : t * nat :=
      spawnLoop particleCount x0 y0 col rng ps.
End WithPlatform.

Definition advance (p : particle) : particle :=
    {| x := x p + vx p; y := y p + vy p; vx := vx p; vy := vy p;
       life := life p - decay p; decay := decay p; size := size p;
       color := color p |}.

(** The loop of [update] runs from the last index down and splices the dead
      particles out: the tail is swept before the head. *)
Fixpoint sweep (ps : t) : t :=
    match ps with
    | [] => []
    | p :: rest =>
        let rest' := sweep rest in
        let p' := advance p in
        if life p' <=? 0 then rest' else p' :: rest'
    end.

(** [update()] returns [this.particles.length > 0]. *)
Definition update (ps : t) : t * bool :=
    let ps' := sweep ps in
    (ps', (0 <? List.length ps')%nat).

Definition clear (ps : t) : t := [].

End ParticleSystem.

(** ** class BackgroundManager *)

Module BackgroundManager.

(** A snow patch as the manager keeps it; the radii of its ellipse go to
      the SVG element only. *)
Record patch : Type := mkPatch {
    x : Qc;
    y : Qc
  }.

(** The state of a [BackgroundManager] is its [patches] array; [mountains]
      is never filled. *)
Definition t : Type := list patch.

Definition width : Qc := CONFIG.GAME_WIDTH.
Definition height : Qc := CONFIG.GAME_HEIGHT.

Section WithPlatform.
Context {env : Platform}.

(** [spawnPatch(y)]: three calls of [Math.random()], for the two radii and
        for [x].  [rng] counts the calls made for the background. *)
Definition spawnPatch (y0 : Qc) (rng : nat) (ps : t) : t * nat :=
      let w := $50 + Math_random rng * $100 in
      let h := $20 + Math_random (rng + 1) * $30 in
      let x0 := Math_random (rng + 2) * width in
      (ps ++ [ {| x := x0; y := y0 |} ], (rng + 3)%nat).

(** [for (let i = 0; i < 8; i++) this.spawnPatch(Math.random() * this.height)] *)
Fixpoint resetLoop (count : nat) (rng : nat) (ps : t) : t * nat :=
      match count with
      | O => (ps, rng)
      | S count' =>
          let y0 := Math_random rng * height in
          let r := spawnPatch y0 (rng + 1) ps in
          resetLoop count' (snd r) (fst r)
      end.

(** [reset()] *)
Definition reset (rng : nat) : t * nat := resetLoop 8 rng [].

(** The loop of [update(scrollSpeed)] runs from the last index down; a
        patch that has scrolled above y = -100 is spliced out and a new one
        is pushed at the end of the array, where the loop does not come
        again.  The result is the patches kept, those pushed, and the
        cursor. *)
Fixpoint updateLoop (scrollSpeed : Qc) (ps : t) (rng : nat) : t * t * nat :=
      match ps with
      | [] => ([], [], rng)
      | p :: rest =>
          let '(kept, pushed, rng) := updateLoop scrollSpeed rest rng in
          let p := {| x := x p; y := y p - scrollSpeed |} in
          if y p <? $(-100) then
            let r := spawnPatch (height + $100) rng pushed in
            (kept, fst r, snd r)
          else (p :: kept, pushed, rng)
      end.

(** [update(scrollSpeed)] *)
Definition update (scrollSpeed : Qc) (ps : t) (rng : nat) : t * nat :=
      let '(kept, pushed, rng) := updateLoop scrollSpeed ps rng in
      (kept ++ pushed, rng).
End WithPlatform.

End BackgroundManager.

(** ** class AudioManager *)

Module AudioManager.

(** Of the manager the two flags are kept.  The Web Audio graph belongs to
      the platform; the audio context is taken to be available, so that
      [init()] succeeds and sets [skiGain]. *)
Record t : Type := mk {
    isInitialized : bool;
    isPlaying : bool
  }.

Definition new : t := {| isInitialized := false; isPlaying := false |}.

(** [init()] *)
Definition init (a : t) : t :=
    if isInitialized a then a
    else {| isInitialized := true; isPlaying := isPlaying a |}.

(** [start()] *)
Definition start (a : t) : t :=
    let a := if negb (isInitialized a) then init a else a in
    if negb (isPlaying a)
    then {| isInitialized := isInitialized a; isPlaying := true |}
    else a.

(** [stop()] *)
Definition stop (a : t) : t :=
    {| isInitialized := isInitialized a; isPlaying := false |}.

(** [playGagi()] and [playSpiegelei()]: whether the sample is started;
      [loaded] tells whether its buffer has been decoded. *)
Definition plays (loaded : bool) (a : t) : bool :=
    negb (negb (isInitialized a) || negb loaded || negb (isPlaying a)).

(** [updateSkiSound(speed, isJumping)]: the target that the gain of the
      ski sound is given, if any. *)
Definition updateSkiSound (speed : Qc) (isJumping : bool) (a : t) : option Qc :=
    if negb (isPlaying a) || negb (isInitialized a) then None
    else if isJumping then Some 0
         else Some (Math_min 1 (Math_max $0.2 (speed / $10))).

End AudioManager.

(** ** class Game *)

Module Game.

(** [this.state] *)
Inductive status : Type := MENU | PLAYING | EXPLODING | GAMEOVER | VICTORY.

(** [this.keys] *)
Record keymap : Type := mkKeys {
  ArrowLeft : bool;
  ArrowRight : bool;
  KeyA : bool;
  KeyD : bool
}.

(** An element of [this.trails]. *)
Module Trail.
Record t : Type := mk {
  x : Qc;
  y : Qc;
  age : nat
}.
End Trail.

(** The calls made to [this.audio], in order ([updateSkiSound], which only
    sets a gain, is left out).  Whether a cue is heard is decided by the
    [AudioManager]. *)
Inductive cue : Type := audioStart | audioStop | playGagi | playSpiegelei.

(** The object literal stored in [this.poopingJJ].  [lifeTime] is created by
    the first [if (!jj.lifeTime) jj.lifeTime = 0]; [ropeElement] records
    whether the rope has been created. *)
Module JJ.
Inductive kind : Type := sled | squat.
Inductive phase : Type := entering | skiing | crawling.
Record t : Type := mk {
  type : kind;
  x : Qc;
  y : Qc;
  targetY : Qc;
  direction : Qc;
  poopTimer : nat;
  state : phase;
  angle : Qc;
  lifeTime : nat;
  ropeElement : bool
}.
End JJ.

Record t : Type := mk {
    player : Player.t;
    obstacles : list Obstacle.t;
    trails : list Trail.t;
    keys : keymap;
    state : status;
    scrollSpeed : Qc;
    distance : Qc;
    lastHundredMeters : Z;
    frameCount : nat;
    cameraX : Qc;
    pathCenter : Qc;
    pathTarget : option Qc;
    pathWidth : Qc;
    targetPathWidth : Qc;
    isSplitting : bool;
    startSeparating : bool;
    splitDistance : Qc;
    maxSplitDistance : Qc;
    splitTimer : nat;
    poopingJJ : option JJ.t;
    lastPoopJJSpawn : Qc;
    hasSpawnedFirstPooper : bool;
    carouselActive : bool;
    hasSpawnedCarousel1 : bool;
    hasSpawnedCarousel2 : bool;
    particleSystem : ParticleSystem.t;
    audio : list cue;
    rng : nat
  }.

(** Field update, [g <| f := v |>] for [g.f = v]. *)
Class Setter {E : Type} (proj : t -> E) : Type := setter : E -> t -> t.
Arguments setter {E} proj {Setter} _ _.

#[global] Instance set_player : Setter player :=
    fun v g => mk v (obstacles g) (trails g) (keys g) (state g) (scrollSpeed
      g) (distance g) (lastHundredMeters g) (frameCount g) (cameraX g)
      (pathCenter g) (pathTarget g) (pathWidth g) (targetPathWidth g)
      (isSplitting g) (startSeparating g) (splitDistance g)
      (maxSplitDistance g) (splitTimer g) (poopingJJ g) (lastPoopJJSpawn g)
      (hasSpawnedFirstPooper g) (carouselActive g) (hasSpawnedCarousel1 g)
      (hasSpawnedCarousel2 g) (particleSystem g) (audio g) (rng g).
#[global] Instance set_obstacles : Setter obstacles :=
    fun v g => mk (player g) v (trails g) (keys g) (state g) (scrollSpeed g)
      (distance g) (lastHundredMeters g) (frameCount g) (cameraX g)
      (pathCenter g) (pathTarget g) (pathWidth g) (targetPathWidth g)
      (isSplitting g) (startSeparating g) (splitDistance g)
      (maxSplitDistance g) (splitTimer g) (poopingJJ g) (lastPoopJJSpawn g)
      (hasSpawnedFirstPooper g) (carouselActive g) (hasSpawnedCarousel1 g)
      (hasSpawnedCarousel2 g) (particleSystem g) (audio g) (rng g).
#[global] Instance set_trails : Setter trails :=
    fun v g => mk (player g) (obstacles g) v (keys g) (state g) (scrollSpeed
      g) (distance g) (lastHundredMeters g) (frameCount g) (cameraX g)
      (pathCenter g) (pathTarget g) (pathWidth g) (targetPathWidth g)
      (isSplitting g) (startSeparating g) (splitDistance g)
      (maxSplitDistance g) (splitTimer g) (poopingJJ g) (lastPoopJJSpawn g)
      (hasSpawnedFirstPooper g) (carouselActive g) (hasSpawnedCarousel1 g)
      (hasSpawnedCarousel2 g) (particleSystem g) (audio g) (rng g).
#[global] Instance set_keys : Setter keys :=
    fun v g => mk (player g) (obstacles g) (trails g) v (state g)
      (scrollSpeed g) (distance g) (lastHundredMeters g) (frameCount g)
      (cameraX g) (pathCenter g) (pathTarget g) (pathWidth g)
      (targetPathWidth g) (isSplitting g) (startSeparating g) (splitDistance
      g) (maxSplitDistance g) (splitTimer g) (poopingJJ g) (lastPoopJJSpawn
      g) (hasSpawnedFirstPooper g) (carouselActive g) (hasSpawnedCarousel1
      g) (hasSpawnedCarousel2 g) (particleSystem g) (audio g) (rng g).
#[global] Instance set_state : Setter state :=
    fun v g => mk (player g) (obstacles g) (trails g) (keys g) v
      (scrollSpeed g) (distance g) (lastHundredMeters g) (frameCount g)
      (cameraX g) (pathCenter g) (pathTarget g) (pathWidth g)
      (targetPathWidth g) (isSplitting g) (startSeparating g) (splitDistance
      g) (maxSplitDistance g) (splitTimer g) (poopingJJ g) (lastPoopJJSpawn
      g) (hasSpawnedFirstPooper g) (carouselActive g) (hasSpawnedCarousel1
      g) (hasSpawnedCarousel2 g) (particleSystem g) (audio g) (rng g).
#[global] Instance set_scrollSpeed : Setter scrollSpeed :=
    fun v g => mk (player g) (obstacles g) (trails g) (keys g) (state g) v
      (distance g) (lastHundredMeters g) (frameCount g) (cameraX g)
      (pathCenter g) (pathTarget g) (pathWidth g) (targetPathWidth g)
      (isSplitting g) (startSeparating g) (splitDistance g)
      (maxSplitDistance g) (splitTimer g) (poopingJJ g) (lastPoopJJSpawn g)
      (hasSpawnedFirstPooper g) (carouselActive g) (hasSpawnedCarousel1 g)
      (hasSpawnedCarousel2 g) (particleSystem g) (audio g) (rng g).
#[global] Instance set_distance : Setter distance :=
    fun v g => mk (player g) (obstacles g) (trails g) (keys g) (state g)
      (scrollSpeed g) v (lastHundredMeters g) (frameCount g) (cameraX g)
      (pathCenter g) (pathTarget g) (pathWidth g) (targetPathWidth g)
      (isSplitting g) (startSeparating g) (splitDistance g)
      (maxSplitDistance g) (splitTimer g) (poopingJJ g) (lastPoopJJSpawn g)
      (hasSpawnedFirstPooper g) (carouselActive g) (hasSpawnedCarousel1 g)
      (hasSpawnedCarousel2 g) (particleSystem g) (audio g) (rng g).
#[global] Instance set_lastHundredMeters : Setter lastHundredMeters :=
    fun v g => mk (player g) (obstacles g) (trails g) (keys g) (state g)
      (scrollSpeed g) (distance g) v (frameCount g) (cameraX g) (pathCenter
      g) (pathTarget g) (pathWidth g) (targetPathWidth g) (isSplitting g)
      (startSeparating g) (splitDistance g) (maxSplitDistance g) (splitTimer
      g) (poopingJJ g) (lastPoopJJSpawn g) (hasSpawnedFirstPooper g)
      (carouselActive g) (hasSpawnedCarousel1 g) (hasSpawnedCarousel2 g)
      (particleSystem g) (audio g) (rng g).
#[global] Instance set_frameCount : Setter frameCount :=
    fun v g => mk (player g) (obstacles g) (trails g) (keys g) (state g)
      (scrollSpeed g) (distance g) (lastHundredMeters g) v (cameraX g)
      (pathCenter g) (pathTarget g) (pathWidth g) (targetPathWidth g)
      (isSplitting g) (startSeparating g) (splitDistance g)
      (maxSplitDistance g) (splitTimer g) (poopingJJ g) (lastPoopJJSpawn g)
      (hasSpawnedFirstPooper g) (carouselActive g) (hasSpawnedCarousel1 g)
      (hasSpawnedCarousel2 g) (particleSystem g) (audio g) (rng g).
#[global] Instance set_cameraX : Setter cameraX :=
    fun v g => mk (player g) (obstacles g) (trails g) (keys g) (state g)
      (scrollSpeed g) (distance g) (lastHundredMeters g) (frameCount g) v
      (pathCenter g) (pathTarget g) (pathWidth g) (targetPathWidth g)
      (isSplitting g) (startSeparating g) (splitDistance g)
      (maxSplitDistance g) (splitTimer g) (poopingJJ g) (lastPoopJJSpawn g)
      (hasSpawnedFirstPooper g) (carouselActive g) (hasSpawnedCarousel1 g)
      (hasSpawnedCarousel2 g) (particleSystem g) (audio g) (rng g).
#[global] Instance set_pathCenter : Setter pathCenter :=
    fun v g => mk (player g) (obstacles g) (trails g) (keys g) (state g)
      (scrollSpeed g) (distance g) (lastHundredMeters g) (frameCount g)
      (cameraX g) v (pathTarget g) (pathWidth g) (targetPathWidth g)
      (isSplitting g) (startSeparating g) (splitDistance g)
      (maxSplitDistance g) (splitTimer g) (poopingJJ g) (lastPoopJJSpawn g)
      (hasSpawnedFirstPooper g) (carouselActive g) (hasSpawnedCarousel1 g)
      (hasSpawnedCarousel2 g) (particleSystem g) (audio g) (rng g).
#[global] Instance set_pathTarget : Setter pathTarget :=
    fun v g => mk (player g) (obstacles g) (trails g) (keys g) (state g)
      (scrollSpeed g) (distance g) (lastHundredMeters g) (frameCount g)
      (cameraX g) (pathCenter g) v (pathWidth g) (targetPathWidth g)
      (isSplitting g) (startSeparating g) (splitDistance g)
      (maxSplitDistance g) (splitTimer g) (poopingJJ g) (lastPoopJJSpawn g)
      (hasSpawnedFirstPooper g) (carouselActive g) (hasSpawnedCarousel1 g)
      (hasSpawnedCarousel2 g) (particleSystem g) (audio g) (rng g).
#[global] Instance set_pathWidth : Setter pathWidth :=
    fun v g => mk (player g) (obstacles g) (trails g) (keys g) (state g)
      (scrollSpeed g) (distance g) (lastHundredMeters g) (frameCount g)
      (cameraX g) (pathCenter g) (pathTarget g) v (targetPathWidth g)
      (isSplitting g) (startSeparating g) (splitDistance g)
      (maxSplitDistance g) (splitTimer g) (poopingJJ g) (lastPoopJJSpawn g)
      (hasSpawnedFirstPooper g) (carouselActive g) (hasSpawnedCarousel1 g)
      (hasSpawnedCarousel2 g) (particleSystem g) (audio g) (rng g).
#[global] Instance set_targetPathWidth : Setter targetPathWidth :=
    fun v g => mk (player g) (obstacles g) (trails g) (keys g) (state g)
      (scrollSpeed g) (distance g) (lastHundredMeters g) (frameCount g)
      (cameraX g) (pathCenter g) (pathTarget g) (pathWidth g) v (isSplitting
      g) (startSeparating g) (splitDistance g) (maxSplitDistance g)
      (splitTimer g) (poopingJJ g) (lastPoopJJSpawn g)
      (hasSpawnedFirstPooper g) (carouselActive g) (hasSpawnedCarousel1 g)
      (hasSpawnedCarousel2 g) (particleSystem g) (audio g) (rng g).
#[global] Instance set_isSplitting : Setter isSplitting :=
    fun v g => mk (player g) (obstacles g) (trails g) (keys g) (state g)
      (scrollSpeed g) (distance g) (lastHundredMeters g) (frameCount g)
      (cameraX g) (pathCenter g) (pathTarget g) (pathWidth g)
      (targetPathWidth g) v (startSeparating g) (splitDistance g)
      (maxSplitDistance g) (splitTimer g) (poopingJJ g) (lastPoopJJSpawn g)
      (hasSpawnedFirstPooper g) (carouselActive g) (hasSpawnedCarousel1 g)
      (hasSpawnedCarousel2 g) (particleSystem g) (audio g) (rng g).
#[global] Instance set_startSeparating : Setter startSeparating :=
    fun v g => mk (player g) (obstacles g) (trails g) (keys g) (state g)
      (scrollSpeed g) (distance g) (lastHundredMeters g) (frameCount g)
      (cameraX g) (pathCenter g) (pathTarget g) (pathWidth g)
      (targetPathWidth g) (isSplitting g) v (splitDistance g)
      (maxSplitDistance g) (splitTimer g) (poopingJJ g) (lastPoopJJSpawn g)
      (hasSpawnedFirstPooper g) (carouselActive g) (hasSpawnedCarousel1 g)
      (hasSpawnedCarousel2 g) (particleSystem g) (audio g) (rng g).
#[global] Instance set_splitDistance : Setter splitDistance :=
    fun v g => mk (player g) (obstacles g) (trails g) (keys g) (state g)
      (scrollSpeed g) (distance g) (lastHundredMeters g) (frameCount g)
      (cameraX g) (pathCenter g) (pathTarget g) (pathWidth g)
      (targetPathWidth g) (isSplitting g) (startSeparating g) v
      (maxSplitDistance g) (splitTimer g) (poopingJJ g) (lastPoopJJSpawn g)
      (hasSpawnedFirstPooper g) (carouselActive g) (hasSpawnedCarousel1 g)
      (hasSpawnedCarousel2 g) (particleSystem g) (audio g) (rng g).
#[global] Instance set_maxSplitDistance : Setter maxSplitDistance :=
    fun v g => mk (player g) (obstacles g) (trails g) (keys g) (state g)
      (scrollSpeed g) (distance g) (lastHundredMeters g) (frameCount g)
      (cameraX g) (pathCenter g) (pathTarget g) (pathWidth g)
      (targetPathWidth g) (isSplitting g) (startSeparating g) (splitDistance
      g) v (splitTimer g) (poopingJJ g) (lastPoopJJSpawn g)
      (hasSpawnedFirstPooper g) (carouselActive g) (hasSpawnedCarousel1 g)
      (hasSpawnedCarousel2 g) (particleSystem g) (audio g) (rng g).
#[global] Instance set_splitTimer : Setter splitTimer :=
    fun v g => mk (player g) (obstacles g) (trails g) (keys g) (state g)
      (scrollSpeed g) (distance g) (lastHundredMeters g) (frameCount g)
      (cameraX g) (pathCenter g) (pathTarget g) (pathWidth g)
      (targetPathWidth g) (isSplitting g) (startSeparating g) (splitDistance
      g) (maxSplitDistance g) v (poopingJJ g) (lastPoopJJSpawn g)
      (hasSpawnedFirstPooper g) (carouselActive g) (hasSpawnedCarousel1 g)
      (hasSpawnedCarousel2 g) (particleSystem g) (audio g) (rng g).
#[global] Instance set_poopingJJ : Setter poopingJJ :=
    fun v g => mk (player g) (obstacles g) (trails g) (keys g) (state g)
      (scrollSpeed g) (distance g) (lastHundredMeters g) (frameCount g)
      (cameraX g) (pathCenter g) (pathTarget g) (pathWidth g)
      (targetPathWidth g) (isSplitting g) (startSeparating g) (splitDistance
      g) (maxSplitDistance g) (splitTimer g) v (lastPoopJJSpawn g)
      (hasSpawnedFirstPooper g) (carouselActive g) (hasSpawnedCarousel1 g)
      (hasSpawnedCarousel2 g) (particleSystem g) (audio g) (rng g).
#[global] Instance set_lastPoopJJSpawn : Setter lastPoopJJSpawn :=
    fun v g => mk (player g) (obstacles g) (trails g) (keys g) (state g)
      (scrollSpeed g) (distance g) (lastHundredMeters g) (frameCount g)
      (cameraX g) (pathCenter g) (pathTarget g) (pathWidth g)
      (targetPathWidth g) (isSplitting g) (startSeparating g) (splitDistance
      g) (maxSplitDistance g) (splitTimer g) (poopingJJ g) v
      (hasSpawnedFirstPooper g) (carouselActive g) (hasSpawnedCarousel1 g)
      (hasSpawnedCarousel2 g) (particleSystem g) (audio g) (rng g).
#[global] Instance set_hasSpawnedFirstPooper : Setter hasSpawnedFirstPooper :=
    fun v g => mk (player g) (obstacles g) (trails g) (keys g) (state g)
      (scrollSpeed g) (distance g) (lastHundredMeters g) (frameCount g)
      (cameraX g) (pathCenter g) (pathTarget g) (pathWidth g)
      (targetPathWidth g) (isSplitting g) (startSeparating g) (splitDistance
      g) (maxSplitDistance g) (splitTimer g) (poopingJJ g) (lastPoopJJSpawn
      g) v (carouselActive g) (hasSpawnedCarousel1 g) (hasSpawnedCarousel2
      g) (particleSystem g) (audio g) (rng g).
#[global] Instance set_carouselActive : Setter carouselActive :=
    fun v g => mk (player g) (obstacles g) (trails g) (keys g) (state g)
      (scrollSpeed g) (distance g) (lastHundredMeters g) (frameCount g)
      (cameraX g) (pathCenter g) (pathTarget g) (pathWidth g)
      (targetPathWidth g) (isSplitting g) (startSeparating g) (splitDistance
      g) (maxSplitDistance g) (splitTimer g) (poopingJJ g) (lastPoopJJSpawn
      g) (hasSpawnedFirstPooper g) v (hasSpawnedCarousel1 g)
      (hasSpawnedCarousel2 g) (particleSystem g) (audio g) (rng g).
#[global] Instance set_hasSpawnedCarousel1 : Setter hasSpawnedCarousel1 :=
    fun v g => mk (player g) (obstacles g) (trails g) (keys g) (state g)
      (scrollSpeed g) (distance g) (lastHundredMeters g) (frameCount g)
      (cameraX g) (pathCenter g) (pathTarget g) (pathWidth g)
      (targetPathWidth g) (isSplitting g) (startSeparating g) (splitDistance
      g) (maxSplitDistance g) (splitTimer g) (poopingJJ g) (lastPoopJJSpawn
      g) (hasSpawnedFirstPooper g) (carouselActive g) v (hasSpawnedCarousel2
      g) (particleSystem g) (audio g) (rng g).
#[global] Instance set_hasSpawnedCarousel2 : Setter hasSpawnedCarousel2 :=
    fun v g => mk (player g) (obstacles g) (trails g) (keys g) (state g)
      (scrollSpeed g) (distance g) (lastHundredMeters g) (frameCount g)
      (cameraX g) (pathCenter g) (pathTarget g) (pathWidth g)
      (targetPathWidth g) (isSplitting g) (startSeparating g) (splitDistance
      g) (maxSplitDistance g) (splitTimer g) (poopingJJ g) (lastPoopJJSpawn
      g) (hasSpawnedFirstPooper g) (carouselActive g) (hasSpawnedCarousel1
      g) v (particleSystem g) (audio g) (rng g).
#[global] Instance set_particleSystem : Setter particleSystem :=
    fun v g => mk (player g) (obstacles g) (trails g) (keys g) (state g)
      (scrollSpeed g) (distance g) (lastHundredMeters g) (frameCount g)
      (cameraX g) (pathCenter g) (pathTarget g) (pathWidth g)
      (targetPathWidth g) (isSplitting g) (startSeparating g) (splitDistance
      g) (maxSplitDistance g) (splitTimer g) (poopingJJ g) (lastPoopJJSpawn
      g) (hasSpawnedFirstPooper g) (carouselActive g) (hasSpawnedCarousel1
      g) (hasSpawnedCarousel2 g) v (audio g) (rng g).
#[global] Instance set_audio : Setter audio :=
    fun v g => mk (player g) (obstacles g) (trails g) (keys g) (state g)
      (scrollSpeed g) (distance g) (lastHundredMeters g) (frameCount g)
      (cameraX g) (pathCenter g) (pathTarget g) (pathWidth g)
      (targetPathWidth g) (isSplitting g) (startSeparating g) (splitDistance
      g) (maxSplitDistance g) (splitTimer g) (poopingJJ g) (lastPoopJJSpawn
      g) (hasSpawnedFirstPooper g) (carouselActive g) (hasSpawnedCarousel1
      g) (hasSpawnedCarousel2 g) (particleSystem g) v (rng g).
#[global] Instance set_rng : Setter rng :=
    fun v g => mk (player g) (obstacles g) (trails g) (keys g) (state g)
      (scrollSpeed g) (distance g) (lastHundredMeters g) (frameCount g)
      (cameraX g) (pathCenter g) (pathTarget g) (pathWidth g)
      (targetPathWidth g) (isSplitting g) (startSeparating g) (splitDistance
      g) (maxSplitDistance g) (splitTimer g) (poopingJJ g) (lastPoopJJSpawn
      g) (hasSpawnedFirstPooper g) (carouselActive g) (hasSpawnedCarousel1
      g) (hasSpawnedCarousel2 g) (particleSystem g) (audio g) v.

Notation "g <| f := v |>" := (setter f v g)
    (at level 1, left associativity, f at level 0, v at level 200).

Definition cue_eqb (a b : cue) : bool :=
  match a, b with
  | audioStart, audioStart | audioStop, audioStop
  | playGagi, playGagi | playSpiegelei, playSpiegelei => true
  | _, _ => false
  end.

(** [createPlayer()] *)
Definition createPlayer : Player.t := Player.new (CONFIG.GAME_WIDTH / $2) $150.

(** [constructor()] followed by [init()].  [pathTarget] is not assigned. *)
Definition new : t :=
  {| player := createPlayer;
     obstacles := [];
     trails := [];
     keys := mkKeys false false false false;
     state := MENU;
     scrollSpeed := CONFIG.INITIAL_SCROLL_SPEED;
     distance := 0;
     lastHundredMeters := 0%Z;
     frameCount := 0;
     cameraX := 0;
     pathCenter := CONFIG.GAME_WIDTH / $2;
     pathTarget := None;
     pathWidth := $450;
     targetPathWidth := $450;
     isSplitting := false;
     startSeparating := false;
     splitDistance := 0;
     maxSplitDistance := $250;
     splitTimer := 0;
     poopingJJ := None;
     lastPoopJJSpawn := 0;
     hasSpawnedFirstPooper := false;
     carouselActive := false;
     hasSpawnedCarousel1 := false;
     hasSpawnedCarousel2 := false;
     particleSystem := ParticleSystem.new;
     audio := [];
     rng := 0 |}.

(** [startGame()] *)
Definition startGame (g : t) : t :=
  let g := g <| state := PLAYING |> in
  g <| audio := audio g ++ [audioStart] |>.

(** [restart()] *)
Definition restart (g : t) : t :=
  let g := g <| obstacles := [] |> in
  let g := g <| particleSystem := ParticleSystem.clear (particleSystem g) |> in
  let g := g <| trails := [] |> in
  let g := g <| distance := 0 |> in
  let g := g <| lastHundredMeters := 0%Z |> in
  let g := g <| frameCount := 0%nat |> in
  let g := g <| scrollSpeed := CONFIG.INITIAL_SCROLL_SPEED |> in
  let g := g <| pathCenter := CONFIG.GAME_WIDTH / $2 |> in
  let g := g <| pathWidth := $450 |> in
  let g := g <| targetPathWidth := $450 |> in
  let g := g <| splitDistance := 0 |> in
  let g := g <| isSplitting := false |> in
  let g := g <| startSeparating := false |> in
  let g := g <| lastPoopJJSpawn := 0 |> in
  let g := g <| hasSpawnedFirstPooper := false |> in
  let g := g <| carouselActive := false |> in
  let g := g <| hasSpawnedCarousel1 := false |> in
  let g := g <| hasSpawnedCarousel2 := false |> in
  let g := g <| poopingJJ := None |> in
  let g := g <| player := Player.setOpacity 1 createPlayer |> in
  let g := g <| state := PLAYING |> in
  g <| audio := audio g ++ [audioStart] |>.

(** [gameOver()] *)
Definition gameOver (g : t) : t :=
  let g := g <| state := GAMEOVER |> in
  g <| audio := audio g ++ [audioStop] |>.

(** [victory()] *)
Definition victory (g : t) : t :=
  let g := g <| state := VICTORY |> in
  g <| audio := audio g ++ [audioStop] |>.

(** [checkCollision(player, obstacle)] *)
Definition checkCollision (p : Player.t) (o : Obstacle.t) : bool :=
  let px := Player.x p - $15 in
  let py := Player.y p - $10 in
  let pw := $30 in
  let ph := $20 in
  let ox := Obstacle.x o - Obstacle.width o / $2 in
  let oy := Obstacle.y o - Obstacle.height o in
  let ow := Obstacle.width o in
  let oh := Obstacle.height o in
  (px <? ox + ow) && (px + pw >? ox) && (py <? oy + oh) && (py + ph >? oy).

(** [triggerCarouselEffect(obs)]; the obstacle is mutated, so it is returned
    with the game. *)
Definition triggerCarouselEffect (o : Obstacle.t) (g : t) : t * Obstacle.t :=
  if Obstacle.triggered o then (g, o)
  else
    let o := Obstacle.setTriggered true o in
    let g := g <| audio := audio g ++ [playSpiegelei] |> in
    if (Obstacle.phase o =? 1)%nat
    then (g <| carouselActive := true |>, o)
    else (g <| carouselActive := false |>, o).

(** [spawnCarousel(phase)] *)
Definition spawnCarousel (ph : nat) (g : t) : t :=
  let x := pathCenter g in
  let y := CONFIG.GAME_HEIGHT + $200 in
  let obstacle := Obstacle.setPhase ph (Obstacle.new x y Obstacle.carousel) in
  g <| obstacles := obstacles g ++ [obstacle] |>.

(** [spawnPoop(x, y)] *)
Definition spawnPoop (x y : Qc) (g : t) : t :=
  g <| obstacles := obstacles g ++ [Obstacle.new x y Obstacle.poop] |>.

(** [updateTrails()]: the loop runs from the last sample down; the rest of
    the function draws. *)
Fixpoint sweepTrails (speed : Qc) (ts : list Trail.t) : list Trail.t :=
  match ts with
  | [] => []
  | s :: rest =>
      let rest' := sweepTrails speed rest in
      let s' := {| Trail.x := Trail.x s; Trail.y := Trail.y s - speed;
                   Trail.age := S (Trail.age s) |} in
      if (Trail.y s' <? $(-100)) || (200 <? Trail.age s')%nat
      then rest' else s' :: rest'
  end.

Definition updateTrails (g : t) : t :=
  g <| trails := sweepTrails (scrollSpeed g) (trails g) |>.

Section WithPlatform.
Context {env : Platform}.

(** [Math.random()]: [random g] is the value of the next call and [drawn g]
    the game after it. *)
Definition random (g : t) : Qc := Math_random (rng g).
Definition drawn (g : t) : t := g <| rng := S (rng g) |>.

(** The colour chosen in [triggerExplosion]. *)
Definition explosionColor (ty : Obstacle.kind) : string :=
  match ty with
  | Obstacle.poop => "#795548"
  | Obstacle.tree => "#2E7D32"
  | Obstacle.rock => "#9e9e9e"
  | Obstacle.kid | Obstacle.jj_barrier => "#fdd835"
  | _ => "#5d4037"
  end%string.

(** [triggerExplosion(obstacle)] *)
Definition triggerExplosion (o : Obstacle.t) (g : t) : t :=
  let g := g <| state := EXPLODING |> in
  let g := g <| audio := audio g ++ [audioStop] |> in
  let g := g <| player := Player.setOpacity 0 (player g) |> in
  let color := explosionColor (Obstacle.type o) in
  let burst := ParticleSystem.spawnExplosion (Player.x (player g))
                 (Player.y (player g)) color (rng g) (particleSystem g) in
  let g := g <| particleSystem := fst burst |> <| rng := snd burst |> in
  let burst := ParticleSystem.spawnExplosion (Player.x (player g))
                 (Player.y (player g)) "#ff3d00"%string (rng g)
                 (particleSystem g) in
  g <| particleSystem := fst burst |> <| rng := snd burst |>.

(** [spawnPoopingJJ(forcedType = null)] *)
Definition spawnPoopingJJ (forcedType : option JJ.kind) (g : t) : t :=
  match poopingJJ g with
  | Some _ => g
  | None =>
      let g := g <| audio := audio g ++ [playGagi] |> in
      let type := match forcedType with
                  | Some ty => ty
                  | None => if random g >? $0.5 then JJ.sled else JJ.squat
                  end in
      let g := match forcedType with Some _ => g | None => drawn g end in
      let startFromLeft := random g >? $0.5 in
      let g := drawn g in
      let direction := if startFromLeft then 1 else $(-1) in
      let leftBound := pathCenter g - pathWidth g / $2 + $50 in
      let rightBound := pathCenter g + pathWidth g / $2 - $50 in
      let x := if startFromLeft then leftBound else rightBound in
      let y := $(-100) in
      g <| poopingJJ :=
             Some {| JJ.type := type; JJ.x := x; JJ.y := y;
                     JJ.targetY := $200; JJ.direction := direction;
                     JJ.poopTimer := 0; JJ.state := JJ.entering;
                     JJ.angle := 0; JJ.lifeTime := 0;
                     JJ.ropeElement := false |} |>
  end.

(** [updateSleddingJJ(jj)] *)
Definition updateSleddingJJ (jj : JJ.t) (g : t) : t :=
  match JJ.state jj with
  | JJ.entering =>
      let y := JJ.y jj + $4 in
      let x := JJ.x jj + JJ.direction jj * 1 in
      let st := if y >=? JJ.targetY jj then JJ.skiing else JJ.entering in
      g <| poopingJJ :=
             Some {| JJ.type := JJ.type jj; JJ.x := x; JJ.y := y;
                     JJ.targetY := JJ.targetY jj;
                     JJ.direction := JJ.direction jj;
                     JJ.poopTimer := JJ.poopTimer jj; JJ.state := st;
                     JJ.angle := JJ.angle jj; JJ.lifeTime := JJ.lifeTime jj;
                     JJ.ropeElement := JJ.ropeElement jj |} |>
  | JJ.skiing =>
      let speedX := $2.5 in
      let speedY := $0.5 in
      let x := JJ.x jj + speedX * JJ.direction jj in
      let y := JJ.y jj + speedY in
      let leftBound := pathCenter g - pathWidth g / $2 + $50 in
      let rightBound := pathCenter g + pathWidth g / $2 - $50 in
      let direction := if x >? rightBound then $(-1) else JJ.direction jj in
      let direction := if x <? leftBound then 1 else direction in
      let poopTimer := S (JJ.poopTimer jj) in
      let g := if (60 <? poopTimer)%nat then spawnPoop x (y + $20) g else g in
      let poopTimer := if (60 <? poopTimer)%nat then 0%nat else poopTimer in
      let angle := direction * $(-10) in
      let lifeTime := S (JJ.lifeTime jj) in
      let y := if (600 <? lifeTime)%nat then y + $5 else y in
      if (600 <? lifeTime)%nat && (y >? CONFIG.GAME_HEIGHT + $100)
      then g <| poopingJJ := None |>
      else
        g <| poopingJJ :=
               Some {| JJ.type := JJ.type jj; JJ.x := x; JJ.y := y;
                       JJ.targetY := JJ.targetY jj; JJ.direction := direction;
                       JJ.poopTimer := poopTimer; JJ.state := JJ.skiing;
                       JJ.angle := angle; JJ.lifeTime := lifeTime;
                       JJ.ropeElement := JJ.ropeElement jj |} |>
  | JJ.crawling => g
  end.

(** [updateSquattingJJ(jj)] *)
Definition updateSquattingJJ (jj : JJ.t) (g : t) : t :=
  match JJ.state jj with
  | JJ.entering =>
      let fresh := JJ.y jj =? $(-100) in
      let y := if fresh then CONFIG.GAME_HEIGHT + $100 else JJ.y jj in
      let targetY := if fresh then y else JJ.targetY jj in
      g <| poopingJJ :=
             Some {| JJ.type := JJ.type jj; JJ.x := JJ.x jj; JJ.y := y;
                     JJ.targetY := targetY; JJ.direction := JJ.direction jj;
                     JJ.poopTimer := JJ.poopTimer jj; JJ.state := JJ.crawling;
                     JJ.angle := JJ.angle jj; JJ.lifeTime := JJ.lifeTime jj;
                     JJ.ropeElement := true |} |>
  | JJ.crawling =>
      let speed := $3 in
      let x := JJ.x jj + speed * JJ.direction jj in
      let poopTimer := S (JJ.poopTimer jj) in
      let g := if (20 <? poopTimer)%nat then spawnPoop x (JJ.y jj + $20) g else g in
      let poopTimer := if (20 <? poopTimer)%nat then 0%nat else poopTimer in
      let leftBound := pathCenter g - pathWidth g / $2 + $20 in
      let rightBound := pathCenter g + pathWidth g / $2 - $20 in
      let direction :=
        if (JJ.direction jj =? 1) && (x >? rightBound) then $(-1)
        else if (JJ.direction jj =? $(-1)) && (x <? leftBound) then 1
        else JJ.direction jj in
      let y := JJ.y jj - scrollSpeed g in
      if y <? $(-150)
      then g <| poopingJJ := None |>
      else
        g <| poopingJJ :=
               Some {| JJ.type := JJ.type jj; JJ.x := x; JJ.y := y;
                       JJ.targetY := JJ.targetY jj; JJ.direction := direction;
                       JJ.poopTimer := poopTimer; JJ.state := JJ.crawling;
                       JJ.angle := JJ.angle jj; JJ.lifeTime := JJ.lifeTime jj;
                       JJ.ropeElement := JJ.ropeElement jj |} |>
  | JJ.skiing => g
  end.

(** [updatePoopingJJ()] *)
Definition updatePoopingJJ (g : t) : t :=
  match poopingJJ g with
  | None => g
  | Some jj =>
      match JJ.type jj with
      | JJ.sled => updateSleddingJJ jj g
      | JJ.squat => updateSquattingJJ jj g
      end
  end.

(** [updatePath()], one definition for each of its statements. *)

(** [if (Math.abs(this.pathCenter - this.pathTarget) < 5) { ... }]; with
    [pathTarget] undefined the difference is NaN and the test is false. *)
Definition rerollTarget (g : t) : t :=
  let near := match pathTarget g with
              | Some target => Math_abs (pathCenter g - target) <? $5
              | None => false
              end in
  if near then
    let margin := $150 in
    let target := margin + random g * (CONFIG.GAME_WIDTH - margin * $2) in
    let g := (drawn g) <| pathTarget := Some target |> in
    if negb (isSplitting g)
    then (drawn g) <| targetPathWidth := $300 + random g * $300 |>
    else g
  else g.

(** [if (this.pathCenter < this.pathTarget) this.pathCenter += speed;
    else this.pathCenter -= speed;] *)
Definition moveCenter (g : t) : t :=
  let speed := $0.5 + scrollSpeed g * $0.1 in
  let below := match pathTarget g with
               | Some target => pathCenter g <? target
               | None => false
               end in
  if below then g <| pathCenter := pathCenter g + speed |>
  else g <| pathCenter := pathCenter g - speed |>.

(** The two tests on [pathWidth], one after the other. *)
Definition adjustWidth (g : t) : t :=
  let g := if pathWidth g <? targetPathWidth g
           then g <| pathWidth := pathWidth g + $0.5 |> else g in
  if pathWidth g >? targetPathWidth g
  then g <| pathWidth := pathWidth g - $0.5 |> else g.

(** [this.splitTimer++] and the start of a split. *)
Definition startSplit (g : t) : t :=
  let g := g <| splitTimer := S (splitTimer g) |> in
  if negb (isSplitting g) && (splitDistance g =? 0) then
    let r := random g in
    let g := drawn g in
    if ofNat (splitTimer g) >? $500 + r * $500
    then g <| isSplitting := true |> <| splitTimer := 0%nat |>
    else g
  else g.

(** [if (this.isSplitting && this.splitDistance === 0) { ... }] *)
Definition widenForSplit (g : t) : t :=
  if isSplitting g && (splitDistance g =? 0) then
    let g := g <| targetPathWidth := $750 |> in
    if pathWidth g >=? $700 then g <| startSeparating := true |> else g
  else g.

(** [if (this.isSplitting && this.startSeparating) { ... }] *)
Definition separate (g : t) : t :=
  if isSplitting g && startSeparating g then
    if splitDistance g <? maxSplitDistance g
    then g <| splitDistance := splitDistance g + $1.5 |>
    else if (400 <? splitTimer g)%nat
         then g <| isSplitting := false |> <| startSeparating := false |>
                <| splitTimer := 0%nat |>
         else g
  else g.

(** [if (!this.isSplitting && this.splitDistance > 0) { ... }] *)
Definition contract (g : t) : t :=
  if negb (isSplitting g) && (splitDistance g >? 0) then
    let g := g <| splitDistance := splitDistance g - $1.5 |> in
    if splitDistance g <=? 0
    then g <| splitDistance := 0 |> <| targetPathWidth := $450 |>
    else g
  else g.

Definition updatePath (g : t) : t :=
  let g := rerollTarget g in
  let g := moveCenter g in
  let g := adjustWidth g in
  let g := startSplit g in
  let g := widenForSplit g in
  let g := separate g in
  contract g.

(** [spawnJJBarrier()] *)
Definition spawnJJBarrier (g : t) : t :=
  if distance g <? $100 then g
  else
    let isLeft := random g >? $0.5 in
    let g := drawn g in
    let offset := pathWidth g / $2 - $30 in
    let x := if isLeft then pathCenter g - offset else pathCenter g + offset in
    let x := Math_max $100 (Math_min (CONFIG.GAME_WIDTH - $100) x) in
    let obstacle := Obstacle.new (pathCenter g) (CONFIG.GAME_HEIGHT + $150)
                      Obstacle.jj_barrier in
    let obstacle := Obstacle.setKidOffsetX (x - pathCenter g) obstacle in
    g <| obstacles := obstacles g ++ [obstacle] |>.

(** [spawnTreeAt(x, y)] *)
Definition spawnTreeAt (x y : Qc) (g : t) : t :=
  let jitter := (random g - $0.5) * $20 in
  let g := drawn g in
  g <| obstacles := obstacles g ++ [Obstacle.new (x + jitter) y Obstacle.tree] |>.

(** [spawnWallTrees()] *)
Definition spawnWallTrees (g : t) : t :=
  if (distance g >? $700) && (distance g <? $1300) then g
  else
    let y := CONFIG.GAME_HEIGHT + $50 in
    let leftPathCenter := pathCenter g - splitDistance g / $2 in
    let rightPathCenter := pathCenter g + splitDistance g / $2 in
    let currentPathWidth :=
      if isSplitting g || (splitDistance g >? 0)
      then pathWidth g / $2 else pathWidth g in
    let leftEdge := leftPathCenter - currentPathWidth / $2 in
    let g := spawnTreeAt (leftEdge - $20) y g in
    let rightEdge := rightPathCenter + currentPathWidth / $2 in
    let g := spawnTreeAt (rightEdge + $20) y g in
    if splitDistance g >? $80 then
      let midLeft := leftPathCenter + currentPathWidth / $2 in
      let midRight := rightPathCenter - currentPathWidth / $2 in
      if midRight >? midLeft
      then spawnTreeAt ((midLeft + midRight) / $2) y g
      else g
    else g.

(** [spawnInternalObstacle()] *)
Definition spawnInternalObstacle (g : t) : t :=
  let rand := random g in
  let g := drawn g in
  let type := Obstacle.rock in
  let type := if (distance g >? $400) && (rand >? $0.7)
              then Obstacle.flag else type in
  let type := if (distance g >? $800) && (rand >? $0.92)
              then Obstacle.ditch else type in
  let forked := splitDistance g >? $50 in
  let side := random g in
  let g := if forked then drawn g else g in
  let targetCenter :=
    if forked then
      if side >? $0.5 then pathCenter g - splitDistance g / $2
      else pathCenter g + splitDistance g / $2
    else pathCenter g in
  let targetWidth := if forked then pathWidth g / $2 else pathWidth g in
  let safeWidth := targetWidth - $60 in
  let xOffset := (random g - $0.5) * safeWidth in
  let g := drawn g in
  let x := targetCenter + xOffset in
  let obstacle := Obstacle.new x (CONFIG.GAME_HEIGHT + $50) type in
  g <| obstacles := obstacles g ++ [obstacle] |>.

(** [spawnObstacle()] *)
Definition spawnObstacle (g : t) : t :=
  let g := updatePath g in
  let currentHundred := Math_floor (distance g / $100) in
  if (lastHundredMeters g <? currentHundred)%Z && (0 <? currentHundred)%Z then
    spawnJJBarrier (g <| lastHundredMeters := currentHundred |>)
  else
    let g := if (frameCount g mod 10 =? 0)%nat then spawnWallTrees g else g in
    let spawnRate := CONFIG.OBSTACLE_SPAWN_RATE in
    let spawnRate := if distance g >? $500 then 45%nat else spawnRate in
    let spawnRate := if distance g >? $1000 then 30%nat else spawnRate in
    if (frameCount g mod spawnRate =? 0)%nat then spawnInternalObstacle g else g.

(** The body of the loop over [this.obstacles] in [update]: the obstacle
    after the iteration, or [None] when it is spliced out. *)
Definition stepObstacle (obs : Obstacle.t) (g : t) : t * option Obstacle.t :=
  let obs := Obstacle.setY (Obstacle.y obs - scrollSpeed g) obs in
  let r :=
    if negb (Player.isJumping (player g)) then
      if checkCollision (player g) obs then
        match Obstacle.type obs with
        | Obstacle.carousel => triggerCarouselEffect obs g
        | _ => (triggerExplosion obs g, obs)
        end
      else (g, obs)
    else (g, obs) in
  if Obstacle.y (snd r) <? $(-100) then (fst r, None)
  else (fst r, Some (Obstacle.updateAnimation (snd r))).

(** [for (let i = this.obstacles.length - 1; i >= 0; i--)]: the obstacles of
    higher index are visited first. *)
Fixpoint obstacleLoop (l : list Obstacle.t) (g : t) : t * list Obstacle.t :=
  match l with
  | [] => (g, [])
  | obs :: rest =>
      let r := obstacleLoop rest g in
      let s := stepObstacle obs (fst r) in
      (fst s, match snd s with
              | Some obs' => obs' :: snd r
              | None => snd r
              end)
  end.

(** The last statement of [update]: collision resolution. *)
Definition resolveCollisions (g : t) : t :=
  let r := obstacleLoop (obstacles g) g in
  (fst r) <| obstacles := snd r |>.

(** The statements of [update] from the distance increment to the camera.
    The shake reads [this.svg.style.transform], which nothing in the source
    writes, so its branch is not taken and draws no random number. *)
Definition accrue (g : t) : t :=
  let g := g <| distance := distance g + scrollSpeed g * CONFIG.METER_SCALE |> in
  let targetMaxSpeed := if carouselActive g then $4 else CONFIG.MAX_SPEED in
  let g := if scrollSpeed g <? targetMaxSpeed
           then g <| scrollSpeed := scrollSpeed g + $0.001 |>
           else if scrollSpeed g >? targetMaxSpeed
                then g <| scrollSpeed := scrollSpeed g - $0.05 |>
                else g in
  let targetCamX := Player.x (player g) - CONFIG.GAME_WIDTH / $2 in
  g <| cameraX := cameraX g + (targetCamX - cameraX g) * $0.1 |>.

(** "Spawn Logic for Pooping JJ" in [update]. *)
Definition pooperRule (g : t) : t :=
  match poopingJJ g with
  | Some _ => g
  | None =>
      if negb (hasSpawnedFirstPooper g) && (distance g >? $250) then
        let g := spawnPoopingJJ (Some JJ.squat) g in
        let g := g <| hasSpawnedFirstPooper := true |> in
        g <| lastPoopJJSpawn := distance g |>
      else if hasSpawnedFirstPooper g
              && (distance g - lastPoopJJSpawn g >? $400) then
        let g := spawnPoopingJJ None g in
        g <| lastPoopJJSpawn := distance g |>
      else g
  end.

(** The carousel spawns of [update]. *)
Definition carouselRule (g : t) : t :=
  if negb (hasSpawnedCarousel1 g) && (distance g >? $750) then
    (spawnCarousel 1 g) <| hasSpawnedCarousel1 := true |>
  else if negb (hasSpawnedCarousel2 g) && (distance g >? $1250) then
    (spawnCarousel 2 g) <| hasSpawnedCarousel2 := true |>
  else g.

(** The statements of [update] from the steering to [updateTrails()]. *)
Definition steer (now : Qc) (g : t) : t :=
  let moveDir := 0 in
  let moveDir := if ArrowLeft (keys g) || KeyA (keys g)
                 then moveDir - 1 else moveDir in
  let moveDir := if ArrowRight (keys g) || KeyD (keys g)
                 then moveDir + 1 else moveDir in
  let moveDir := if carouselActive g then moveDir * $(-1) else moveDir in
  let g := if negb (moveDir =? 0)
           then g <| player := Player.move (moveDir * CONFIG.PLAYER_SPEED)
                                 (player g) |>
           else g in
  let g := g <| player := Player.update now (player g) |> in
  let g :=
    if negb (Player.isJumping (player g)) then
      g <| trails := trails g ++
             [ {| Trail.x := Player.x (player g);
                  Trail.y := Player.y (player g) + $15;
                  Trail.age := 0 |} ] |>
    else g in
  updateTrails g.

(** [update(deltaTime)]; [now] is the value of [performance.now()] read by
    [Player.update]. *)
Definition update (now : Qc) (g : t) : t :=
  let g := g <| frameCount := S (frameCount g) |> in
  let r := ParticleSystem.update (particleSystem g) in
  let hasParticles := snd r in
  let g := g <| particleSystem := fst r |> in
  match state g with
  | EXPLODING => if negb hasParticles then gameOver g else g
  | _ =>
      let g := accrue g in
      let g := pooperRule g in
      let g := updatePoopingJJ g in
      let g := carouselRule g in
      if distance g >=? CONFIG.WIN_DISTANCE then victory g
      else
        let g := steer now g in
        let g := spawnObstacle g in
        resolveCollisions g
  end.

(** [gameLoop(timestamp)] *)
Definition gameLoop (now : Qc) (g : t) : t :=
  match state g with
  | PLAYING | EXPLODING => update now g
  | _ => g
  end.

(** The listeners installed by [setupInputs] and [init]; [e.code] is the
    string of the key. *)
Definition setKey (code : string) (v : bool) (k : keymap) : keymap :=
  if String.eqb code "ArrowLeft" then mkKeys v (ArrowRight k) (KeyA k) (KeyD k)
  else if String.eqb code "ArrowRight" then mkKeys (ArrowLeft k) v (KeyA k) (KeyD k)
  else if String.eqb code "KeyA" then mkKeys (ArrowLeft k) (ArrowRight k) v (KeyD k)
  else if String.eqb code "KeyD" then mkKeys (ArrowLeft k) (ArrowRight k) (KeyA k) v
  else k.

Definition isJumpKey (code : string) : bool :=
  String.eqb code "Space" || String.eqb code "KeyW" || String.eqb code "ArrowUp".

Inductive event : Type :=
| keydown (code : string) (now : Qc)
| keyup (code : string)
| frame (now : Qc)
| clickStart
| clickRestart.

Definition handle (e : event) (g : t) : t :=
  match e with
  | keydown code now =>
      let g := g <| keys := setKey code true (keys g) |> in
      if isJumpKey code then
        match state g with
        | PLAYING => g <| player := Player.jump now (player g) |>
        | _ => g
        end
      else g
  | keyup code => g <| keys := setKey code false (keys g) |>
  | frame now => gameLoop now g
  | clickStart => startGame g
  | clickRestart => restart g
  end.

(** The game after a sequence of events, oldest first. *)
Definition run (es : list event) (g : t) : t :=
  fold_left (fun g e => handle e g) es g.

End WithPlatform.

End Game.

(** * Vocabulary of the properties *)

Import Game.

(** A platform on which the model is run on concrete inputs: every call of
    [Math.random()] returns 0.5; the trigonometric functions, which only feed
    the display, are constant. *)
Definition samplePlatform : Platform :=
  {| Math_sin := fun _ => 0; Math_cos := fun _ => 1; Math_PI := $3.14;
     Math_random := fun _ => $0.5 |}.

(** The two vertical conjuncts of [checkCollision]. *)
Definition verticalOverlap (p : Player.t) (o : Obstacle.t) : bool :=
  let py := Player.y p - $10 in
  let ph := $20 in
  let oy := Obstacle.y o - Obstacle.height o in
  let oh := Obstacle.height o in
  (py <? oy + oh) && (py + ph >? oy).

(** The two horizontal conjuncts of [checkCollision]. *)
Definition horizontalOverlap (p : Player.t) (o : Obstacle.t) : bool :=
  let px := Player.x p - $15 in
  let pw := $30 in
  let ox := Obstacle.x o - Obstacle.width o / $2 in
  let ow := Obstacle.width o in
  (px <? ox + ow) && (px + pw >? ox).

(** The hitbox of [o] is the one its constructor gives to its type. *)
Definition constructorBox (o : Obstacle.t) : Prop :=
  Obstacle.width o = Obstacle.width (Obstacle.new 0 0 (Obstacle.type o)) /\
  Obstacle.height o = Obstacle.height (Obstacle.new 0 0 (Obstacle.type o)).

(** A player who has steered right for 74 frames, and a carousel level with
    the player in the middle of the playfield. *)
Definition steeredPlayer : Player.t :=
  Nat.iter 74 (Player.move ($1 * CONFIG.PLAYER_SPEED)) Game.createPlayer.

Definition midCarousel : Obstacle.t :=
  Obstacle.setY $300
    (Obstacle.setPhase 1 (Obstacle.new $512 (CONFIG.GAME_HEIGHT + $200) Obstacle.carousel)).

(** Calling [update()] until it returns [false]: the particles left and the
    number of calls made, or [None] when [fuel] calls were not enough. *)
Fixpoint advanceUntilFalse (fuel : nat) (ps : ParticleSystem.t)
  : option (ParticleSystem.t * nat) :=
  match fuel with
  | O => None
  | S fuel' =>
      let r := ParticleSystem.update ps in
      if snd r then
        match advanceUntilFalse fuel' (fst r) with
        | Some (ps', n) => Some (ps', S n)
        | None => None
        end
      else Some (fst r, 1%nat)
  end.


(** Every particle of [ps] has at most [bound] of life left and decays by at
    least 0.01 a frame. *)
Definition fading (bound : Qc) (ps : ParticleSystem.t) : Prop :=
  Forall (fun p => ParticleSystem.life p <= bound /\
                   $0.01 <= ParticleSystem.decay p) ps.


(** The path model, the antagonist's slot, the odometer and the fields that
    only the second half of [update] writes, as tuples of fields of [Game]. *)
Definition pathModel (g : Game.t) :=
  (pathCenter g, pathTarget g, pathWidth g, targetPathWidth g, isSplitting g,
   startSeparating g, splitDistance g, maxSplitDistance g, splitTimer g).

Definition pooperSlot (g : Game.t) :=
  (poopingJJ g, lastPoopJJSpawn g, hasSpawnedFirstPooper g).

Definition odometer (g : Game.t) := (distance g, scrollSpeed g).

Definition bystanders (g : Game.t) :=
  (player g, trails g, carouselActive g, particleSystem g,
   lastHundredMeters g, keys g).

Section Vocabulary.
Context {env : Platform}.

(** What the loop body reads of the game to decide a collision. *)
Definition collider (g : Game.t) :=
  (Player.x (player g), Player.y (player g), Player.isJumping (player g),
   scrollSpeed g).

(** The obstacle as the loop body tests it: moved up by the scroll speed. *)
Definition moved (g : Game.t) (o : Obstacle.t) : Obstacle.t :=
  Obstacle.setY (Obstacle.y o - scrollSpeed g) o.

(** [o] overlaps the player of [g] this frame and is not a carousel. *)
Definition fatal (g : Game.t) (o : Obstacle.t) : bool :=
  negb (Obstacle.kind_eqb (Obstacle.type o) Obstacle.carousel)
  && checkCollision (player g) (moved g o).

(** The game after the first statements of [update]: the frame counter and
    the particles have advanced. *)
Definition ticked (g : Game.t) : Game.t :=
  let g := g <| frameCount := S (frameCount g) |> in
  g <| particleSystem := fst (ParticleSystem.update (particleSystem g)) |>.

(** The game at the test [this.distance >= CONFIG.WIN_DISTANCE]. *)
Definition beforeWinCheck (g : Game.t) : Game.t :=
  carouselRule (updatePoopingJJ (pooperRule (accrue (ticked g)))).

(** The game at the entry of the loop over the obstacles. *)
Definition beforeCollisions (now : Qc) (g : Game.t) : Game.t :=
  spawnObstacle (steer now (beforeWinCheck g)).

(** Events other than the two session commands. *)
Definition quiet (e : event) : Prop :=
  match e with
  | clickStart | clickRestart => False
  | _ => True
  end.

(** The value returned by the call number [k] (from 0) of
    [particleSystem.update()] on the particles [ps]. *)
Definition report (k : nat) (ps : ParticleSystem.t) : bool :=
  snd (ParticleSystem.update
         (Nat.iter k (fun q => fst (ParticleSystem.update q)) ps)).

(** The number of calls of [playSpiegelei()] made so far. *)
Definition spiegeleiCount (g : Game.t) : nat :=
  List.length (filter (cue_eqb playSpiegelei) (audio g)).

(** [o] overlaps the player of [g] this frame while the player is grounded. *)
Definition overlapsGrounded (g : Game.t) (o : Obstacle.t) : bool :=
  negb (Player.isJumping (player g)) && checkCollision (player g) (moved g o).

(** The life of one obstacle: [frames] are the games in which the loop body
    is run on it, one per frame and otherwise arbitrary, until it is spliced
    out.  [lifetimeDispatches] counts the carousel cues sent on the way and
    [everOverlaps] tells whether one of these frames reported an overlap. *)
Fixpoint lifetimeDispatches (frames : list Game.t) (o : Obstacle.t) : nat :=
  match frames with
  | [] => 0
  | g :: rest =>
      let s := stepObstacle o g in
      (spiegeleiCount (fst s) - spiegeleiCount g) +
      match snd s with
      | Some o' => lifetimeDispatches rest o'
      | None => 0
      end
  end%nat.

Fixpoint everOverlaps (frames : list Game.t) (o : Obstacle.t) : bool :=
  match frames with
  | [] => false
  | g :: rest =>
      overlapsGrounded g o ||
      match snd (stepObstacle o g) with
      | Some o' => everOverlaps rest o'
      | None => false
      end
  end.

(** The first half of the loop body: the move and the collision. *)
Definition contact (o : Obstacle.t) (g : Game.t) : Game.t * Obstacle.t :=
  if negb (Player.isJumping (player g)) then
    if checkCollision (player g) (moved g o) then
      match Obstacle.type (moved g o) with
      | Obstacle.carousel => triggerCarouselEffect (moved g o) g
      | _ => (triggerExplosion (moved g o) g, moved g o)
      end
    else (g, moved g o)
  else (g, moved g o).

(** A game is reachable when some sequence of events leads to it from the
    game that the constructor builds. *)
Definition reachable (g : Game.t) : Prop := exists es, g = run es Game.new.

(** The test of the last statement of [updatePath]: the fork is closing. *)
Definition contracting (g : Game.t) : bool :=
  negb (isSplitting g) && (splitDistance g >? 0).

(** The antagonist created by the event [e] in the game [g], with the
    distance at which it was created: the slot is empty when the spawn rule
    of the frame is reached and occupied after it. *)
Definition spawnedBy (e : event) (g : Game.t) : option (Qc * JJ.kind) :=
  match e with
  | frame _ =>
      match state g with
      | PLAYING =>
          let g1 := accrue (ticked g) in
          match poopingJJ g1, poopingJJ (pooperRule g1) with
          | None, Some jj => Some (distance g1, JJ.type jj)
          | _, _ => None
          end
      | _ => None
      end
  | _ => None
  end.

(** The spawns of the current session, latest first, after the events [es]
    played from [g] with the log [log]; a restart opens a new session. *)
Fixpoint spawnLog (es : list event) (g : Game.t) (log : list (Qc * JJ.kind))
  : list (Qc * JJ.kind) :=
  match es with
  | [] => log
  | e :: es' =>
      let log' := match e with
                  | clickRestart => []
                  | _ => match spawnedBy e g with
                         | Some s => s :: log
                         | None => log
                         end
                  end in
      spawnLog es' (handle e g) log'
  end.

(** The first spawn of a log is a squat beyond 250 m and every later spawn
    comes more than 400 m after the one before. *)
Fixpoint spaced (log : list (Qc * JJ.kind)) : Prop :=
  match log with
  | [] => True
  | (d, k) :: rest =>
      match rest with
      | [] => $250 < d /\ k = JJ.squat
      | (d', _) :: _ => $400 < d - d' /\ spaced rest
      end
  end.

(** The log agrees with the fields of the game that drive the spawn rule. *)
Definition logged (g : Game.t) (log : list (Qc * JJ.kind)) : Prop :=
  spaced log /\
  match log with
  | [] => hasSpawnedFirstPooper g = false /\ poopingJJ g = None
  | (d, _) :: _ => hasSpawnedFirstPooper g = true /\ lastPoopJJSpawn g = d
  end.

(** The centre of the path and its target. *)
Definition pathAxis (g : Game.t) := (pathCenter g, pathTarget g).

(** The frame counter with the two carousel flags; fields that no spawn
    touches; the player without the opacity of its element; what the
    collision loop cannot change. *)
Definition marks (g : Game.t) :=
  (frameCount g, hasSpawnedCarousel1 g, hasSpawnedCarousel2 g).

Definition sideFields (g : Game.t) :=
  (trails g, particleSystem g, marks g, carouselActive g).

Definition pose (p : Player.t) :=
  (Player.x p, Player.y p, Player.isJumping p, Player.jumpStartTime p,
   Player.baseScale p, Player.scale p, Player.angle p, Player.bobOffset p,
   Player.frameCount p).

Definition passive (g : Game.t) :=
  (trails g, lastHundredMeters g, marks g, pose (player g)).

(** The bounds of the scroll speed and of the distance. *)
Definition cruising (g : Game.t) : Prop :=
  $3.5 <= scrollSpeed g /\ scrollSpeed g <= $8.001 /\ 0 <= distance g.

(** The distance of a run of [n] frames in which the speed grows by 0.001
    in every frame: the farthest that [n] frames can take the player. *)
Fixpoint farthest (n : nat) : Qc :=
  match n with
  | O => 0
  | S k => farthest k
           + (CONFIG.INITIAL_SCROLL_SPEED + ofNat k * $0.001)
             * CONFIG.METER_SCALE
  end.

(** The speed and the distance against the frame counter. *)
Definition paced (g : Game.t) : Prop :=
  scrollSpeed g <= CONFIG.INITIAL_SCROLL_SPEED + ofNat (frameCount g) * $0.001 /\
  distance g <= farthest (frameCount g).

(** The flags against the distance. *)
Definition flagged (g : Game.t) : Prop :=
  hasSpawnedFirstPooper g = (distance g >? $250) /\
  hasSpawnedCarousel1 g = (distance g >? $750) /\
  hasSpawnedCarousel2 g = (distance g >? $1250) /\
  (hasSpawnedFirstPooper g = false -> poopingJJ g = None).

(** [f] only appends obstacles, each of which satisfies [P]. *)
Definition appends (P : Obstacle.t -> Prop) (f : Game.t -> Game.t) : Prop :=
  forall g, exists l, obstacles (f g) = obstacles g ++ l /\ Forall P l.

(** The obstacles that [spawnObstacle] adds outside of a hundred-metre
    frame are trees, rocks, flags and ditches. *)
Definition scenery (o : Obstacle.t) : Prop :=
  exists x y, o = Obstacle.new x y Obstacle.tree \/
              o = Obstacle.new x y Obstacle.rock \/
              o = Obstacle.new x y Obstacle.flag \/
              o = Obstacle.new x y Obstacle.ditch.

(** The mark against the distance. *)
Definition hundreds (g : Game.t) : Prop :=
  (0 <= lastHundredMeters g <= 19)%Z /\
  (lastHundredMeters g <= Math_floor (distance g / $100))%Z /\
  (distance g < CONFIG.WIN_DISTANCE ->
   lastHundredMeters g = Math_floor (distance g / $100)).

(** What holds of every obstacle that the game has built, whatever has
    happened to it since. *)
Definition sound (o : Obstacle.t) : Prop :=
  constructorBox o /\
  Obstacle.type o <> Obstacle.kid /\
  (Obstacle.triggered o = true -> Obstacle.type o = Obstacle.carousel) /\
  (Obstacle.type o = Obstacle.carousel ->
   Obstacle.phase o = 1%nat \/ Obstacle.phase o = 2%nat) /\
  (Obstacle.type o = Obstacle.jj_barrier ->
   $100 <= Obstacle.x o + Obstacle.kidOffsetX o /\
   Obstacle.x o + Obstacle.kidOffsetX o <= CONFIG.GAME_WIDTH - $100) /\
  (Obstacle.barrierState o <> Obstacle.wait ->
   Obstacle.type o = Obstacle.jj_barrier) /\
  ((Obstacle.animTimer o <= 40)%nat /\
   (Obstacle.barrierState o = Obstacle.crack ->
    (Obstacle.animTimer o <= 10)%nat)) /\
  (Obstacle.type o = Obstacle.ditch ->
   $0.1 <= Obstacle.scaleX o /\ Obstacle.scaleX o < $1.55 /\
   Obstacle.animationSpeed o = $0.05).

(** What [spawnObstacle] appends: scenery, or one barrier. *)
Definition spawnable (o : Obstacle.t) : Prop :=
  scenery o \/
  exists x y k,
    o = Obstacle.setKidOffsetX k (Obstacle.new x y Obstacle.jj_barrier) /\
    $100 <= x + k /\ x + k <= CONFIG.GAME_WIDTH - $100.

(** The obstacles that are left of [l] after one iteration on each, all on
    the same game. *)
Definition survivors (g : Game.t) (l : list Obstacle.t) : list Obstacle.t :=
  flat_map (fun o => match snd (stepObstacle o g) with
                     | Some o' => [o']
                     | None => []
                     end) l.

(** The samples of a trail are ordered from the oldest to the newest, each
    between 1 and 200 frames old and not above y = -100. *)
Definition trailSample (s : Trail.t) : Prop :=
  (1 <= Trail.age s <= 200)%nat /\ $(-100) <= Trail.y s.

Definition tidy (ts : list Trail.t) : Prop :=
  Forall trailSample ts /\
  StronglySorted (fun a b => (Trail.age b < Trail.age a)%nat) ts.

(** The samples of [ts] are older than [n] frames. *)
Definition olderThan (n : nat) (ts : list Trail.t) : Prop :=
  Forall (fun s => (n < Trail.age s)%nat) ts.

(** What the listeners and the frames keep of the player. *)
Definition poised (p : Player.t) : Prop :=
  Player.y p = $150 /\ Player.baseScale p = $0.8 /\
  $(-15) <= Player.angle p /\ Player.angle p <= $15 /\
  (Player.isJumping p = false -> Player.scale p = Player.baseScale p).

(** What holds of the antagonist of the slot from its spawn on. *)
Definition mannered (jj : JJ.t) : Prop :=
  (JJ.direction jj = 1 \/ JJ.direction jj = $(-1)) /\
  match JJ.type jj with
  | JJ.sled =>
      JJ.state jj <> JJ.crawling /\ JJ.ropeElement jj = false /\
      (JJ.poopTimer jj <= 60)%nat /\ JJ.targetY jj = $200 /\
      JJ.y jj <= CONFIG.GAME_HEIGHT + $100 /\
      (JJ.state jj = JJ.entering ->
       JJ.y jj < $200 /\ JJ.lifeTime jj = 0%nat /\ JJ.poopTimer jj = 0%nat) /\
      ((JJ.lifeTime jj <= 600)%nat ->
       JJ.y jj <= $204 + ofNat (JJ.lifeTime jj) * $0.5)
  | JJ.squat =>
      JJ.state jj <> JJ.skiing /\ (JJ.poopTimer jj <= 20)%nat /\
      (JJ.state jj = JJ.entering -> JJ.y jj = $(-100)) /\
      (JJ.state jj = JJ.crawling ->
       $(-150) <= JJ.y jj /\ JJ.ropeElement jj = true)
  end.

Definition slotMannered (g : Game.t) : Prop :=
  match poopingJJ g with
  | Some jj => mannered jj
  | None => True
  end.

(** The target of the centre is undefined, so the width of the path is
    never re-rolled: it moves in steps of 0.5 between 450 and 750, the
    width of a fork. *)
Definition shaped (g : Game.t) : Prop :=
  pathTarget g = None /\ maxSplitDistance g = $250 /\
  (exists n, (n <= 600)%nat /\ pathWidth g = $450 + ofNat n * $0.5) /\
  (targetPathWidth g = $450 \/ targetPathWidth g = $750) /\
  (0 <= splitDistance g /\ splitDistance g <= $251.5).

(** [moveDir] as [update] computes it from the keys and the reversal. *)
Definition heading (g : Game.t) : Qc :=
  let moveDir := 0 in
  let moveDir := if ArrowLeft (keys g) || KeyA (keys g)
                 then moveDir - 1 else moveDir in
  let moveDir := if ArrowRight (keys g) || KeyD (keys g)
                 then moveDir + 1 else moveDir in
  if carouselActive g then moveDir * $(-1) else moveDir.

(** The patch is within the band that the background keeps filled. *)
Definition inBand (p : BackgroundManager.patch) : Prop :=
  (0 <= BackgroundManager.x p /\
   BackgroundManager.x p < BackgroundManager.width) /\
  ($(-100) <= BackgroundManager.y p /\
   BackgroundManager.y p <= BackgroundManager.height + $100).

(** The background after [reset()] and one [update] for each of the scroll
    speeds, with the cursor of its random numbers. *)
Definition scrolled (speeds : list Qc) (rng : nat) : BackgroundManager.t * nat :=
  fold_left (fun st s => BackgroundManager.update s (fst st) (snd st))
            speeds (BackgroundManager.reset rng).

(** The [AudioManager] after the calls that the game has made to it. *)
Definition perform (a : AudioManager.t) (c : cue) : AudioManager.t :=
  match c with
  | audioStart => AudioManager.start a
  | audioStop => AudioManager.stop a
  | playGagi | playSpiegelei => a
  end.

Definition heard (log : list cue) : AudioManager.t :=
  fold_left perform log AudioManager.new.

(** The manager plays exactly when the state is PLAYING, and then it is
    initialized. *)
Definition tuned (g : Game.t) : Prop :=
  AudioManager.isPlaying (heard (audio g))
  = match state g with PLAYING => true | _ => false end /\
  (AudioManager.isPlaying (heard (audio g)) = true ->
   AudioManager.isInitialized (heard (audio g)) = true).

(** The player of a game that is exploding or over is hidden. *)
Definition hiddenWhenDead (g : Game.t) : Prop :=
  state g = EXPLODING \/ state g = GAMEOVER ->
  Player.opacity (player g) = 0.

(** What the loop over the obstacles does to an obstacle that stays and
    meets nothing, over frames of the given scroll speeds. *)
Definition scrollBy (speeds : list Qc) (o : Obstacle.t) : Obstacle.t :=
  fold_left (fun o s => Obstacle.updateAnimation
                          (Obstacle.setY (Obstacle.y o - s) o)) speeds o.

(** The state and the timer of a barrier [n] frames after its kid has
    started to jump. *)
Definition barrierPhase (n : nat) : Obstacle.barrier * nat :=
  if (n <=? 40)%nat then (Obstacle.jump, n)
  else if (n <=? 51)%nat then (Obstacle.crack, (n - 41)%nat)
       else (Obstacle.done, 11%nat).

(** Until the first carousel has been spawned there is no carousel among
    the obstacles and the controls are not reversed. *)
Definition unreversed (g : Game.t) : Prop :=
  hasSpawnedCarousel1 g = false ->
  carouselActive g = false /\
  Forall (fun o => Obstacle.type o <> Obstacle.carousel) (obstacles g).

End Vocabulary.

(** A game in state PLAYING with a rock on the player, and the same game at
    1999.9 m. *)
Definition crashGame : Game.t :=
  (startGame Game.new) <| obstacles := [Obstacle.new $512 $165 Obstacle.rock] |>.

Definition winningCrashGame : Game.t := crashGame <| distance := $1999.9 |>.

(** Holding the space bar: the key repeats before each of [n] frames, which
    are [dt] ms apart, from time [t]. *)
Fixpoint holdSpace (dt : Qc) (n : nat) (t : Qc) : list event :=
  match n with
  | O => []
  | S n' => keydown "Space" t :: frame (t + dt) :: holdSpace dt n' (t + dt)
  end.

(** A session of [n] frames in which the player holds the space bar. *)
Definition jumping (n : nat) : Game.t :=
  @run samplePlatform (clickStart :: holdSpace $5 n 0) Game.new.

(** What the properties of the fork read off a game: whether a split is
    under way, whether [updatePath] leaves one under way, whether the fork
    is closing, the fork distance, the path width and its target, the
    distance and the number of obstacles. *)
Definition forkFields {env : Platform} (g : Game.t)
  : bool * bool * bool * Q * Q * Q * Q * nat :=
  (isSplitting g, isSplitting (updatePath g), contracting g,
   this (splitDistance g), this (pathWidth g), this (targetPathWidth g),
   this (distance g), List.length (obstacles g)).

(** The session of the counterexample to C2: the player starts the game and
    holds the space bar through 600 frames that are 5 ms apart. *)
Definition longJumpEvents : list event := clickStart :: holdSpace $5 600 0.

Definition longJumpSession : Game.t := @run samplePlatform longJumpEvents Game.new.

(** A start and three frames without input. *)
Definition shortEvents : list event :=
  [clickStart; frame 0; frame $16; frame $32].

Definition shortSession : Game.t := @run samplePlatform shortEvents Game.new.

(** A session without input: the player meets the first barrier in frame
    359. *)
Definition crashEvents : list event := clickStart :: map frame (repeat 0 360).

Definition crashSession : Game.t := @run samplePlatform crashEvents Game.new.

(** A session that meets the first carousel.  The player jumps at the
    start and, the clock standing still, stays in the air; after 1705 frames
    the left key goes down, and 135 frames later the clock moves on by
    800 ms: the player lands 1088 px left of the start, on the carousel
    that was spawned at 750 m. *)
Definition carouselEvents : list event :=
  clickStart :: keydown "Space" 0 :: map frame (repeat 0 1705)
  ++ keydown "ArrowLeft" 0 :: map frame (repeat 0 135) ++ [frame $800].

Definition carouselSession : Game.t :=
  @run samplePlatform carouselEvents Game.new.

(** What the witnesses read off [carouselSession]. *)
Definition sessionFields (g : Game.t) : status * bool * Q * Q * bool :=
  (state g, carouselActive g, this (distance g), this (Player.x (player g)),
   Player.isJumping (player g)).

(** * Properties *)

(** ** Numbers *)

Lemma ltb_lt (a b : Qc) : (a <? b) = true <-> a < b.
Proof. unfold ltb. rewrite Qclt_alt. destruct (a ?= b); split; congruence. Qed.

Lemma ltb_ge (a b : Qc) : (a <? b) = false <-> b <= a.
Proof.
  split; intro H.
  - apply Qcnot_lt_le. intro L. apply ltb_lt in L. congruence.
  - destruct (a <? b) eqn:E; [|reflexivity].
    apply ltb_lt in E. exfalso. exact (Qcle_not_lt _ _ H E).
Qed.

Lemma leb_le (a b : Qc) : (a <=? b) = true <-> a <= b.
Proof. unfold leb. rewrite Qcle_alt. destruct (a ?= b); split; congruence. Qed.

Lemma leb_gt (a b : Qc) : (a <=? b) = false <-> b < a.
Proof.
  split; intro H.
  - apply Qcnot_le_lt. intro L. apply leb_le in L. congruence.
  - destruct (a <=? b) eqn:E; [|reflexivity].
    apply leb_le in E. exfalso. exact (Qclt_not_le _ _ H E).
Qed.

Lemma eqb_eq (a b : Qc) : (a =? b) = true <-> a = b.
Proof. unfold eqb. rewrite Qceq_alt. destruct (a ?= b); split; congruence. Qed.

Lemma eqb_neq (a b : Qc) : (a =? b) = false <-> a <> b.
Proof. unfold eqb. rewrite Qceq_alt. destruct (a ?= b); split; congruence. Qed.

Lemma this_plus (a b : Qc) : (this (a + b) == this a + this b)%Q.
Proof. unfold Qcplus. cbn [this Q2Qc]. apply Qred_correct. Qed.

Lemma this_mult (a b : Qc) : (this (a * b) == this a * this b)%Q.
Proof. unfold Qcmult. cbn [this Q2Qc]. apply Qred_correct. Qed.

Lemma this_opp (a : Qc) : (this (- a) == - this a)%Q.
Proof. unfold Qcopp. cbn [this Q2Qc]. apply Qred_correct. Qed.

Lemma this_minus (a b : Qc) : (this (a - b) == this a - this b)%Q.
Proof. unfold Qcminus. rewrite this_plus, this_opp. reflexivity. Qed.

Lemma this_inv (a : Qc) : (this (/ a) == / this a)%Q.
Proof. unfold Qcinv. cbn [this Q2Qc]. apply Qred_correct. Qed.

Lemma this_div (a b : Qc) : (this (a / b) == this a / this b)%Q.
Proof. unfold Qcdiv. rewrite this_mult, this_inv. reflexivity. Qed.

Lemma this_const (q : Q) : (this (Q2Qc q) == q)%Q.
Proof. cbn [this Q2Qc]. apply Qred_correct. Qed.

Lemma Qc_eq_this (a b : Qc) : a = b <-> (this a == this b)%Q.
Proof. split; [intros ->; reflexivity | apply Qc_is_canon]. Qed.


(** Comparisons of the model, as propositions. *)
Ltac qc_prop :=
  repeat match goal with
  | H : (_ <? _) = true |- _ => apply ltb_lt in H
  | H : (_ <? _) = false |- _ => apply ltb_ge in H
  | H : (_ <=? _) = true |- _ => apply leb_le in H
  | H : (_ <=? _) = false |- _ => apply leb_gt in H
  | H : (_ =? _) = true |- _ => apply eqb_eq in H
  | H : (_ =? _) = false |- _ => apply eqb_neq in H
  | |- (_ <? _) = true => apply ltb_lt
  | |- (_ <? _) = false => apply ltb_ge
  | |- (_ <=? _) = true => apply leb_le
  | |- (_ <=? _) = false => apply leb_gt
  | |- (_ =? _) = true => apply eqb_eq
  | |- (_ =? _) = false => apply eqb_neq
  end.

(** Linear arithmetic on [Qc], through [Q]. *)
Ltac qc_lra :=
  qc_prop;
  repeat match goal with
  | H : @eq Qc _ _ |- _ => apply Qc_eq_this in H
  | H : ~ @eq Qc _ _ |- _ => rewrite Qc_eq_this in H
  | |- @eq Qc _ _ => apply Qc_eq_this
  | |- ~ @eq Qc _ _ => rewrite Qc_eq_this
  end;
  unfold Qclt, Qcle in *;
  repeat (rewrite ?this_plus, ?this_minus, ?this_mult, ?this_opp, ?this_div,
                  ?this_inv, ?this_const in * );
  unfold Qdiv in *;
  repeat match goal with
  | |- context [Qinv ?q] =>
      let v := eval vm_compute in (Qinv q) in change (Qinv q) with v
  | H : context [Qinv ?q] |- _ =>
      let v := eval vm_compute in (Qinv q) in change (Qinv q) with v in H
  end;
  lra.

(** Case analysis on the test of the first conditional of the goal. *)
Ltac case_if E :=
  match goal with
  | |- context [if ?c then _ else _] => destruct c eqn:E
  end.

(** ** Collision boxes *)

Lemma checkCollision_split (p : Player.t) (o : Obstacle.t) :
  Game.checkCollision p o = horizontalOverlap p o && verticalOverlap p o.
Proof.
  unfold Game.checkCollision, horizontalOverlap, verticalOverlap.
  rewrite !andb_assoc. reflexivity.
Qed.

Lemma carousel_constructorBox (x y : Qc) :
  Obstacle.type (Obstacle.new x y Obstacle.carousel) = Obstacle.carousel /\
  Obstacle.width (Obstacle.new x y Obstacle.carousel) = $1024 /\
  Obstacle.height (Obstacle.new x y Obstacle.carousel) = $300 /\
  constructorBox (Obstacle.new x y Obstacle.carousel).
Proof. repeat split. Qed.

(** C10, as stated, fails: the player of [steeredPlayer] is grounded and
    level with [midCarousel], whose box is the constructor's 1024 by 300, and
    the overlap test is false; the loop body leaves the carousel untriggered
    and the controls as they were. *)
Lemma carousel_avoided_by_steering :
  Obstacle.type midCarousel = Obstacle.carousel /\
  constructorBox midCarousel /\
  Player.isJumping steeredPlayer = false /\
  Player.x steeredPlayer = $1104 /\
  verticalOverlap steeredPlayer midCarousel = true /\
  Game.checkCollision steeredPlayer midCarousel = false /\
  ~ (forall (p : Player.t) (o : Obstacle.t),
        Obstacle.type o = Obstacle.carousel -> constructorBox o ->
        Player.isJumping p = false -> verticalOverlap p o = true ->
        Game.checkCollision p o = true).
Proof.
  assert (V : verticalOverlap steeredPlayer midCarousel = true) by (vm_compute; reflexivity).
  assert (C : Game.checkCollision steeredPlayer midCarousel = false) by (vm_compute; reflexivity).
  refine (conj eq_refl (conj (conj eq_refl eq_refl) (conj eq_refl
            (conj _ (conj V (conj C _)))))).
  - apply Qc_is_canon. vm_compute. reflexivity.
  - intros H.
    specialize (H steeredPlayer midCarousel eq_refl (conj eq_refl eq_refl) eq_refl V).
    rewrite C in H. discriminate.
Qed.

(** C10, amended: the box of a carousel is 1024 wide and 300 high, so when
    its vertical span overlaps the player's, the overlap test holds exactly
    when the player's x is less than 527 away from the obstacle's x. *)
Theorem carousel_overlap_within_527 (p : Player.t) (o : Obstacle.t) :
  Obstacle.type o = Obstacle.carousel ->
  constructorBox o ->
  verticalOverlap p o = true ->
  Obstacle.width o = $1024 /\ Obstacle.height o = $300 /\
  (Game.checkCollision p o = true <->
   Obstacle.x o - $527 < Player.x p /\ Player.x p < Obstacle.x o + $527).
Proof.
  intros T [W H] V. rewrite T in W, H. cbn in W, H.
  change CONFIG.GAME_WIDTH with $1024 in W.
  split; [exact W|]. split; [exact H|].
  rewrite checkCollision_split, V, andb_true_r.
  unfold horizontalOverlap. rewrite W. split.
  - intros C. apply andb_prop in C. destruct C as [A B]. split; qc_lra.
  - intros [A B]. apply andb_true_intro. split; qc_lra.
Qed.

Lemma carousel_overlap_within_527_witness :
  Game.checkCollision Game.createPlayer midCarousel = true.
Proof.
  apply (carousel_overlap_within_527 Game.createPlayer midCarousel);
    [reflexivity | split; reflexivity | vm_compute; reflexivity |].
  split; vm_compute; reflexivity.
Defined.

(** ** Particles *)

Lemma sweep_alive (ps : ParticleSystem.t) :
  Forall (fun p => 0 < ParticleSystem.life p) (ParticleSystem.sweep ps).
Proof.
  induction ps as [|p ps IH]; simpl; [constructor|].
  case_if E.
  - exact IH.
  - constructor; [|exact IH].
    cbn [ParticleSystem.advance ParticleSystem.life]. qc_lra.
Qed.

Lemma sweep_fading (bound : Qc) (ps : ParticleSystem.t) :
  fading bound ps -> fading (bound - $0.01) (ParticleSystem.sweep ps).
Proof.
  unfold fading. induction 1 as [|p ps [L D] _ IH]; simpl; [constructor|].
  case_if E.
  - exact IH.
  - constructor; [|exact IH]. cbn [ParticleSystem.advance ParticleSystem.life
      ParticleSystem.decay]. split; [qc_lra | exact D].
Qed.


Lemma fading_nonpositive_empty (bound : Qc) (ps : ParticleSystem.t) :
  bound <= $0.01 -> fading bound ps -> ParticleSystem.sweep ps = [].
Proof.
  intros B F. pose proof (sweep_fading _ _ F) as F'. pose proof (sweep_alive ps) as A.
  destruct (ParticleSystem.sweep ps) as [|p l]; [reflexivity|].
  inversion F' as [|? ? [L _] _]; subst. inversion A as [|? ? P _]; subst.
  exfalso. qc_lra.
Qed.




Lemma ofNat_S (n : nat) : ofNat (S n) = ofNat n + 1.
Proof.
  unfold ofNat. apply Qc_is_canon. rewrite this_plus. cbn [this Q2Qc].
  rewrite !Qred_correct, Nat2Z.inj_succ. unfold Z.succ.
  rewrite inject_Z_plus. reflexivity.
Qed.

Lemma ofNat_nonneg (n : nat) : 0 <= ofNat n.
Proof.
  induction n as [|n IH]; [apply leb_le; reflexivity|].
  rewrite ofNat_S. qc_lra.
Qed.

Lemma ofNat_le (n m : nat) : (n <= m)%nat -> ofNat n <= ofNat m.
Proof.
  induction 1 as [|m _ IH]; [apply Qcle_refl|]. rewrite ofNat_S. qc_lra.
Qed.









Section Platform.
Context {env : Platform}.

(** [Math.random()] returns a number in [0, 1). *)
Hypothesis random_range : forall n, 0 <= Math_random n /\ Math_random n < 1.




End Platform.

Lemma samplePlatform_range :
  forall n, 0 <= @Math_random samplePlatform n /\ @Math_random samplePlatform n < 1.
Proof. intros n. split; [apply Qcle_alt | apply Qclt_alt]; vm_compute; congruence. Qed.

(** On [samplePlatform] every decay is 0.015: the burst of an explosion is
    gone with the call 100 of [update()]. *)
Example burst_takes_100_calls :
  advanceUntilFalse 150
    (fst (@ParticleSystem.spawnLoop samplePlatform 60 $512 $150 "#ff3d00" 0
            ParticleSystem.new))
  = Some ([], 100%nat).
Proof. vm_compute. reflexivity. Qed.


(** ** What each part of [update] leaves alone *)

(** Case analysis on every test of the goal, innermost first. *)
Ltac break_tests :=
  repeat match goal with
  | |- context [if ?c then _ else _] =>
      lazymatch c with
      | context [if _ then _ else _] => fail
      | context [match _ with _ => _ end] => fail
      | _ => destruct c
      end
  | |- context [match ?c with _ => _ end] =>
      lazymatch c with
      | context [if _ then _ else _] => fail
      | context [match _ with _ => _ end] => fail
      | _ => destruct c
      end
  end.

Ltac frame := intros; cbv zeta; break_tests; reflexivity.

Create Rewrite HintDb frames.

Section Properties.
Context {env : Platform}.

Lemma accrue_pathModel (g : Game.t) :
  pathModel (accrue g) = pathModel g.
Proof. unfold accrue. frame. Qed.

Lemma accrue_pooperSlot (g : Game.t) :
  pooperSlot (accrue g) = pooperSlot g.
Proof. unfold accrue. frame. Qed.

Lemma accrue_state (g : Game.t) :
  state (accrue g) = state g.
Proof. unfold accrue. frame. Qed.

Lemma accrue_bystanders (g : Game.t) :
  bystanders (accrue g) = bystanders g.
Proof. unfold accrue. frame. Qed.

Lemma accrue_obstacles (g : Game.t) :
  obstacles (accrue g) = obstacles g.
Proof. unfold accrue. frame. Qed.

Lemma spawnPoopingJJ_pathModel (forced : option JJ.kind) (g : Game.t) :
  pathModel (spawnPoopingJJ forced g) = pathModel g.
Proof. unfold spawnPoopingJJ. frame. Qed.

Lemma spawnPoopingJJ_odometer (forced : option JJ.kind) (g : Game.t) :
  odometer (spawnPoopingJJ forced g) = odometer g.
Proof. unfold spawnPoopingJJ. frame. Qed.

Lemma spawnPoopingJJ_state (forced : option JJ.kind) (g : Game.t) :
  state (spawnPoopingJJ forced g) = state g.
Proof. unfold spawnPoopingJJ. frame. Qed.

Lemma spawnPoopingJJ_bystanders (forced : option JJ.kind) (g : Game.t) :
  bystanders (spawnPoopingJJ forced g) = bystanders g.
Proof. unfold spawnPoopingJJ. frame. Qed.

Lemma spawnPoopingJJ_obstacles (forced : option JJ.kind) (g : Game.t) :
  obstacles (spawnPoopingJJ forced g) = obstacles g.
Proof. unfold spawnPoopingJJ. frame. Qed.

Lemma spawnPoopingJJ_lastPoopJJSpawn (forced : option JJ.kind) (g : Game.t) :
  lastPoopJJSpawn (spawnPoopingJJ forced g) = lastPoopJJSpawn g.
Proof. unfold spawnPoopingJJ. frame. Qed.

Lemma spawnPoopingJJ_hasSpawnedFirstPooper (forced : option JJ.kind) (g : Game.t) :
  hasSpawnedFirstPooper (spawnPoopingJJ forced g) = hasSpawnedFirstPooper g.
Proof. unfold spawnPoopingJJ. frame. Qed.

Lemma pooperRule_pathModel (g : Game.t) :
  pathModel (pooperRule g) = pathModel g.
Proof. unfold pooperRule, spawnPoopingJJ. frame. Qed.

Lemma pooperRule_odometer (g : Game.t) :
  odometer (pooperRule g) = odometer g.
Proof. unfold pooperRule, spawnPoopingJJ. frame. Qed.

Lemma pooperRule_state (g : Game.t) :
  state (pooperRule g) = state g.
Proof. unfold pooperRule, spawnPoopingJJ. frame. Qed.

Lemma pooperRule_bystanders (g : Game.t) :
  bystanders (pooperRule g) = bystanders g.
Proof. unfold pooperRule, spawnPoopingJJ. frame. Qed.

Lemma pooperRule_obstacles (g : Game.t) :
  obstacles (pooperRule g) = obstacles g.
Proof. unfold pooperRule, spawnPoopingJJ. frame. Qed.

Lemma updateSleddingJJ_pathModel (jj : JJ.t) (g : Game.t) :
  pathModel (updateSleddingJJ jj g) = pathModel g.
Proof. unfold updateSleddingJJ, spawnPoop. frame. Qed.

Lemma updateSleddingJJ_odometer (jj : JJ.t) (g : Game.t) :
  odometer (updateSleddingJJ jj g) = odometer g.
Proof. unfold updateSleddingJJ, spawnPoop. frame. Qed.

Lemma updateSleddingJJ_state (jj : JJ.t) (g : Game.t) :
  state (updateSleddingJJ jj g) = state g.
Proof. unfold updateSleddingJJ, spawnPoop. frame. Qed.

Lemma updateSleddingJJ_bystanders (jj : JJ.t) (g : Game.t) :
  bystanders (updateSleddingJJ jj g) = bystanders g.
Proof. unfold updateSleddingJJ, spawnPoop. frame. Qed.

Lemma updateSleddingJJ_lastPoopJJSpawn (jj : JJ.t) (g : Game.t) :
  lastPoopJJSpawn (updateSleddingJJ jj g) = lastPoopJJSpawn g.
Proof. unfold updateSleddingJJ, spawnPoop. frame. Qed.

Lemma updateSleddingJJ_hasSpawnedFirstPooper (jj : JJ.t) (g : Game.t) :
  hasSpawnedFirstPooper (updateSleddingJJ jj g) = hasSpawnedFirstPooper g.
Proof. unfold updateSleddingJJ, spawnPoop. frame. Qed.

Lemma updateSquattingJJ_pathModel (jj : JJ.t) (g : Game.t) :
  pathModel (updateSquattingJJ jj g) = pathModel g.
Proof. unfold updateSquattingJJ, spawnPoop. frame. Qed.

Lemma updateSquattingJJ_odometer (jj : JJ.t) (g : Game.t) :
  odometer (updateSquattingJJ jj g) = odometer g.
Proof. unfold updateSquattingJJ, spawnPoop. frame. Qed.

Lemma updateSquattingJJ_state (jj : JJ.t) (g : Game.t) :
  state (updateSquattingJJ jj g) = state g.
Proof. unfold updateSquattingJJ, spawnPoop. frame. Qed.

Lemma updateSquattingJJ_bystanders (jj : JJ.t) (g : Game.t) :
  bystanders (updateSquattingJJ jj g) = bystanders g.
Proof. unfold updateSquattingJJ, spawnPoop. frame. Qed.

Lemma updateSquattingJJ_lastPoopJJSpawn (jj : JJ.t) (g : Game.t) :
  lastPoopJJSpawn (updateSquattingJJ jj g) = lastPoopJJSpawn g.
Proof. unfold updateSquattingJJ, spawnPoop. frame. Qed.

Lemma updateSquattingJJ_hasSpawnedFirstPooper (jj : JJ.t) (g : Game.t) :
  hasSpawnedFirstPooper (updateSquattingJJ jj g) = hasSpawnedFirstPooper g.
Proof. unfold updateSquattingJJ, spawnPoop. frame. Qed.

Lemma carouselRule_pathModel (g : Game.t) :
  pathModel (carouselRule g) = pathModel g.
Proof. unfold carouselRule, spawnCarousel. frame. Qed.

Lemma carouselRule_pooperSlot (g : Game.t) :
  pooperSlot (carouselRule g) = pooperSlot g.
Proof. unfold carouselRule, spawnCarousel. frame. Qed.

Lemma carouselRule_odometer (g : Game.t) :
  odometer (carouselRule g) = odometer g.
Proof. unfold carouselRule, spawnCarousel. frame. Qed.

Lemma carouselRule_state (g : Game.t) :
  state (carouselRule g) = state g.
Proof. unfold carouselRule, spawnCarousel. frame. Qed.

Lemma carouselRule_bystanders (g : Game.t) :
  bystanders (carouselRule g) = bystanders g.
Proof. unfold carouselRule, spawnCarousel. frame. Qed.

Lemma victory_pathModel (g : Game.t) :
  pathModel (victory g) = pathModel g.
Proof. unfold victory. frame. Qed.

Lemma victory_pooperSlot (g : Game.t) :
  pooperSlot (victory g) = pooperSlot g.
Proof. unfold victory. frame. Qed.

Lemma victory_odometer (g : Game.t) :
  odometer (victory g) = odometer g.
Proof. unfold victory. frame. Qed.

Lemma victory_bystanders (g : Game.t) :
  bystanders (victory g) = bystanders g.
Proof. unfold victory. frame. Qed.

Lemma victory_obstacles (g : Game.t) :
  obstacles (victory g) = obstacles g.
Proof. unfold victory. frame. Qed.

Lemma gameOver_pathModel (g : Game.t) :
  pathModel (gameOver g) = pathModel g.
Proof. unfold gameOver. frame. Qed.

Lemma gameOver_pooperSlot (g : Game.t) :
  pooperSlot (gameOver g) = pooperSlot g.
Proof. unfold gameOver. frame. Qed.

Lemma gameOver_odometer (g : Game.t) :
  odometer (gameOver g) = odometer g.
Proof. unfold gameOver. frame. Qed.

Lemma gameOver_bystanders (g : Game.t) :
  bystanders (gameOver g) = bystanders g.
Proof. unfold gameOver. frame. Qed.

Lemma gameOver_obstacles (g : Game.t) :
  obstacles (gameOver g) = obstacles g.
Proof. unfold gameOver. frame. Qed.

Lemma steer_pathModel (now : Qc) (g : Game.t) :
  pathModel (steer now g) = pathModel g.
Proof. unfold steer, updateTrails. frame. Qed.

Lemma steer_pooperSlot (now : Qc) (g : Game.t) :
  pooperSlot (steer now g) = pooperSlot g.
Proof. unfold steer, updateTrails. frame. Qed.

Lemma steer_odometer (now : Qc) (g : Game.t) :
  odometer (steer now g) = odometer g.
Proof. unfold steer, updateTrails. frame. Qed.

Lemma steer_state (now : Qc) (g : Game.t) :
  state (steer now g) = state g.
Proof. unfold steer, updateTrails. frame. Qed.

Lemma steer_obstacles (now : Qc) (g : Game.t) :
  obstacles (steer now g) = obstacles g.
Proof. unfold steer, updateTrails. frame. Qed.

Lemma spawnJJBarrier_pathModel (g : Game.t) :
  pathModel (spawnJJBarrier g) = pathModel g.
Proof. unfold spawnJJBarrier. frame. Qed.

Lemma spawnJJBarrier_pooperSlot (g : Game.t) :
  pooperSlot (spawnJJBarrier g) = pooperSlot g.
Proof. unfold spawnJJBarrier. frame. Qed.

Lemma spawnJJBarrier_odometer (g : Game.t) :
  odometer (spawnJJBarrier g) = odometer g.
Proof. unfold spawnJJBarrier. frame. Qed.

Lemma spawnJJBarrier_state (g : Game.t) :
  state (spawnJJBarrier g) = state g.
Proof. unfold spawnJJBarrier. frame. Qed.

Lemma spawnJJBarrier_player (g : Game.t) :
  player (spawnJJBarrier g) = player g.
Proof. unfold spawnJJBarrier. frame. Qed.

Lemma spawnTreeAt_pathModel (x y : Qc) (g : Game.t) :
  pathModel (spawnTreeAt x y g) = pathModel g.
Proof. unfold spawnTreeAt. frame. Qed.

Lemma spawnTreeAt_pooperSlot (x y : Qc) (g : Game.t) :
  pooperSlot (spawnTreeAt x y g) = pooperSlot g.
Proof. unfold spawnTreeAt. frame. Qed.

Lemma spawnTreeAt_odometer (x y : Qc) (g : Game.t) :
  odometer (spawnTreeAt x y g) = odometer g.
Proof. unfold spawnTreeAt. frame. Qed.

Lemma spawnTreeAt_state (x y : Qc) (g : Game.t) :
  state (spawnTreeAt x y g) = state g.
Proof. unfold spawnTreeAt. frame. Qed.

Lemma spawnTreeAt_player (x y : Qc) (g : Game.t) :
  player (spawnTreeAt x y g) = player g.
Proof. unfold spawnTreeAt. frame. Qed.

Lemma spawnInternalObstacle_pathModel (g : Game.t) :
  pathModel (spawnInternalObstacle g) = pathModel g.
Proof. unfold spawnInternalObstacle. frame. Qed.

Lemma spawnInternalObstacle_pooperSlot (g : Game.t) :
  pooperSlot (spawnInternalObstacle g) = pooperSlot g.
Proof. unfold spawnInternalObstacle. frame. Qed.

Lemma spawnInternalObstacle_odometer (g : Game.t) :
  odometer (spawnInternalObstacle g) = odometer g.
Proof. unfold spawnInternalObstacle. frame. Qed.

Lemma spawnInternalObstacle_state (g : Game.t) :
  state (spawnInternalObstacle g) = state g.
Proof. unfold spawnInternalObstacle. frame. Qed.

Lemma spawnInternalObstacle_player (g : Game.t) :
  player (spawnInternalObstacle g) = player g.
Proof. unfold spawnInternalObstacle. frame. Qed.

Lemma rerollTarget_pooperSlot (g : Game.t) :
  pooperSlot (rerollTarget g) = pooperSlot g.
Proof. unfold rerollTarget. frame. Qed.

Lemma rerollTarget_odometer (g : Game.t) :
  odometer (rerollTarget g) = odometer g.
Proof. unfold rerollTarget. frame. Qed.

Lemma rerollTarget_state (g : Game.t) :
  state (rerollTarget g) = state g.
Proof. unfold rerollTarget. frame. Qed.

Lemma rerollTarget_player (g : Game.t) :
  player (rerollTarget g) = player g.
Proof. unfold rerollTarget. frame. Qed.

Lemma rerollTarget_obstacles (g : Game.t) :
  obstacles (rerollTarget g) = obstacles g.
Proof. unfold rerollTarget. frame. Qed.

Lemma moveCenter_pooperSlot (g : Game.t) :
  pooperSlot (moveCenter g) = pooperSlot g.
Proof. unfold moveCenter. frame. Qed.

Lemma moveCenter_odometer (g : Game.t) :
  odometer (moveCenter g) = odometer g.
Proof. unfold moveCenter. frame. Qed.

Lemma moveCenter_state (g : Game.t) :
  state (moveCenter g) = state g.
Proof. unfold moveCenter. frame. Qed.

Lemma moveCenter_player (g : Game.t) :
  player (moveCenter g) = player g.
Proof. unfold moveCenter. frame. Qed.

Lemma moveCenter_obstacles (g : Game.t) :
  obstacles (moveCenter g) = obstacles g.
Proof. unfold moveCenter. frame. Qed.

Lemma adjustWidth_pooperSlot (g : Game.t) :
  pooperSlot (adjustWidth g) = pooperSlot g.
Proof. unfold adjustWidth. frame. Qed.

Lemma adjustWidth_odometer (g : Game.t) :
  odometer (adjustWidth g) = odometer g.
Proof. unfold adjustWidth. frame. Qed.

Lemma adjustWidth_state (g : Game.t) :
  state (adjustWidth g) = state g.
Proof. unfold adjustWidth. frame. Qed.

Lemma adjustWidth_player (g : Game.t) :
  player (adjustWidth g) = player g.
Proof. unfold adjustWidth. frame. Qed.

Lemma adjustWidth_obstacles (g : Game.t) :
  obstacles (adjustWidth g) = obstacles g.
Proof. unfold adjustWidth. frame. Qed.

Lemma startSplit_pooperSlot (g : Game.t) :
  pooperSlot (startSplit g) = pooperSlot g.
Proof. unfold startSplit. frame. Qed.

Lemma startSplit_odometer (g : Game.t) :
  odometer (startSplit g) = odometer g.
Proof. unfold startSplit. frame. Qed.

Lemma startSplit_state (g : Game.t) :
  state (startSplit g) = state g.
Proof. unfold startSplit. frame. Qed.

Lemma startSplit_player (g : Game.t) :
  player (startSplit g) = player g.
Proof. unfold startSplit. frame. Qed.

Lemma startSplit_obstacles (g : Game.t) :
  obstacles (startSplit g) = obstacles g.
Proof. unfold startSplit. frame. Qed.

Lemma widenForSplit_pooperSlot (g : Game.t) :
  pooperSlot (widenForSplit g) = pooperSlot g.
Proof. unfold widenForSplit. frame. Qed.

Lemma widenForSplit_odometer (g : Game.t) :
  odometer (widenForSplit g) = odometer g.
Proof. unfold widenForSplit. frame. Qed.

Lemma widenForSplit_state (g : Game.t) :
  state (widenForSplit g) = state g.
Proof. unfold widenForSplit. frame. Qed.

Lemma widenForSplit_player (g : Game.t) :
  player (widenForSplit g) = player g.
Proof. unfold widenForSplit. frame. Qed.

Lemma widenForSplit_obstacles (g : Game.t) :
  obstacles (widenForSplit g) = obstacles g.
Proof. unfold widenForSplit. frame. Qed.

Lemma separate_pooperSlot (g : Game.t) :
  pooperSlot (separate g) = pooperSlot g.
Proof. unfold separate. frame. Qed.

Lemma separate_odometer (g : Game.t) :
  odometer (separate g) = odometer g.
Proof. unfold separate. frame. Qed.

Lemma separate_state (g : Game.t) :
  state (separate g) = state g.
Proof. unfold separate. frame. Qed.

Lemma separate_player (g : Game.t) :
  player (separate g) = player g.
Proof. unfold separate. frame. Qed.

Lemma separate_obstacles (g : Game.t) :
  obstacles (separate g) = obstacles g.
Proof. unfold separate. frame. Qed.

Lemma contract_pooperSlot (g : Game.t) :
  pooperSlot (contract g) = pooperSlot g.
Proof. unfold contract. frame. Qed.

Lemma contract_odometer (g : Game.t) :
  odometer (contract g) = odometer g.
Proof. unfold contract. frame. Qed.

Lemma contract_state (g : Game.t) :
  state (contract g) = state g.
Proof. unfold contract. frame. Qed.

Lemma contract_player (g : Game.t) :
  player (contract g) = player g.
Proof. unfold contract. frame. Qed.

Lemma contract_obstacles (g : Game.t) :
  obstacles (contract g) = obstacles g.
Proof. unfold contract. frame. Qed.

Lemma triggerExplosion_pathModel (o : Obstacle.t) (g : Game.t) :
  pathModel (triggerExplosion o g) = pathModel g.
Proof. unfold triggerExplosion. frame. Qed.

Lemma triggerExplosion_pooperSlot (o : Obstacle.t) (g : Game.t) :
  pooperSlot (triggerExplosion o g) = pooperSlot g.
Proof. unfold triggerExplosion. frame. Qed.

Lemma triggerExplosion_odometer (o : Obstacle.t) (g : Game.t) :
  odometer (triggerExplosion o g) = odometer g.
Proof. unfold triggerExplosion. frame. Qed.

Lemma triggerExplosion_obstacles (o : Obstacle.t) (g : Game.t) :
  obstacles (triggerExplosion o g) = obstacles g.
Proof. unfold triggerExplosion. frame. Qed.

Lemma triggerExplosion_carouselActive (o : Obstacle.t) (g : Game.t) :
  carouselActive (triggerExplosion o g) = carouselActive g.
Proof. unfold triggerExplosion. frame. Qed.

#[local] Hint Rewrite
  accrue_pathModel accrue_pooperSlot accrue_state accrue_bystanders
  accrue_obstacles spawnPoopingJJ_pathModel spawnPoopingJJ_odometer
  spawnPoopingJJ_state spawnPoopingJJ_bystanders spawnPoopingJJ_obstacles
  spawnPoopingJJ_lastPoopJJSpawn spawnPoopingJJ_hasSpawnedFirstPooper
  pooperRule_pathModel pooperRule_odometer pooperRule_state
  pooperRule_bystanders pooperRule_obstacles updateSleddingJJ_pathModel
  updateSleddingJJ_odometer updateSleddingJJ_state
  updateSleddingJJ_bystanders updateSleddingJJ_lastPoopJJSpawn
  updateSleddingJJ_hasSpawnedFirstPooper updateSquattingJJ_pathModel
  updateSquattingJJ_odometer updateSquattingJJ_state
  updateSquattingJJ_bystanders updateSquattingJJ_lastPoopJJSpawn
  updateSquattingJJ_hasSpawnedFirstPooper carouselRule_pathModel
  carouselRule_pooperSlot carouselRule_odometer carouselRule_state
  carouselRule_bystanders victory_pathModel victory_pooperSlot
  victory_odometer victory_bystanders victory_obstacles gameOver_pathModel
  gameOver_pooperSlot gameOver_odometer gameOver_bystanders
  gameOver_obstacles steer_pathModel steer_pooperSlot steer_odometer
  steer_state steer_obstacles spawnJJBarrier_pathModel
  spawnJJBarrier_pooperSlot spawnJJBarrier_odometer spawnJJBarrier_state
  spawnJJBarrier_player spawnTreeAt_pathModel spawnTreeAt_pooperSlot
  spawnTreeAt_odometer spawnTreeAt_state spawnTreeAt_player
  spawnInternalObstacle_pathModel spawnInternalObstacle_pooperSlot
  spawnInternalObstacle_odometer spawnInternalObstacle_state
  spawnInternalObstacle_player rerollTarget_pooperSlot rerollTarget_odometer
  rerollTarget_state rerollTarget_player rerollTarget_obstacles
  moveCenter_pooperSlot moveCenter_odometer moveCenter_state
  moveCenter_player moveCenter_obstacles adjustWidth_pooperSlot
  adjustWidth_odometer adjustWidth_state adjustWidth_player
  adjustWidth_obstacles startSplit_pooperSlot startSplit_odometer
  startSplit_state startSplit_player startSplit_obstacles
  widenForSplit_pooperSlot widenForSplit_odometer widenForSplit_state
  widenForSplit_player widenForSplit_obstacles separate_pooperSlot
  separate_odometer separate_state separate_player separate_obstacles
  contract_pooperSlot contract_odometer contract_state contract_player
  contract_obstacles triggerExplosion_pathModel triggerExplosion_pooperSlot
  triggerExplosion_odometer triggerExplosion_obstacles
  triggerExplosion_carouselActive
  : frames.

Ltac skip_setter :=
  match goal with
  | |- context [?view (setter ?f ?v ?g)] =>
      let H := fresh in
      assert (H : forall x, view (setter f v x) = view x)
        by (intro; reflexivity);
      rewrite H; clear H
  end.

Ltac frames :=
  intros; cbv zeta; break_tests;
  repeat first [progress autorewrite with frames | progress skip_setter];
  reflexivity.

Lemma updatePath_pooperSlot (g : Game.t) :
  pooperSlot (updatePath g) = pooperSlot g.
Proof. unfold updatePath. frames. Qed.

Lemma updatePath_odometer (g : Game.t) :
  odometer (updatePath g) = odometer g.
Proof. unfold updatePath. frames. Qed.

Lemma updatePath_state (g : Game.t) :
  state (updatePath g) = state g.
Proof. unfold updatePath. frames. Qed.

Lemma updatePath_player (g : Game.t) :
  player (updatePath g) = player g.
Proof. unfold updatePath. frames. Qed.

Lemma updatePath_obstacles (g : Game.t) :
  obstacles (updatePath g) = obstacles g.
Proof. unfold updatePath. frames. Qed.

#[local] Hint Rewrite
  updatePath_pooperSlot updatePath_odometer updatePath_state
  updatePath_player updatePath_obstacles
  : frames.

Lemma spawnWallTrees_pathModel (g : Game.t) :
  pathModel (spawnWallTrees g) = pathModel g.
Proof. unfold spawnWallTrees. frames. Qed.

Lemma spawnWallTrees_pooperSlot (g : Game.t) :
  pooperSlot (spawnWallTrees g) = pooperSlot g.
Proof. unfold spawnWallTrees. frames. Qed.

Lemma spawnWallTrees_odometer (g : Game.t) :
  odometer (spawnWallTrees g) = odometer g.
Proof. unfold spawnWallTrees. frames. Qed.

Lemma spawnWallTrees_state (g : Game.t) :
  state (spawnWallTrees g) = state g.
Proof. unfold spawnWallTrees. frames. Qed.

Lemma spawnWallTrees_player (g : Game.t) :
  player (spawnWallTrees g) = player g.
Proof. unfold spawnWallTrees. frames. Qed.

#[local] Hint Rewrite
  spawnWallTrees_pathModel spawnWallTrees_pooperSlot spawnWallTrees_odometer
  spawnWallTrees_state spawnWallTrees_player
  : frames.

Lemma spawnObstacle_pooperSlot (g : Game.t) :
  pooperSlot (spawnObstacle g) = pooperSlot g.
Proof. unfold spawnObstacle. frames. Qed.

Lemma spawnObstacle_odometer (g : Game.t) :
  odometer (spawnObstacle g) = odometer g.
Proof. unfold spawnObstacle. frames. Qed.

Lemma spawnObstacle_state (g : Game.t) :
  state (spawnObstacle g) = state g.
Proof. unfold spawnObstacle. frames. Qed.

Lemma spawnObstacle_player (g : Game.t) :
  player (spawnObstacle g) = player g.
Proof. unfold spawnObstacle. frames. Qed.

#[local] Hint Rewrite
  spawnObstacle_pooperSlot spawnObstacle_odometer spawnObstacle_state
  spawnObstacle_player
  : frames.

Lemma updatePoopingJJ_pathModel (g : Game.t) :
  pathModel (updatePoopingJJ g) = pathModel g.
Proof. unfold updatePoopingJJ. frames. Qed.

Lemma updatePoopingJJ_odometer (g : Game.t) :
  odometer (updatePoopingJJ g) = odometer g.
Proof. unfold updatePoopingJJ. frames. Qed.

Lemma updatePoopingJJ_state (g : Game.t) :
  state (updatePoopingJJ g) = state g.
Proof. unfold updatePoopingJJ. frames. Qed.

Lemma updatePoopingJJ_bystanders (g : Game.t) :
  bystanders (updatePoopingJJ g) = bystanders g.
Proof. unfold updatePoopingJJ. frames. Qed.

Lemma updatePoopingJJ_lastPoopJJSpawn (g : Game.t) :
  lastPoopJJSpawn (updatePoopingJJ g) = lastPoopJJSpawn g.
Proof. unfold updatePoopingJJ. frames. Qed.

Lemma updatePoopingJJ_hasSpawnedFirstPooper (g : Game.t) :
  hasSpawnedFirstPooper (updatePoopingJJ g) = hasSpawnedFirstPooper g.
Proof. unfold updatePoopingJJ. frames. Qed.

#[local] Hint Rewrite
  updatePoopingJJ_pathModel updatePoopingJJ_odometer updatePoopingJJ_state
  updatePoopingJJ_bystanders updatePoopingJJ_lastPoopJJSpawn
  updatePoopingJJ_hasSpawnedFirstPooper
  : frames.

(** ** The collision loop *)

Lemma triggerExplosion_collider (o : Obstacle.t) (g : Game.t) :
  collider (triggerExplosion o g) = collider g.
Proof. reflexivity. Qed.

Lemma triggerExplosion_state (o : Obstacle.t) (g : Game.t) :
  state (triggerExplosion o g) = EXPLODING.
Proof. reflexivity. Qed.

Lemma triggerExplosion_opacity (o : Obstacle.t) (g : Game.t) :
  Player.opacity (player (triggerExplosion o g)) = 0.
Proof. reflexivity. Qed.

Lemma triggerCarouselEffect_frame (o : Obstacle.t) (g : Game.t) :
  pathModel (fst (triggerCarouselEffect o g)) = pathModel g /\
  pooperSlot (fst (triggerCarouselEffect o g)) = pooperSlot g /\
  odometer (fst (triggerCarouselEffect o g)) = odometer g /\
  state (fst (triggerCarouselEffect o g)) = state g /\
  player (fst (triggerCarouselEffect o g)) = player g /\
  collider (fst (triggerCarouselEffect o g)) = collider g /\
  particleSystem (fst (triggerCarouselEffect o g)) = particleSystem g.
Proof.
  unfold triggerCarouselEffect. cbv zeta. break_tests; repeat split; reflexivity.
Qed.

Lemma stepObstacle_frame (o : Obstacle.t) (g : Game.t) :
  pathModel (fst (stepObstacle o g)) = pathModel g /\
  pooperSlot (fst (stepObstacle o g)) = pooperSlot g /\
  odometer (fst (stepObstacle o g)) = odometer g /\
  collider (fst (stepObstacle o g)) = collider g.
Proof.
  unfold stepObstacle. cbv zeta.
  destruct (triggerCarouselEffect_frame
              (Obstacle.setY (Obstacle.y o - scrollSpeed g) o) g)
    as (A & B & C & _ & _ & D & _).
  break_tests; cbn [fst]; repeat split; assumption || reflexivity.
Qed.

Lemma obstacleLoop_frame (l : list Obstacle.t) (g : Game.t) :
  pathModel (fst (obstacleLoop l g)) = pathModel g /\
  pooperSlot (fst (obstacleLoop l g)) = pooperSlot g /\
  odometer (fst (obstacleLoop l g)) = odometer g /\
  collider (fst (obstacleLoop l g)) = collider g.
Proof.
  induction l as [|o l (A & B & C & D)]; cbn [obstacleLoop fst]; [repeat split|].
  destruct (stepObstacle_frame o (fst (obstacleLoop l g))) as (A' & B' & C' & D').
  rewrite A', B', C', D'. repeat split; assumption.
Qed.

Lemma resolveCollisions_pathModel (g : Game.t) :
  pathModel (resolveCollisions g) = pathModel g.
Proof. exact (proj1 (obstacleLoop_frame (obstacles g) g)). Qed.

Lemma resolveCollisions_pooperSlot (g : Game.t) :
  pooperSlot (resolveCollisions g) = pooperSlot g.
Proof. exact (proj1 (proj2 (obstacleLoop_frame (obstacles g) g))). Qed.

Lemma resolveCollisions_odometer (g : Game.t) :
  odometer (resolveCollisions g) = odometer g.
Proof. exact (proj1 (proj2 (proj2 (obstacleLoop_frame (obstacles g) g)))). Qed.

#[local] Hint Rewrite resolveCollisions_pathModel resolveCollisions_pooperSlot
  resolveCollisions_odometer : frames.

Lemma checkCollision_position (p p' : Player.t) (o : Obstacle.t) :
  Player.x p = Player.x p' -> Player.y p = Player.y p' ->
  checkCollision p o = checkCollision p' o.
Proof. unfold checkCollision. intros -> ->. reflexivity. Qed.

Lemma fatal_collider (g g' : Game.t) (o : Obstacle.t) :
  collider g = collider g' -> fatal g o = fatal g' o.
Proof.
  unfold collider, fatal, moved. intros E. injection E as Ex Ey _ Es.
  rewrite Es. f_equal. apply checkCollision_position; assumption.
Qed.

(** The state and the opacity of the player after one iteration. *)
Lemma stepObstacle_outcome (o : Obstacle.t) (g : Game.t) :
  let hit := negb (Player.isJumping (player g)) && fatal g o in
  state (fst (stepObstacle o g)) = (if hit then EXPLODING else state g) /\
  Player.opacity (player (fst (stepObstacle o g)))
    = (if hit then 0 else Player.opacity (player g)).
Proof.
  unfold stepObstacle, fatal, moved. cbv zeta.
  destruct (triggerCarouselEffect_frame
              (Obstacle.setY (Obstacle.y o - scrollSpeed g) o) g)
    as (_ & _ & _ & S & P & _ & _).
  destruct (Player.isJumping (player g)); cbn [negb andb fst].
  - break_tests; split; reflexivity.
  - destruct (checkCollision (player g) _); rewrite ?andb_false_r, ?andb_true_r;
      [|break_tests; split; reflexivity].
    change (Obstacle.type (Obstacle.setY (Obstacle.y o - scrollSpeed g) o))
      with (Obstacle.type o).
    destruct (Obstacle.type o); cbn [Obstacle.kind_eqb negb];
      break_tests; cbn [fst]; rewrite ?S, ?P; split; reflexivity.
Qed.

(** The state and the opacity of the player after the loop. *)
Lemma obstacleLoop_outcome (l : list Obstacle.t) (g : Game.t) :
  let hit := negb (Player.isJumping (player g)) && existsb (fatal g) l in
  state (fst (obstacleLoop l g)) = (if hit then EXPLODING else state g) /\
  Player.opacity (player (fst (obstacleLoop l g)))
    = (if hit then 0 else Player.opacity (player g)).
Proof.
  induction l as [|o l [IHs IHo]]; cbn [obstacleLoop fst existsb].
  - rewrite andb_false_r. split; reflexivity.
  - destruct (stepObstacle_outcome o (fst (obstacleLoop l g))) as [S O].
    destruct (obstacleLoop_frame l g) as (_ & _ & _ & C).
    rewrite S, O, IHs, IHo. clear S O IHs IHo.
    rewrite (fatal_collider _ _ o C).
    assert (J : Player.isJumping (player (fst (obstacleLoop l g)))
                = Player.isJumping (player g)).
    { unfold collider in C. injection C as _ _ J _. exact J. }
    rewrite J.
    destruct (Player.isJumping (player g)); cbn [negb andb]; [split; reflexivity|].
    destruct (fatal g o), (existsb (fatal g) l); split; reflexivity.
Qed.

(** ** The frame *)

Lemma update_exploding (now : Qc) (g : Game.t) :
  state g = EXPLODING ->
  update now g =
  if snd (ParticleSystem.update (particleSystem g)) then ticked g
  else gameOver (ticked g).
Proof.
  intros E. unfold update, ticked. cbv zeta.
  change (state (g <| frameCount := S (frameCount g) |>
                   <| particleSystem := _ |>)) with (state g).
  rewrite E.
  change (particleSystem (g <| frameCount := S (frameCount g) |>))
    with (particleSystem g).
  destruct (snd (ParticleSystem.update (particleSystem g))); reflexivity.
Qed.

Lemma update_not_exploding (now : Qc) (g : Game.t) :
  state g <> EXPLODING ->
  update now g =
  if distance (beforeWinCheck g) >=? CONFIG.WIN_DISTANCE
  then victory (beforeWinCheck g)
  else resolveCollisions (beforeCollisions now g).
Proof.
  intros E. unfold update, beforeCollisions, beforeWinCheck, ticked. cbv zeta.
  change (state (g <| frameCount := S (frameCount g) |>
                   <| particleSystem := _ |>)) with (state g).
  destruct (state g);
    [reflexivity | reflexivity | congruence | reflexivity | reflexivity].
Qed.

Lemma ticked_views (g : Game.t) :
  pathModel (ticked g) = pathModel g /\ pooperSlot (ticked g) = pooperSlot g /\
  odometer (ticked g) = odometer g /\ state (ticked g) = state g /\
  player (ticked g) = player g /\ obstacles (ticked g) = obstacles g /\
  trails (ticked g) = trails g /\ carouselActive (ticked g) = carouselActive g /\
  lastHundredMeters (ticked g) = lastHundredMeters g /\
  particleSystem (ticked g) = fst (ParticleSystem.update (particleSystem g)).
Proof. repeat split. Qed.

Lemma accrue_distance (g : Game.t) :
  distance (accrue g) = distance g + scrollSpeed g * CONFIG.METER_SCALE.
Proof. unfold accrue. frame. Qed.

Lemma updatePoopingJJ_appends (g : Game.t) :
  exists l, obstacles (updatePoopingJJ g) = obstacles g ++ l.
Proof.
  unfold updatePoopingJJ, updateSleddingJJ, updateSquattingJJ, spawnPoop.
  cbv zeta. break_tests;
    (exists []; symmetry; apply app_nil_r) || (eexists; reflexivity).
Qed.

Lemma carouselRule_appends (g : Game.t) :
  exists l, obstacles (carouselRule g) = obstacles g ++ l.
Proof.
  unfold carouselRule, spawnCarousel.
  cbv zeta. break_tests;
    (exists []; symmetry; apply app_nil_r) || (eexists; reflexivity).
Qed.

Lemma beforeWinCheck_distance (g : Game.t) :
  distance (beforeWinCheck g) = distance g + scrollSpeed g * CONFIG.METER_SCALE.
Proof.
  unfold beforeWinCheck.
  assert (D : forall x, distance x = fst (odometer x)) by reflexivity.
  rewrite D, carouselRule_odometer, updatePoopingJJ_odometer, pooperRule_odometer.
  rewrite <- D. rewrite accrue_distance. reflexivity.
Qed.

Lemma beforeWinCheck_views (g : Game.t) :
  pathModel (beforeWinCheck g) = pathModel g /\
  state (beforeWinCheck g) = state g /\
  bystanders (beforeWinCheck g) = bystanders (ticked g) /\
  exists spawned, obstacles (beforeWinCheck g) = obstacles g ++ spawned.
Proof.
  unfold beforeWinCheck. autorewrite with frames.
  repeat split.
  destruct (carouselRule_appends (updatePoopingJJ (pooperRule (accrue (ticked g)))))
    as [l1 E1].
  destruct (updatePoopingJJ_appends (pooperRule (accrue (ticked g)))) as [l2 E2].
  exists (l2 ++ l1). rewrite E1, E2. autorewrite with frames.
  rewrite app_assoc. reflexivity.
Qed.

(** C1: in a frame that starts in state PLAYING and brings the distance to
    the win distance, [update] ends at the call of [victory()]: the state is
    VICTORY and none of the statements after the test has run, so the player,
    the trail, the path and the reversed-controls flag are as before the
    frame, every obstacle that was there is still there unmoved, and the
    particles are those of this frame's [particleSystem.update()] alone (no
    explosion was spawned), whatever the obstacles overlap. *)
Theorem win_check_precedes_collisions (now : Qc) (g : Game.t) :
  state g = PLAYING ->
  CONFIG.WIN_DISTANCE <= distance g + scrollSpeed g * CONFIG.METER_SCALE ->
  update now g = victory (beforeWinCheck g) /\
  state (update now g) = VICTORY /\
  player (update now g) = player g /\
  trails (update now g) = trails g /\
  pathModel (update now g) = pathModel g /\
  carouselActive (update now g) = carouselActive g /\
  lastHundredMeters (update now g) = lastHundredMeters g /\
  particleSystem (update now g)
    = fst (ParticleSystem.update (particleSystem g)) /\
  exists spawned, obstacles (update now g) = obstacles g ++ spawned.
Proof.
  intros P W.
  assert (U : update now g = victory (beforeWinCheck g)).
  { rewrite update_not_exploding by (rewrite P; discriminate).
    rewrite beforeWinCheck_distance.
    apply leb_le in W. rewrite W. reflexivity. }
  rewrite U. split; [reflexivity|]. split; [reflexivity|].
  destruct (beforeWinCheck_views g) as (A & _ & B & C).
  unfold bystanders in B. injection B as B1 B2 B3 B4 B5 _.
  assert (V : forall x,
             player (victory x) = player x /\ trails (victory x) = trails x /\
             carouselActive (victory x) = carouselActive x /\
             lastHundredMeters (victory x) = lastHundredMeters x /\
             particleSystem (victory x) = particleSystem x /\
             obstacles (victory x) = obstacles x)
    by (intro; repeat split).
  destruct (V (beforeWinCheck g)) as (-> & -> & -> & -> & -> & ->).
  rewrite victory_pathModel, B1, B2, B3, B4, B5, A. repeat split. exact C.
Qed.

(** ** Explosion *)

Lemma kind_eqb_eq (a b : Obstacle.kind) :
  Obstacle.kind_eqb a b = true <-> a = b.
Proof. destruct a, b; cbn; split; congruence. Qed.

Lemma resolveCollisions_outcome (g : Game.t) :
  let hit := negb (Player.isJumping (player g))
             && existsb (fatal g) (obstacles g) in
  state (resolveCollisions g) = (if hit then EXPLODING else state g) /\
  Player.opacity (player (resolveCollisions g))
    = (if hit then 0 else Player.opacity (player g)).
Proof. exact (obstacleLoop_outcome (obstacles g) g). Qed.

Lemma dead_step (e : event) (g : Game.t) :
  state g = EXPLODING \/ state g = GAMEOVER -> quiet e ->
  (state (handle e g) = EXPLODING \/ state (handle e g) = GAMEOVER) /\
  distance (handle e g) = distance g /\ player (handle e g) = player g.
Proof.
  intros S Q. destruct e as [code now | code | now | |];
    try contradiction; cbn [handle].
  - cbv zeta. set (g0 := g <| keys := setKey code true (keys g) |>).
    assert (S0 : state g0 = state g) by reflexivity.
    assert (D0 : distance g0 = distance g) by reflexivity.
    assert (P0 : player g0 = player g) by reflexivity.
    destruct (isJumpKey code); rewrite ?S0;
      destruct S as [S | S]; rewrite ?S, ?S0, ?S; repeat split; auto.
  - repeat split; auto.
  - unfold gameLoop. destruct S as [S | S]; rewrite S; [|repeat split; auto].
    rewrite (update_exploding now g S).
    destruct (snd (ParticleSystem.update (particleSystem g)));
      repeat split; auto.
Qed.

Lemma dead_run (es : list event) (g : Game.t) :
  state g = EXPLODING \/ state g = GAMEOVER -> Forall quiet es ->
  (state (run es g) = EXPLODING \/ state (run es g) = GAMEOVER) /\
  distance (run es g) = distance g /\ player (run es g) = player g.
Proof.
  intros S Q. revert g S. induction Q as [|e es Qe _ IH]; intros g S.
  - repeat split; auto.
  - destruct (dead_step e g S Qe) as (S' & D & P).
    change (run (e :: es) g) with (run es (handle e g)).
    destruct (IH _ S') as (S'' & D' & P').
    rewrite D', P', D, P. repeat split; auto.
Qed.

(** C3: in a frame that starts in state PLAYING and does not reach the win
    distance, if an obstacle that is not a carousel overlaps the hitbox of
    the player while the player is not jumping, the frame ends in state
    EXPLODING with the player hidden (opacity 0); from then on, whatever
    frames and key events follow (no start or restart), the distance stays
    what it was, the player stays hidden and the state is EXPLODING or
    GAMEOVER.  [triggerExplosion] itself always sets the state and hides the
    player. *)
Theorem fatal_collision_explodes (now : Qc) (g : Game.t) (o : Obstacle.t)
        (es : list event) :
  state g = PLAYING ->
  distance g + scrollSpeed g * CONFIG.METER_SCALE < CONFIG.WIN_DISTANCE ->
  In o (obstacles (beforeCollisions now g)) ->
  Obstacle.type o <> Obstacle.carousel ->
  Player.isJumping (player (beforeCollisions now g)) = false ->
  checkCollision (player (beforeCollisions now g))
                 (moved (beforeCollisions now g) o) = true ->
  Forall quiet es ->
  (forall o' g', state (triggerExplosion o' g') = EXPLODING /\
                 Player.opacity (player (triggerExplosion o' g')) = 0) /\
  state (update now g) = EXPLODING /\
  Player.opacity (player (update now g)) = 0 /\
  distance (run es (update now g)) = distance (update now g) /\
  Player.opacity (player (run es (update now g))) = 0 /\
  (state (run es (update now g)) = EXPLODING \/
   state (run es (update now g)) = GAMEOVER).
Proof.
  intros P W I T J C Q.
  split; [intros; split; reflexivity|].
  assert (U : update now g = resolveCollisions (beforeCollisions now g)).
  { rewrite update_not_exploding by (rewrite P; discriminate).
    rewrite beforeWinCheck_distance.
    replace (_ >=? _) with false; [reflexivity|]. symmetry. qc_prop. exact W. }
  destruct (resolveCollisions_outcome (beforeCollisions now g)) as [S O].
  assert (H : existsb (fatal (beforeCollisions now g))
                (obstacles (beforeCollisions now g)) = true).
  { apply existsb_exists. exists o. split; [exact I|].
    unfold fatal. rewrite C, andb_true_r.
    destruct (Obstacle.kind_eqb (Obstacle.type o) Obstacle.carousel) eqn:K;
      [|reflexivity].
    apply kind_eqb_eq in K. contradiction. }
  rewrite J, H in S, O. cbn [negb andb] in S, O.
  rewrite U. split; [exact S|]. split; [exact O|].
  destruct (dead_run es _ (or_introl S) Q) as (S' & D & P').
  rewrite D, P'. split; [reflexivity|]. split; [exact O | exact S'].
Qed.

(** ** From EXPLODING to GAMEOVER *)

Lemma exploding_run (nows : list Qc) (g : Game.t) :
  state g = EXPLODING ->
  (forall k, (k < List.length nows)%nat -> report k (particleSystem g) = true) ->
  state (run (map frame nows) g) = EXPLODING /\
  distance (run (map frame nows) g) = distance g /\
  particleSystem (run (map frame nows) g)
    = Nat.iter (List.length nows) (fun q => fst (ParticleSystem.update q))
               (particleSystem g).
Proof.
  revert g. induction nows as [|now nows IH]; intros g St R.
  - repeat split; auto.
  - change (run (map frame (now :: nows)) g)
      with (run (map frame nows) (gameLoop now g)).
    assert (U : gameLoop now g = ticked g).
    { unfold gameLoop. rewrite St, (update_exploding now g St).
      pose proof (R 0%nat ltac:(cbn; lia)) as R0.
      change (snd (ParticleSystem.update (particleSystem g)) = true) in R0.
      rewrite R0. reflexivity. }
    rewrite U.
    destruct (IH (ticked g)) as (A & B & C).
    + exact St.
    + intros k Hk. specialize (R (S k) ltac:(cbn; lia)).
      unfold report in *. rewrite Nat.iter_succ_r in R. exact R.
    + rewrite A, B, C. repeat split.
      cbn [List.length]. rewrite Nat.iter_succ_r. reflexivity.
Qed.

(** C4: in state EXPLODING, [update] leaves the state EXPLODING when this
    frame's [particleSystem.update()] returns true and makes it GAMEOVER
    when it returns false, and nothing else is consulted; so, over a run of
    frames, the state is still EXPLODING after every frame whose call
    returned true and is GAMEOVER after the first frame whose call returns
    false. *)
Theorem exploding_resolves_when_particles_gone (now : Qc) (nows : list Qc)
        (g : Game.t) :
  state g = EXPLODING ->
  (state (update now g)
   = if snd (ParticleSystem.update (particleSystem g))
     then EXPLODING else GAMEOVER) /\
  particleSystem (update now g)
    = fst (ParticleSystem.update (particleSystem g)) /\
  ((forall k, (k < List.length nows)%nat ->
               report k (particleSystem g) = true) ->
   state (run (map frame nows) g) = EXPLODING /\
   (report (List.length nows) (particleSystem g) = false ->
    state (run (map frame (nows ++ [now])) g) = GAMEOVER)).
Proof.
  intros S. rewrite (update_exploding now g S).
  split; [|split].
  - destruct (snd (ParticleSystem.update (particleSystem g))); [exact S | reflexivity].
  - destruct (snd (ParticleSystem.update (particleSystem g))); reflexivity.
  - intros R. destruct (exploding_run nows g S R) as (A & _ & C).
    split; [exact A|]. intros F.
    rewrite map_app. unfold run. rewrite fold_left_app. cbn [map fold_left handle].
    fold (run (map frame nows) g).
    unfold gameLoop. rewrite A, (update_exploding now _ A), C.
    unfold report in F. rewrite F. reflexivity.
Qed.

(** ** Jumping *)

Lemma stepObstacle_jumping (o : Obstacle.t) (g : Game.t) :
  Player.isJumping (player g) = true ->
  stepObstacle o g
  = (g, if Obstacle.y (moved g o) <? $(-100) then None
        else Some (Obstacle.updateAnimation (moved g o))).
Proof.
  intros J. unfold stepObstacle, moved. cbv zeta. rewrite J. cbn [negb fst snd].
  break_tests; reflexivity.
Qed.

Lemma stepObstacle_grounded (o : Obstacle.t) (g : Game.t) :
  Player.isJumping (player g) = false ->
  fst (stepObstacle o g)
  = if checkCollision (player g) (moved g o) then
      match Obstacle.type o with
      | Obstacle.carousel => fst (triggerCarouselEffect (moved g o) g)
      | _ => triggerExplosion (moved g o) g
      end
    else g.
Proof.
  intros J. unfold stepObstacle, moved. cbv zeta. rewrite J. cbn [negb].
  change (Obstacle.type (Obstacle.setY (Obstacle.y o - scrollSpeed g) o))
    with (Obstacle.type o).
  destruct (checkCollision (player g) _); [|break_tests; reflexivity].
  destruct (Obstacle.type o); break_tests; reflexivity.
Qed.

Lemma progress_reached (now : Qc) (p : Player.t) :
  1 <= Player.progress now p <->
  CONFIG.JUMP_DURATION <= now - Player.jumpStartTime p.
Proof.
  unfold Player.progress, CONFIG.JUMP_DURATION. split; intros H; qc_lra.
Qed.

(** C5: in every iteration of the loop over the obstacles, the game is left
    as it was when the player is jumping, and the outcome is the one of the
    overlap test when the player is not; so an obstacle that is not a
    carousel and overlaps the player leaves a PLAYING game PLAYING exactly
    when [isJumping] is true, and the whole loop turns the state to
    EXPLODING exactly when some such obstacle exists and the player is not
    jumping.  [Player.update] clears [isJumping] exactly when the elapsed
    fraction of the jump is at least 1, that is when 800 ms have passed since
    the jump started, and then resets the scale to [baseScale]; it never
    sets [isJumping].  So a frame that starts in state PLAYING below the win
    distance ends in state EXPLODING exactly when, after [Player.update],
    the player is not jumping and some obstacle that is not a carousel
    overlaps the player. *)
Theorem jump_immunity (now : Qc) (g : Game.t) (o : Obstacle.t) :
  let p := player g in
  (Player.isJumping p = true -> fst (stepObstacle o g) = g) /\
  (Player.isJumping p = false ->
   fst (stepObstacle o g)
   = if checkCollision p (moved g o) then
       match Obstacle.type o with
       | Obstacle.carousel => fst (triggerCarouselEffect (moved g o) g)
       | _ => triggerExplosion (moved g o) g
       end
     else g) /\
  (state g = PLAYING -> fatal g o = true ->
   (state (fst (stepObstacle o g)) = PLAYING <-> Player.isJumping p = true)) /\
  (state g = PLAYING ->
   (state (resolveCollisions g) = EXPLODING <->
    Player.isJumping p = false /\ existsb (fatal g) (obstacles g) = true)) /\
  (Player.isJumping p = true ->
   (Player.isJumping (Player.update now p) = false <->
    1 <= Player.progress now p) /\
   (1 <= Player.progress now p <->
    CONFIG.JUMP_DURATION <= now - Player.jumpStartTime p) /\
   (1 <= Player.progress now p ->
    Player.scale (Player.update now p) = Player.baseScale p)) /\
  (Player.isJumping p = false ->
   Player.isJumping (Player.update now p) = false) /\
  (state g = PLAYING ->
   distance g + scrollSpeed g * CONFIG.METER_SCALE < CONFIG.WIN_DISTANCE ->
   (state (update now g) = EXPLODING <->
    Player.isJumping (player (beforeCollisions now g)) = false /\
    existsb (fatal (beforeCollisions now g))
            (obstacles (beforeCollisions now g)) = true)).
Proof.
  intros p. subst p.
  split; [intros J; rewrite (stepObstacle_jumping o g J); reflexivity|].
  split; [exact (stepObstacle_grounded o g)|].
  split; [|split; [|split; [|split]]].
  - intros P F. destruct (stepObstacle_outcome o g) as [S _].
    rewrite S, F, P. destruct (Player.isJumping (player g)); cbn;
      split; congruence.
  - intros P. destruct (resolveCollisions_outcome g) as [S _].
    rewrite S, P.
    destruct (Player.isJumping (player g)),
             (existsb (fatal g) (obstacles g)); cbn;
      split; try congruence; try tauto; intros [A B]; congruence.
  - intros J. split; [|split; [apply progress_reached|]].
    + unfold Player.update. cbv zeta. rewrite J.
      destruct (Player.progress now (player g) >=? 1) eqn:E;
        cbn [Player.isJumping]; qc_prop; split; intros H;
        try reflexivity; try exact E; try discriminate.
      exfalso. exact (Qclt_not_le _ _ E H).
    + intros H. unfold Player.update. cbv zeta. rewrite J.
      apply leb_le in H. rewrite H. reflexivity.
  - intros J. unfold Player.update. cbv zeta. rewrite J. reflexivity.
  - intros P W.
    assert (U : update now g = resolveCollisions (beforeCollisions now g)).
    { rewrite update_not_exploding by (rewrite P; discriminate).
      rewrite beforeWinCheck_distance.
      replace (_ >=? _) with false; [reflexivity|]. symmetry. qc_prop. exact W. }
    assert (St : state (beforeCollisions now g) = PLAYING).
    { unfold beforeCollisions. rewrite spawnObstacle_state, steer_state.
      rewrite (proj1 (proj2 (beforeWinCheck_views g))). exact P. }
    destruct (resolveCollisions_outcome (beforeCollisions now g)) as [S _].
    rewrite U, S, St.
    destruct (Player.isJumping (player (beforeCollisions now g))),
             (existsb (fatal (beforeCollisions now g))
                      (obstacles (beforeCollisions now g))); cbn;
      split; try congruence; try tauto; intros [A B]; congruence.
Qed.

(** ** The carousel *)

Lemma updateAnimation_carousel (o : Obstacle.t) :
  Obstacle.type o = Obstacle.carousel ->
  Obstacle.type (Obstacle.updateAnimation o) = Obstacle.carousel /\
  Obstacle.triggered (Obstacle.updateAnimation o) = Obstacle.triggered o /\
  Obstacle.phase (Obstacle.updateAnimation o) = Obstacle.phase o.
Proof. intros T. unfold Obstacle.updateAnimation. rewrite T. repeat split; exact T. Qed.

Lemma spiegeleiCount_snoc (g : Game.t) :
  spiegeleiCount (g <| audio := audio g ++ [playSpiegelei] |>)
  = S (spiegeleiCount g).
Proof.
  unfold spiegeleiCount. cbn [audio setter set_audio].
  rewrite filter_app, length_app. cbn. lia.
Qed.

Lemma stepObstacle_contact (o : Obstacle.t) (g : Game.t) :
  stepObstacle o g
  = (fst (contact o g),
     if Obstacle.y (snd (contact o g)) <? $(-100) then None
     else Some (Obstacle.updateAnimation (snd (contact o g)))).
Proof.
  unfold stepObstacle, contact, moved. cbv zeta.
  match goal with
  | |- (if ?c then _ else _) = _ => destruct c
  end; reflexivity.
Qed.

Lemma contact_carousel (o : Obstacle.t) (g : Game.t) :
  Obstacle.type o = Obstacle.carousel ->
  let fires := negb (Obstacle.triggered o) && overlapsGrounded g o in
  spiegeleiCount (fst (contact o g))
  = (spiegeleiCount g + if fires then 1 else 0)%nat /\
  carouselActive (fst (contact o g))
  = (if fires then (Obstacle.phase o =? 1)%nat else carouselActive g) /\
  (fires = false -> fst (contact o g) = g) /\
  Obstacle.type (snd (contact o g)) = Obstacle.carousel /\
  Obstacle.phase (snd (contact o g)) = Obstacle.phase o /\
  Obstacle.triggered (snd (contact o g))
  = Obstacle.triggered o || overlapsGrounded g o.
Proof.
  intros T. unfold overlapsGrounded, contact. cbv zeta.
  assert (Tm : Obstacle.type (moved g o) = Obstacle.carousel) by exact T.
  assert (Gm : Obstacle.triggered (moved g o) = Obstacle.triggered o) by reflexivity.
  assert (Pm : Obstacle.phase (moved g o) = Obstacle.phase o) by reflexivity.
  destruct (Player.isJumping (player g)); cbn [negb andb].
  - rewrite andb_false_r, orb_false_r. cbn [fst snd].
    repeat split; try assumption; lia.
  - destruct (checkCollision (player g) (moved g o)).
    + rewrite Tm, andb_true_r, orb_true_r. unfold triggerCarouselEffect.
      rewrite Gm. destruct (Obstacle.triggered o); cbn [negb].
      * cbn [fst snd]. repeat split; try assumption; lia.
      * cbv zeta.
        change (Obstacle.phase (Obstacle.setTriggered true (moved g o)))
          with (Obstacle.phase o).
        destruct (Obstacle.phase o =? 1)%nat; cbn [fst snd];
          (split; [|split; [reflexivity|split; [discriminate|]]]);
          try (repeat split; assumption).
        -- change (spiegeleiCount (_ <| carouselActive := true |>))
             with (spiegeleiCount (g <| audio := audio g ++ [playSpiegelei] |>)).
           rewrite spiegeleiCount_snoc. lia.
        -- change (spiegeleiCount (_ <| carouselActive := false |>))
             with (spiegeleiCount (g <| audio := audio g ++ [playSpiegelei] |>)).
           rewrite spiegeleiCount_snoc. lia.
    + rewrite andb_false_r, orb_false_r. cbn [fst snd].
      repeat split; try assumption; lia.
Qed.

(** One iteration on a carousel. *)
Lemma stepObstacle_carousel (o : Obstacle.t) (g : Game.t) :
  Obstacle.type o = Obstacle.carousel ->
  let fires := negb (Obstacle.triggered o) && overlapsGrounded g o in
  spiegeleiCount (fst (stepObstacle o g))
  = (spiegeleiCount g + if fires then 1 else 0)%nat /\
  carouselActive (fst (stepObstacle o g))
  = (if fires then (Obstacle.phase o =? 1)%nat else carouselActive g) /\
  (fires = false -> fst (stepObstacle o g) = g) /\
  forall o', snd (stepObstacle o g) = Some o' ->
    Obstacle.type o' = Obstacle.carousel /\
    Obstacle.phase o' = Obstacle.phase o /\
    Obstacle.triggered o' = Obstacle.triggered o || overlapsGrounded g o.
Proof.
  intros T. rewrite stepObstacle_contact. cbn [fst snd].
  destruct (contact_carousel o g T) as (A & B & C & D & E & F).
  split; [exact A|]. split; [exact B|]. split; [exact C|].
  intros o'. destruct (Obstacle.y (snd (contact o g)) <? $(-100)); [discriminate|].
  intros [= <-]. destruct (updateAnimation_carousel _ D) as (A' & B' & C').
  rewrite A', B', C', E, F. repeat split.
Qed.

Lemma lifetimeDispatches_spec (frames : list Game.t) (o : Obstacle.t) :
  Obstacle.type o = Obstacle.carousel ->
  lifetimeDispatches frames o
  = if negb (Obstacle.triggered o) && everOverlaps frames o then 1%nat else 0%nat.
Proof.
  revert o. induction frames as [|g frames IH]; intros o T.
  - cbn. rewrite andb_false_r. reflexivity.
  - cbn [lifetimeDispatches everOverlaps]. cbv zeta.
    destruct (stepObstacle_carousel o g T) as (C & _ & _ & N). rewrite C.
    destruct (snd (stepObstacle o g)) as [o'|].
    + destruct (N o' eq_refl) as (T' & _ & G'). rewrite (IH o' T'), G'.
      destruct (Obstacle.triggered o), (overlapsGrounded g o),
        (everOverlaps frames o'); cbn; lia.
    + destruct (Obstacle.triggered o), (overlapsGrounded g o); cbn; lia.
Qed.

(** C6: over the life of a carousel obstacle, from its creation by
    [spawnCarousel] (untriggered) through any frames with any overlaps, the
    carousel effect is dispatched once if some frame reports an overlap with
    the grounded player and never otherwise; once [triggered] is set the
    loop body leaves the game alone.  The dispatch sets the reversed-controls
    flag for phase 1 and clears it for any other phase. *)
Theorem carousel_effect_once (frames : list Game.t) (g : Game.t)
        (o : Obstacle.t) (ph : nat) :
  Obstacle.type o = Obstacle.carousel ->
  (lifetimeDispatches frames o
   = if negb (Obstacle.triggered o) && everOverlaps frames o
     then 1%nat else 0%nat) /\
  (lifetimeDispatches frames o <= 1)%nat /\
  (Obstacle.triggered o = true -> fst (stepObstacle o g) = g) /\
  (Obstacle.triggered o = false -> overlapsGrounded g o = true ->
   carouselActive (fst (stepObstacle o g)) = (Obstacle.phase o =? 1)%nat /\
   spiegeleiCount (fst (stepObstacle o g)) = S (spiegeleiCount g) /\
   forall o', snd (stepObstacle o g) = Some o' ->
              Obstacle.triggered o' = true) /\
  (exists c, obstacles (spawnCarousel ph g) = obstacles g ++ [c] /\
             Obstacle.type c = Obstacle.carousel /\
             Obstacle.phase c = ph /\
             Obstacle.triggered c = false /\
             lifetimeDispatches frames c
             = if everOverlaps frames c then 1%nat else 0%nat).
Proof.
  intros T. pose proof (lifetimeDispatches_spec frames o T) as L.
  destruct (stepObstacle_carousel o g T) as (C & A & Q & N).
  split; [exact L|]. split; [|split; [|split]].
  - rewrite L. destruct (negb _ && _); lia.
  - intros G. apply Q. rewrite G. reflexivity.
  - intros G V. rewrite G, V in *. cbn [negb andb orb] in *.
    split; [exact A|]. split; [rewrite C; lia|].
    intros o' E. exact (proj2 (proj2 (N o' E))).
  - eexists. split; [reflexivity|]. split; [reflexivity|].
    split; [reflexivity|]. split; [reflexivity|].
    rewrite lifetimeDispatches_spec by reflexivity. reflexivity.
Qed.

(** ** Reachable games *)

Lemma run_snoc (es : list event) (e : event) (g : Game.t) :
  run (es ++ [e]) g = handle e (run es g).
Proof. unfold run. rewrite fold_left_app. reflexivity. Qed.

Lemma reachable_ind (P : Game.t -> Prop) :
  P Game.new ->
  (forall e g, reachable g -> P g -> P (handle e g)) ->
  forall g, reachable g -> P g.
Proof.
  intros P0 PS g [es ->]. induction es as [|e es IH] using rev_ind.
  - exact P0.
  - rewrite run_snoc. apply PS; [exists es; reflexivity | exact IH].
Qed.

Lemma spawnObstacle_pathModel (g : Game.t) :
  pathModel (spawnObstacle g) = pathModel (updatePath g).
Proof. unfold spawnObstacle. frames. Qed.

Lemma beforeWinCheck_pooperSlot (g : Game.t) :
  pooperSlot (beforeWinCheck g)
  = pooperSlot (updatePoopingJJ (pooperRule (accrue (ticked g)))).
Proof. unfold beforeWinCheck. autorewrite with frames. reflexivity. Qed.

(** What a frame does to the path model and to the antagonist's slot. *)
Lemma update_views (now : Qc) (g : Game.t) :
  (pathModel (update now g) = pathModel g \/
   exists x, pathModel x = pathModel g /\
             pathModel (update now g) = pathModel (updatePath x)) /\
  (pooperSlot (update now g) = pooperSlot g /\ state g = EXPLODING \/
   pooperSlot (update now g)
   = pooperSlot (updatePoopingJJ (pooperRule (accrue (ticked g)))) /\
   state g <> EXPLODING).
Proof.
  destruct (state g) eqn:St;
    try (rewrite update_not_exploding by (rewrite St; discriminate);
         destruct (distance (beforeWinCheck g) >=? CONFIG.WIN_DISTANCE);
         [ split;
           [ left; rewrite victory_pathModel;
             exact (proj1 (beforeWinCheck_views g))
           | right; split; [|discriminate];
             rewrite victory_pooperSlot; apply beforeWinCheck_pooperSlot ]
         | split;
           [ right; exists (steer now (beforeWinCheck g)); split;
             [ rewrite steer_pathModel; exact (proj1 (beforeWinCheck_views g))
             | unfold beforeCollisions;
               rewrite resolveCollisions_pathModel;
               apply spawnObstacle_pathModel ]
           | right; split; [|discriminate];
             unfold beforeCollisions;
             rewrite resolveCollisions_pooperSlot, spawnObstacle_pooperSlot,
               steer_pooperSlot;
             apply beforeWinCheck_pooperSlot ] ]).
  rewrite (update_exploding now g St).
  destruct (snd (ParticleSystem.update (particleSystem g)));
    (split; [left | left; split; [|reflexivity]]); reflexivity.
Qed.

Lemma handle_pathModel (e : event) (g : Game.t) :
  pathModel (handle e g) = pathModel g \/
  (exists x, pathModel x = pathModel g /\
             pathModel (handle e g) = pathModel (updatePath x)) \/
  e = clickRestart.
Proof.
  destruct e as [code now | code | now | |]; cbn [handle].
  - left. cbv zeta. break_tests; reflexivity.
  - left. reflexivity.
  - unfold gameLoop.
    destruct (state g); try (left; reflexivity);
      destruct (update_views now g) as [[A | A] _]; auto.
  - left. reflexivity.
  - right. right. reflexivity.
Qed.

(** ** The fork *)

Lemma early_stages_fork (g : Game.t) :
  let x := adjustWidth (moveCenter (rerollTarget g)) in
  splitDistance x = splitDistance g /\ isSplitting x = isSplitting g.
Proof.
  unfold adjustWidth, moveCenter, rerollTarget. cbv zeta.
  break_tests; split; reflexivity.
Qed.

Lemma startSplit_fork (g : Game.t) :
  splitDistance (startSplit g) = splitDistance g /\
  (isSplitting (startSplit g) = isSplitting g \/
   isSplitting g = false /\ splitDistance g = 0 /\
   isSplitting (startSplit g) = true).
Proof.
  unfold startSplit. cbv zeta.
  set (g0 := g <| splitTimer := S (splitTimer g) |>).
  assert (I0 : isSplitting g0 = isSplitting g) by reflexivity.
  assert (D0 : splitDistance g0 = splitDistance g) by reflexivity.
  assert (I1 : isSplitting (drawn g0) = isSplitting g) by reflexivity.
  assert (D1 : splitDistance (drawn g0) = splitDistance g) by reflexivity.
  rewrite I0, D0.
  destruct (isSplitting g) eqn:I; cbn [negb andb];
    [rewrite D0, I0; split; [|left]; reflexivity|].
  destruct (splitDistance g =? 0) eqn:E;
    [|rewrite D0, I0; split; [|left]; reflexivity].
  apply eqb_eq in E.
  match goal with
  | |- context [if ?c then _ else _] => destruct c
  end.
  - split; [exact D1|]. right. auto.
  - split; [exact D1|]. left. exact I1.
Qed.

Lemma widenForSplit_fork (g : Game.t) :
  splitDistance (widenForSplit g) = splitDistance g /\
  isSplitting (widenForSplit g) = isSplitting g.
Proof. unfold widenForSplit. cbv zeta. break_tests; split; reflexivity. Qed.

Lemma separate_fork (g : Game.t) :
  (splitDistance (separate g) = splitDistance g \/
   splitDistance (separate g) = splitDistance g + $1.5) /\
  (isSplitting (separate g) = true -> isSplitting g = true).
Proof.
  unfold separate. cbv zeta.
  destruct (isSplitting g) eqn:I; cbn [andb];
    [|split; [left; reflexivity | rewrite I; auto]].
  split; [|reflexivity].
  break_tests; (left; reflexivity) || (right; reflexivity).
Qed.

Lemma contract_fork (g : Game.t) :
  0 <= splitDistance g ->
  0 <= splitDistance (contract g) /\
  isSplitting (contract g) = isSplitting g.
Proof.
  intros H. unfold contract. cbv zeta.
  destruct (negb (isSplitting g) && (splitDistance g >? 0)); [|split; auto].
  change (splitDistance (g <| splitDistance := splitDistance g - $1.5 |>))
    with (splitDistance g - $1.5).
  destruct (splitDistance g - $1.5 <=? 0) eqn:E.
  - split; [|reflexivity]. cbn [splitDistance setter set_targetPathWidth set_splitDistance].
    apply Qcle_refl.
  - split; [|reflexivity]. cbn [splitDistance setter set_splitDistance].
    qc_lra.
Qed.

Lemma updatePath_fork (g : Game.t) :
  0 <= splitDistance g ->
  0 <= splitDistance (updatePath g) /\
  (isSplitting g = false -> isSplitting (updatePath g) = true ->
   splitDistance g = 0).
Proof.
  intros H. unfold updatePath. cbv zeta.
  destruct (early_stages_fork g) as [D1 I1].
  set (x1 := adjustWidth (moveCenter (rerollTarget g))) in *.
  destruct (startSplit_fork x1) as [D2 I2]. set (x2 := startSplit x1) in *.
  destruct (widenForSplit_fork x2) as [D3 I3]. set (x3 := widenForSplit x2) in *.
  destruct (separate_fork x3) as [D4 I4]. set (x4 := separate x3) in *.
  assert (H4 : 0 <= splitDistance x4).
  { rewrite D3, D2, D1 in D4. destruct D4 as [-> | ->]; [exact H | qc_lra]. }
  destruct (contract_fork x4 H4) as [D5 I5].
  split; [exact D5|].
  intros F T. rewrite I5 in T. apply I4 in T. rewrite I3 in T.
  destruct I2 as [I2 | (_ & Z & _)].
  - rewrite I2, I1 in T. congruence.
  - rewrite D1 in Z. exact Z.
Qed.

Lemma pathModel_splitDistance (g g' : Game.t) :
  pathModel g = pathModel g' ->
  splitDistance g = splitDistance g' /\ isSplitting g = isSplitting g' /\
  pathTarget g = pathTarget g' /\ pathCenter g = pathCenter g'.
Proof. unfold pathModel. intros [= A B C D E F G H I]. auto. Qed.

Lemma splitDistance_nonneg (g : Game.t) : reachable g -> 0 <= splitDistance g.
Proof.
  revert g. apply reachable_ind.
  - apply Qcle_refl.
  - intros e g _ IH.
    destruct (handle_pathModel e g) as [A | [(x & A & B) | ->]].
    + apply pathModel_splitDistance in A. destruct A as (-> & _). exact IH.
    + apply pathModel_splitDistance in A, B.
      destruct A as (A & _), B as (-> & _).
      apply updatePath_fork. rewrite A. exact IH.
    + apply Qcle_refl.
Qed.

(** C7: in every reachable game the fork distance is not negative, so it
    is 0 whenever no split is under way ([isSplitting] false) and the fork
    is not closing (the test of the contraction is false); and when
    [updatePath] starts a split ([isSplitting] goes from false to true) the
    fork distance was 0: with a positive fork distance it leaves
    [isSplitting] false. *)
Theorem fork_invariant (g : Game.t) :
  reachable g ->
  0 <= splitDistance g /\
  (isSplitting g = false -> contracting g = false -> splitDistance g = 0) /\
  (isSplitting g = false -> isSplitting (updatePath g) = true ->
   splitDistance g = 0) /\
  (isSplitting g = false -> 0 < splitDistance g ->
   isSplitting (updatePath g) = false).
Proof.
  intros R. pose proof (splitDistance_nonneg g R) as N.
  destruct (updatePath_fork g N) as [_ F].
  split; [exact N|]. split; [|split; [exact F|]].
  - intros I C. unfold contracting in C. rewrite I in C. cbn [negb andb] in C.
    apply Qcle_antisym; [qc_prop; exact C | exact N].
  - intros I P. destruct (isSplitting (updatePath g)) eqn:E; [|reflexivity].
    specialize (F I eq_refl). rewrite F in P. exfalso.
    exact (Qclt_not_le _ _ P (Qcle_refl _)).
Qed.

(** ** The pooping antagonist *)

Lemma spawnPoopingJJ_occupied (forced : option JJ.kind) (g : Game.t) (jj : JJ.t) :
  poopingJJ g = Some jj -> spawnPoopingJJ forced g = g.
Proof. intros H. unfold spawnPoopingJJ. rewrite H. reflexivity. Qed.

Lemma spawnPoopingJJ_empty (forced : option JJ.kind) (g : Game.t) :
  poopingJJ g = None ->
  exists jj, poopingJJ (spawnPoopingJJ forced g) = Some jj /\
             (forall k, forced = Some k -> JJ.type jj = k) /\
             audio (spawnPoopingJJ forced g) = audio g ++ [playGagi].
Proof.
  intros H. unfold spawnPoopingJJ. rewrite H. cbv zeta.
  eexists. split; [reflexivity|]. split; [|destruct forced; reflexivity].
  intros k ->. reflexivity.
Qed.

Lemma spawnPoopingJJ_frame_all (forced : option JJ.kind) (g : Game.t) :
  odometer (spawnPoopingJJ forced g) = odometer g /\
  hasSpawnedFirstPooper (spawnPoopingJJ forced g) = hasSpawnedFirstPooper g.
Proof.
  split; [apply spawnPoopingJJ_odometer | apply spawnPoopingJJ_hasSpawnedFirstPooper].
Qed.

(** The spawn rule, case by case. *)
Lemma pooperRule_cases (g : Game.t) :
  (pooperRule g = g /\
   (poopingJJ g <> None \/
    hasSpawnedFirstPooper g = false /\ distance g <= $250 \/
    hasSpawnedFirstPooper g = true /\ distance g - lastPoopJJSpawn g <= $400)) \/
  (poopingJJ g = None /\
   exists jj, poopingJJ (pooperRule g) = Some jj /\
     lastPoopJJSpawn (pooperRule g) = distance g /\
     hasSpawnedFirstPooper (pooperRule g) = true /\
     (hasSpawnedFirstPooper g = false /\ $250 < distance g /\
      JJ.type jj = JJ.squat \/
      hasSpawnedFirstPooper g = true /\
      $400 < distance g - lastPoopJJSpawn g)).
Proof.
  unfold pooperRule. destruct (poopingJJ g) as [jj|] eqn:P.
  - left. split; [reflexivity|]. left. discriminate.
  - destruct (hasSpawnedFirstPooper g) eqn:F; cbn [negb andb].
    + destruct (distance g - lastPoopJJSpawn g >? $400) eqn:D.
      * right. split; [reflexivity|]. cbv zeta.
        destruct (spawnPoopingJJ_empty None g P) as (jj & J & _).
        destruct (spawnPoopingJJ_frame_all None g) as (O & Fl).
        exists jj. split; [exact J|]. split.
        -- cbn [lastPoopJJSpawn setter set_lastPoopJJSpawn].
           unfold odometer in O. injection O as O _. exact O.
        -- split; [cbn [hasSpawnedFirstPooper setter set_lastPoopJJSpawn];
                   rewrite Fl; exact F|].
           right. split; [reflexivity|]. qc_prop. exact D.
      * left. split; [reflexivity|]. right. right. split; [reflexivity|].
        qc_prop. exact D.
    + destruct (distance g >? $250) eqn:D.
      * right. split; [reflexivity|]. cbv zeta.
        destruct (spawnPoopingJJ_empty (Some JJ.squat) g P) as (jj & J & K & _).
        destruct (spawnPoopingJJ_frame_all (Some JJ.squat) g) as (O & Fl).
        exists jj. split; [exact J|]. split.
        -- cbn [lastPoopJJSpawn setter set_lastPoopJJSpawn
                  set_hasSpawnedFirstPooper distance].
           unfold odometer in O. injection O as O _. exact O.
        -- split; [reflexivity|].
           left. split; [reflexivity|]. split; [qc_prop; exact D|].
           apply K. reflexivity.
      * left. split; [reflexivity|]. right. left. split; [reflexivity|].
        qc_prop. exact D.
Qed.

Lemma pooperSlot_fields (g g' : Game.t) :
  pooperSlot g = pooperSlot g' ->
  poopingJJ g = poopingJJ g' /\ lastPoopJJSpawn g = lastPoopJJSpawn g' /\
  hasSpawnedFirstPooper g = hasSpawnedFirstPooper g'.
Proof. unfold pooperSlot. intros [= A B C]. auto. Qed.

Lemma logged_same_slot (g g' : Game.t) (log : list (Qc * JJ.kind)) :
  pooperSlot g' = pooperSlot g -> logged g log -> logged g' log.
Proof.
  intros E [Sp L]. apply pooperSlot_fields in E. destruct E as (A & B & C).
  split; [exact Sp|]. destruct log as [|[d k] rest]; rewrite ?A, ?B, ?C; exact L.
Qed.

Lemma updatePoopingJJ_slot (g : Game.t) :
  lastPoopJJSpawn (updatePoopingJJ g) = lastPoopJJSpawn g /\
  hasSpawnedFirstPooper (updatePoopingJJ g) = hasSpawnedFirstPooper g /\
  (poopingJJ g = None -> poopingJJ (updatePoopingJJ g) = None).
Proof.
  split; [apply updatePoopingJJ_lastPoopJJSpawn|].
  split; [apply updatePoopingJJ_hasSpawnedFirstPooper|].
  intros H. unfold updatePoopingJJ. rewrite H. exact H.
Qed.

(** A frame in state PLAYING keeps the log in step with the game. *)
Lemma logged_frame (now : Qc) (g : Game.t) (log : list (Qc * JJ.kind)) :
  state g = PLAYING -> logged g log ->
  logged (update now g)
         match spawnedBy (frame now) g with
         | Some s => s :: log
         | None => log
         end.
Proof.
  intros St [Sp L].
  destruct (update_views now g) as [_ [[_ X] | [U _]]]; [congruence|].
  set (g1 := accrue (ticked g)) in *.
  assert (E1 : pooperSlot g1 = pooperSlot g)
    by (unfold g1; rewrite accrue_pooperSlot; reflexivity).
  apply pooperSlot_fields in E1. destruct E1 as (J1 & L1 & F1).
  apply pooperSlot_fields in U. destruct U as (UJ & UL & UF).
  destruct (updatePoopingJJ_slot (pooperRule g1)) as (VL & VF & VJ).
  unfold spawnedBy. rewrite St. cbv zeta. fold g1.
  destruct (pooperRule_cases g1) as [[Id _] | (P & jj & J & La & Fi & C)].
  - rewrite Id in *.
    replace (match poopingJJ g1 with
             | Some _ => None
             | None => match poopingJJ g1 with
                       | Some jj => Some (distance g1, JJ.type jj)
                       | None => None
                       end
             end) with (@None (Qc * JJ.kind))
      by (destruct (poopingJJ g1); reflexivity).
    split; [exact Sp|].
    destruct log as [|[d k] rest]; rewrite UF, VF, F1, ?UL, ?VL, ?L1.
    + split; [exact (proj1 L)|]. rewrite UJ. apply VJ. rewrite J1. exact (proj2 L).
    + exact L.
  - rewrite P, J. unfold logged.
    rewrite UF, VF, Fi, UL, VL, La. split; [|split; reflexivity].
    destruct log as [|[d k] rest]; cbn [spaced].
    + destruct C as [(_ & D & K) | (F & _)]; [split; assumption|].
      rewrite F1 in F. destruct L as [L _]. congruence.
    + destruct L as [F L]. rewrite <- F1 in F. rewrite <- L1 in L.
      destruct C as [(F' & _) | (_ & D)]; [congruence|].
      rewrite L in D. split; [exact D | exact Sp].
Qed.

Lemma logged_step (e : event) (g : Game.t) (log : list (Qc * JJ.kind)) :
  logged g log ->
  logged (handle e g)
         match e with
         | clickRestart => []
         | _ => match spawnedBy e g with
                | Some s => s :: log
                | None => log
                end
         end.
Proof.
  intros L. destruct e as [code now | code | now | |].
  - apply (logged_same_slot g); [|exact L].
    cbn [handle]. cbv zeta. break_tests; reflexivity.
  - apply (logged_same_slot g); [|exact L]. reflexivity.
  - cbn [handle]. unfold gameLoop. destruct (state g) eqn:St;
      try (unfold spawnedBy; rewrite St; exact L).
    + apply logged_frame; assumption.
    + unfold spawnedBy. rewrite St. apply (logged_same_slot g); [|exact L].
      destruct (update_views now g) as [_ [[U _] | [_ X]]]; [exact U | congruence].
  - apply (logged_same_slot g); [|exact L]. reflexivity.
  - split; [exact I | split; reflexivity].
Qed.

Lemma logged_run (es : list event) (g : Game.t) (log : list (Qc * JJ.kind)) :
  logged g log -> logged (run es g) (spawnLog es g log).
Proof.
  revert g log. induction es as [|e es IH]; intros g log L; [exact L|].
  cbn [spawnLog]. cbv zeta.
  change (run (e :: es) g) with (run es (handle e g)).
  apply IH. apply logged_step. exact L.
Qed.

(** C9: in a session played from the constructor's game (distance 0) under
    any events, the antagonists spawned since the last restart form a log
    whose first entry is a squat spawned at a distance above 250 and whose
    later entries each come more than 400 m after the previous one; the slot
    [poopingJJ] holds at most one antagonist by its type, stays empty until
    the first spawn, and [spawnPoopingJJ] returns the game unchanged when
    the slot is occupied, as does the spawn rule of the frame. *)
Theorem pooper_spawn_rule (es : list event) (forced : option JJ.kind)
        (jj : JJ.t) :
  let g := run es Game.new in
  distance Game.new = 0 /\
  spaced (spawnLog es Game.new []) /\
  (hasSpawnedFirstPooper g = false -> poopingJJ g = None) /\
  (poopingJJ g = Some jj ->
   spawnPoopingJJ forced g = g /\ pooperRule g = g) /\
  (forall e, spawnedBy e g <> None ->
     poopingJJ g = None /\
     poopingJJ (pooperRule (accrue (ticked g))) <> None).
Proof.
  intros g.
  assert (L : logged g (spawnLog es Game.new [])).
  { apply logged_run. split; [exact I | split; reflexivity]. }
  split; [reflexivity|]. split; [exact (proj1 L)|]. split; [|split].
  - intros F. destruct L as [_ L].
    destruct (spawnLog es Game.new []) as [|[d k] rest]; [exact (proj2 L)|].
    destruct L as [L _]. congruence.
  - intros J. split; [exact (spawnPoopingJJ_occupied forced g jj J)|].
    unfold pooperRule. rewrite J. reflexivity.
  - intros e. unfold spawnedBy. destruct e; try congruence.
    destruct (state g); try congruence. cbv zeta.
    assert (E : poopingJJ (accrue (ticked g)) = poopingJJ g)
      by (pose proof (accrue_pooperSlot (ticked g)) as A;
          apply pooperSlot_fields in A; exact (proj1 A)).
    rewrite E.
    destruct (poopingJJ g); [congruence|].
    destruct (poopingJJ (pooperRule (accrue (ticked g)))); [|congruence].
    intros _. split; [reflexivity | discriminate].
Qed.

(** ** The path target *)

Lemma pathAxis_fields (g : Game.t) (c : Qc) (t : option Qc) :
  pathAxis g = (c, t) -> pathTarget g = t /\ pathCenter g = c.
Proof. unfold pathAxis. intros [= A B]. auto. Qed.

Lemma adjustWidth_pathAxis (g : Game.t) : pathAxis (adjustWidth g) = pathAxis g.
Proof. unfold adjustWidth. frame. Qed.

Lemma startSplit_pathAxis (g : Game.t) : pathAxis (startSplit g) = pathAxis g.
Proof. unfold startSplit. frame. Qed.

Lemma widenForSplit_pathAxis (g : Game.t) : pathAxis (widenForSplit g) = pathAxis g.
Proof. unfold widenForSplit. frame. Qed.

Lemma separate_pathAxis (g : Game.t) : pathAxis (separate g) = pathAxis g.
Proof. unfold separate. frame. Qed.

Lemma contract_pathAxis (g : Game.t) : pathAxis (contract g) = pathAxis g.
Proof. unfold contract. frame. Qed.

Lemma updatePath_no_target (g : Game.t) :
  pathTarget g = None ->
  pathTarget (updatePath g) = None /\
  pathCenter (updatePath g) = pathCenter g - ($0.5 + scrollSpeed g * $0.1).
Proof.
  intros H.
  assert (A : pathAxis (updatePath g)
              = (pathCenter g - ($0.5 + scrollSpeed g * $0.1), None)).
  { unfold updatePath. cbv zeta.
    rewrite contract_pathAxis, separate_pathAxis, widenForSplit_pathAxis,
      startSplit_pathAxis, adjustWidth_pathAxis.
    assert (R : rerollTarget g = g) by (unfold rerollTarget; rewrite H; reflexivity).
    rewrite R. unfold moveCenter. rewrite H. cbv zeta. unfold pathAxis.
    cbn [pathCenter pathTarget setter set_pathCenter]. rewrite H. reflexivity. }
  exact (pathAxis_fields _ _ _ A).
Qed.

(** The target of the path is never assigned: in every reachable game it is
    still undefined, and every call of [updatePath] moves the centre of the
    path to the left by [0.5 + scrollSpeed * 0.1]. *)
Lemma pathTarget_never_set (g : Game.t) :
  reachable g ->
  pathTarget g = None /\
  pathCenter (updatePath g) = pathCenter g - ($0.5 + scrollSpeed g * $0.1).
Proof.
  intros R. assert (N : pathTarget g = None).
  { revert g R. apply reachable_ind; [reflexivity|].
    intros e g _ IH.
    destruct (handle_pathModel e g) as [A | [(x & A & B) | ->]].
    - apply pathModel_splitDistance in A. destruct A as (_ & _ & -> & _). exact IH.
    - apply pathModel_splitDistance in A, B.
      destruct A as (_ & _ & A & _), B as (_ & _ & -> & _).
      apply updatePath_no_target. rewrite A. exact IH.
    - exact IH. }
  split; [exact N | exact (proj2 (updatePath_no_target g N))].
Qed.

(** * Further properties of the code *)

(** ** More of what each part of [update] leaves alone *)

Lemma accrue_marks (g : Game.t) :
  marks (accrue g) = marks g.
Proof. unfold accrue. frame. Qed.

Lemma spawnPoopingJJ_marks (forced : option JJ.kind) (g : Game.t) :
  marks (spawnPoopingJJ forced g) = marks g.
Proof. unfold spawnPoopingJJ. frame. Qed.

Lemma pooperRule_marks (g : Game.t) :
  marks (pooperRule g) = marks g.
Proof. unfold pooperRule, spawnPoopingJJ. frame. Qed.

Lemma updateSleddingJJ_marks (jj : JJ.t) (g : Game.t) :
  marks (updateSleddingJJ jj g) = marks g.
Proof. unfold updateSleddingJJ, spawnPoop. frame. Qed.

Lemma updateSquattingJJ_marks (jj : JJ.t) (g : Game.t) :
  marks (updateSquattingJJ jj g) = marks g.
Proof. unfold updateSquattingJJ, spawnPoop. frame. Qed.

Lemma carouselRule_frameCount (g : Game.t) :
  frameCount (carouselRule g) = frameCount g.
Proof. unfold carouselRule, spawnCarousel. frame. Qed.

Lemma victory_marks (g : Game.t) :
  marks (victory g) = marks g.
Proof. unfold victory. frame. Qed.

Lemma gameOver_marks (g : Game.t) :
  marks (gameOver g) = marks g.
Proof. unfold gameOver. frame. Qed.

Lemma steer_particleSystem (now : Qc) (g : Game.t) :
  particleSystem (steer now g) = particleSystem g.
Proof. unfold steer, updateTrails. frame. Qed.

Lemma steer_lastHundredMeters (now : Qc) (g : Game.t) :
  lastHundredMeters (steer now g) = lastHundredMeters g.
Proof. unfold steer, updateTrails. frame. Qed.

Lemma steer_marks (now : Qc) (g : Game.t) :
  marks (steer now g) = marks g.
Proof. unfold steer, updateTrails. frame. Qed.

Lemma spawnJJBarrier_sideFields (g : Game.t) :
  sideFields (spawnJJBarrier g) = sideFields g.
Proof. unfold spawnJJBarrier. frame. Qed.

Lemma spawnJJBarrier_lastHundredMeters (g : Game.t) :
  lastHundredMeters (spawnJJBarrier g) = lastHundredMeters g.
Proof. unfold spawnJJBarrier. frame. Qed.

Lemma spawnTreeAt_sideFields (x y : Qc) (g : Game.t) :
  sideFields (spawnTreeAt x y g) = sideFields g.
Proof. unfold spawnTreeAt. frame. Qed.

Lemma spawnTreeAt_lastHundredMeters (x y : Qc) (g : Game.t) :
  lastHundredMeters (spawnTreeAt x y g) = lastHundredMeters g.
Proof. unfold spawnTreeAt. frame. Qed.

Lemma spawnInternalObstacle_sideFields (g : Game.t) :
  sideFields (spawnInternalObstacle g) = sideFields g.
Proof. unfold spawnInternalObstacle. frame. Qed.

Lemma spawnInternalObstacle_lastHundredMeters (g : Game.t) :
  lastHundredMeters (spawnInternalObstacle g) = lastHundredMeters g.
Proof. unfold spawnInternalObstacle. frame. Qed.

Lemma rerollTarget_sideFields (g : Game.t) :
  sideFields (rerollTarget g) = sideFields g.
Proof. unfold rerollTarget. frame. Qed.

Lemma rerollTarget_lastHundredMeters (g : Game.t) :
  lastHundredMeters (rerollTarget g) = lastHundredMeters g.
Proof. unfold rerollTarget. frame. Qed.

Lemma moveCenter_sideFields (g : Game.t) :
  sideFields (moveCenter g) = sideFields g.
Proof. unfold moveCenter. frame. Qed.

Lemma moveCenter_lastHundredMeters (g : Game.t) :
  lastHundredMeters (moveCenter g) = lastHundredMeters g.
Proof. unfold moveCenter. frame. Qed.

Lemma adjustWidth_sideFields (g : Game.t) :
  sideFields (adjustWidth g) = sideFields g.
Proof. unfold adjustWidth. frame. Qed.

Lemma adjustWidth_lastHundredMeters (g : Game.t) :
  lastHundredMeters (adjustWidth g) = lastHundredMeters g.
Proof. unfold adjustWidth. frame. Qed.

Lemma startSplit_sideFields (g : Game.t) :
  sideFields (startSplit g) = sideFields g.
Proof. unfold startSplit. frame. Qed.

Lemma startSplit_lastHundredMeters (g : Game.t) :
  lastHundredMeters (startSplit g) = lastHundredMeters g.
Proof. unfold startSplit. frame. Qed.

Lemma widenForSplit_sideFields (g : Game.t) :
  sideFields (widenForSplit g) = sideFields g.
Proof. unfold widenForSplit. frame. Qed.

Lemma widenForSplit_lastHundredMeters (g : Game.t) :
  lastHundredMeters (widenForSplit g) = lastHundredMeters g.
Proof. unfold widenForSplit. frame. Qed.

Lemma separate_sideFields (g : Game.t) :
  sideFields (separate g) = sideFields g.
Proof. unfold separate. frame. Qed.

Lemma separate_lastHundredMeters (g : Game.t) :
  lastHundredMeters (separate g) = lastHundredMeters g.
Proof. unfold separate. frame. Qed.

Lemma contract_sideFields (g : Game.t) :
  sideFields (contract g) = sideFields g.
Proof. unfold contract. frame. Qed.

Lemma contract_lastHundredMeters (g : Game.t) :
  lastHundredMeters (contract g) = lastHundredMeters g.
Proof. unfold contract. frame. Qed.

Lemma triggerExplosion_passive (o : Obstacle.t) (g : Game.t) :
  passive (triggerExplosion o g) = passive g.
Proof. unfold triggerExplosion. frame. Qed.

#[local] Hint Rewrite
  accrue_marks spawnPoopingJJ_marks pooperRule_marks updateSleddingJJ_marks
  updateSquattingJJ_marks carouselRule_frameCount victory_marks
  gameOver_marks steer_particleSystem steer_lastHundredMeters steer_marks
  spawnJJBarrier_sideFields spawnJJBarrier_lastHundredMeters
  spawnTreeAt_sideFields spawnTreeAt_lastHundredMeters
  spawnInternalObstacle_sideFields spawnInternalObstacle_lastHundredMeters
  rerollTarget_sideFields rerollTarget_lastHundredMeters
  moveCenter_sideFields moveCenter_lastHundredMeters adjustWidth_sideFields
  adjustWidth_lastHundredMeters startSplit_sideFields
  startSplit_lastHundredMeters widenForSplit_sideFields
  widenForSplit_lastHundredMeters separate_sideFields
  separate_lastHundredMeters contract_sideFields contract_lastHundredMeters
  triggerExplosion_passive
  : frames.

Lemma updatePoopingJJ_marks (g : Game.t) :
  marks (updatePoopingJJ g) = marks g.
Proof. unfold updatePoopingJJ. frames. Qed.

#[local] Hint Rewrite updatePoopingJJ_marks : frames.

Lemma updatePath_sideFields (g : Game.t) :
  sideFields (updatePath g) = sideFields g.
Proof. unfold updatePath. frames. Qed.

Lemma updatePath_lastHundredMeters (g : Game.t) :
  lastHundredMeters (updatePath g) = lastHundredMeters g.
Proof. unfold updatePath. frames. Qed.

#[local] Hint Rewrite updatePath_sideFields updatePath_lastHundredMeters : frames.

Lemma spawnWallTrees_sideFields (g : Game.t) :
  sideFields (spawnWallTrees g) = sideFields g.
Proof. unfold spawnWallTrees. frames. Qed.

Lemma spawnWallTrees_lastHundredMeters (g : Game.t) :
  lastHundredMeters (spawnWallTrees g) = lastHundredMeters g.
Proof. unfold spawnWallTrees. frames. Qed.

#[local] Hint Rewrite spawnWallTrees_sideFields spawnWallTrees_lastHundredMeters : frames.

Lemma spawnObstacle_sideFields (g : Game.t) :
  sideFields (spawnObstacle g) = sideFields g.
Proof. unfold spawnObstacle. frames. Qed.

#[local] Hint Rewrite spawnObstacle_sideFields : frames.

Lemma triggerCarouselEffect_passive (o : Obstacle.t) (g : Game.t) :
  passive (fst (triggerCarouselEffect o g)) = passive g.
Proof. unfold triggerCarouselEffect. cbv zeta. break_tests; reflexivity. Qed.

Lemma stepObstacle_passive (o : Obstacle.t) (g : Game.t) :
  passive (fst (stepObstacle o g)) = passive g.
Proof.
  unfold stepObstacle. cbv zeta.
  pose proof (triggerCarouselEffect_passive
                (Obstacle.setY (Obstacle.y o - scrollSpeed g) o) g) as A.
  pose proof (triggerExplosion_passive
                (Obstacle.setY (Obstacle.y o - scrollSpeed g) o) g) as B.
  break_tests; cbn [fst]; assumption || reflexivity.
Qed.

Lemma obstacleLoop_passive (l : list Obstacle.t) (g : Game.t) :
  passive (fst (obstacleLoop l g)) = passive g.
Proof.
  induction l as [|o l IH]; cbn [obstacleLoop fst]; [reflexivity|].
  rewrite stepObstacle_passive. exact IH.
Qed.

Lemma resolveCollisions_passive (g : Game.t) :
  passive (resolveCollisions g) = passive g.
Proof. exact (obstacleLoop_passive (obstacles g) g). Qed.

#[local] Hint Rewrite resolveCollisions_passive : frames.

(** ** Invariants of the reachable games *)

Lemma status_exploding (s : status) : s = EXPLODING \/ s <> EXPLODING.
Proof. destruct s; (left; reflexivity) || (right; discriminate). Qed.

(** A property of the constructor's game that every listener and every call
    of [update] preserve holds of every reachable game. *)
Lemma reachable_invariant (I : Game.t -> Prop) :
  I Game.new ->
  (forall g, reachable g -> I g -> I (restart g)) ->
  (forall g, I g -> I (startGame g)) ->
  (forall g k, I g -> I (g <| keys := k |>)) ->
  (forall g now, I g -> I (g <| player := Player.jump now (player g) |>)) ->
  (forall g now, reachable g -> state g = PLAYING \/ state g = EXPLODING ->
                 I g -> I (update now g)) ->
  forall g, reachable g -> I g.
Proof.
  intros N R St K J U. apply reachable_ind; [exact N|].
  intros e g Rg Ig. destruct e as [code now|code|now| |]; cbn [handle].
  - cbv zeta. destruct (isJumpKey code); [|apply K; exact Ig].
    change (state (g <| keys := setKey code true (keys g) |>)) with (state g).
    destruct (state g); try (apply K; exact Ig). apply J, K, Ig.
  - apply K, Ig.
  - unfold gameLoop.
    destruct (state g) eqn:E; try exact Ig; apply U; auto.
  - apply St, Ig.
  - apply R; assumption.
Qed.

(** A property that every statement group of [update] preserves is preserved
    by [update]. *)
Lemma update_invariant (I : Game.t -> Prop) :
  (forall g, I g -> I (ticked g)) ->
  (forall g, I g -> I (gameOver g)) ->
  (forall g, I g -> I (accrue g)) ->
  (forall g, I g -> I (pooperRule g)) ->
  (forall g, I g -> I (updatePoopingJJ g)) ->
  (forall g, I g -> I (carouselRule g)) ->
  (forall g, I g -> CONFIG.WIN_DISTANCE <= distance g -> I (victory g)) ->
  (forall g now, I g -> I (steer now g)) ->
  (forall g, I g -> I (spawnObstacle g)) ->
  (forall g, I g -> I (resolveCollisions g)) ->
  forall g now, I g -> I (update now g).
Proof.
  intros T GO A P UJ C V St SO RC g now Ig.
  assert (B : I (beforeWinCheck g))
    by (unfold beforeWinCheck; apply C, UJ, P, A, T, Ig).
  assert (NE : state g <> EXPLODING ->
               I (update now g)).
  { intros E. rewrite (update_not_exploding now g E).
    case_if W.
    - apply V; [exact B | apply leb_le; exact W].
    - unfold beforeCollisions. apply RC, SO, St, B. }
  destruct (state g) eqn:E; try (apply NE; discriminate).
  rewrite (update_exploding now g E).
  destruct (snd (ParticleSystem.update (particleSystem g)));
    [apply T, Ig | apply GO, T, Ig].
Qed.

Lemma cruising_odometer (g g' : Game.t) :
  odometer g' = odometer g -> cruising g -> cruising g'.
Proof.
  unfold odometer, cruising. intros E. injection E as -> ->. exact (fun H => H).
Qed.

Lemma accrue_scrollSpeed (g : Game.t) :
  scrollSpeed (accrue g)
  = if scrollSpeed g <? (if carouselActive g then $4 else CONFIG.MAX_SPEED)
    then scrollSpeed g + $0.001
    else if scrollSpeed g >? (if carouselActive g then $4 else CONFIG.MAX_SPEED)
         then scrollSpeed g - $0.05
         else scrollSpeed g.
Proof.
  unfold accrue. cbv zeta.
  change (scrollSpeed (g <| distance := distance g
                            + scrollSpeed g * CONFIG.METER_SCALE |>))
    with (scrollSpeed g).
  change (carouselActive (g <| distance := distance g
                               + scrollSpeed g * CONFIG.METER_SCALE |>))
    with (carouselActive g).
  break_tests; reflexivity.
Qed.

Lemma accrue_cruising (g : Game.t) : cruising g -> cruising (accrue g).
Proof.
  unfold cruising. rewrite accrue_scrollSpeed, accrue_distance.
  unfold CONFIG.MAX_SPEED, CONFIG.METER_SCALE. intros (A & B & C).
  destruct (carouselActive g);
    repeat match goal with
           | |- context [if ?c then _ else _] => destruct c eqn:?
           end; repeat split; qc_lra.
Qed.

Ltac same_view L :=
  intros; match goal with H : _ |- _ => refine (L _ _ _ H) end;
  autorewrite with frames; reflexivity.

Lemma update_cruising (now : Qc) (g : Game.t) :
  cruising g -> cruising (update now g).
Proof.
  revert g now. apply update_invariant; try same_view cruising_odometer.
  exact accrue_cruising.
Qed.

Lemma reachable_cruising (g : Game.t) : reachable g -> cruising g.
Proof.
  revert g. apply reachable_invariant; try same_view cruising_odometer.
  - unfold cruising. repeat split; apply leb_le; reflexivity.
  - intros g _ _. unfold cruising. repeat split; apply leb_le; reflexivity.
  - intros g now _ _. apply update_cruising.
Qed.

(** X1: in every reachable game the scroll speed lies between the initial
    speed 3.5 and 8.001 (one acceleration step above [MAX_SPEED]) and the
    distance is not negative. *)
Theorem speed_and_distance_bounds (g : Game.t) :
  reachable g ->
  CONFIG.INITIAL_SCROLL_SPEED <= scrollSpeed g /\
  scrollSpeed g <= CONFIG.MAX_SPEED + $0.001 /\
  0 <= distance g.
Proof. intros R. exact (reachable_cruising g R). Qed.

(** ** Distance, speed and the frame counter *)

Lemma accrue_ticked_odometer (g : Game.t) :
  odometer (accrue (ticked g)) = odometer (accrue g).
Proof.
  unfold odometer.
  rewrite (accrue_distance (ticked g)), (accrue_scrollSpeed (ticked g)),
    accrue_distance, accrue_scrollSpeed.
  reflexivity.
Qed.

Lemma update_odometer (now : Qc) (g : Game.t) :
  odometer (update now g)
  = match state g with
    | EXPLODING => odometer g
    | _ => odometer (accrue g)
    end.
Proof.
  assert (NE : state g <> EXPLODING ->
               odometer (update now g) = odometer (accrue g)).
  { intros E. rewrite (update_not_exploding now g E).
    case_if W; unfold beforeCollisions, beforeWinCheck;
      autorewrite with frames; apply accrue_ticked_odometer. }
  destruct (state g) eqn:E; try (apply NE; discriminate).
  rewrite (update_exploding now g E).
  destruct (snd (ParticleSystem.update (particleSystem g))); reflexivity.
Qed.

Lemma update_frameCount (now : Qc) (g : Game.t) :
  frameCount (update now g) = S (frameCount g).
Proof.
  assert (M : forall x, frameCount x = fst (fst (marks x))) by reflexivity.
  assert (NE : state g <> EXPLODING ->
               frameCount (update now g) = S (frameCount g)).
  { intros E. rewrite (update_not_exploding now g E).
    assert (B : frameCount (beforeWinCheck g) = S (frameCount g)).
    { unfold beforeWinCheck. rewrite carouselRule_frameCount, M.
      autorewrite with frames. reflexivity. }
    case_if W.
    - rewrite M, victory_marks, <- M. exact B.
    - rewrite M.
      assert (P : forall x, marks x = snd (fst (passive x))) by reflexivity.
      rewrite P, resolveCollisions_passive, <- P.
      unfold beforeCollisions.
      assert (Sf : forall x, marks x = snd (fst (sideFields x))) by reflexivity.
      rewrite Sf, spawnObstacle_sideFields, <- Sf, steer_marks, <- M.
      exact B. }
  destruct (state g) eqn:E; try (apply NE; discriminate).
  rewrite (update_exploding now g E).
  destruct (snd (ParticleSystem.update (particleSystem g))); reflexivity.
Qed.

(** X2: a frame adds [scrollSpeed * METER_SCALE] to the distance when the
    state is PLAYING and leaves the distance alone in every other state;
    nothing else in the frame (steering, spawns, collisions, particles)
    changes it. *)
Theorem frame_advances_distance (now : Qc) (g : Game.t) :
  distance (gameLoop now g)
  = match state g with
    | PLAYING => distance g + scrollSpeed g * CONFIG.METER_SCALE
    | _ => distance g
    end.
Proof.
  assert (D : forall x, distance x = fst (odometer x)) by reflexivity.
  unfold gameLoop. destruct (state g) eqn:E; try reflexivity.
  - rewrite D, update_odometer, E, <- D. apply accrue_distance.
  - rewrite D, update_odometer, E. reflexivity.
Qed.

Lemma farthest_step (n : nat) : farthest n <= farthest (S n).
Proof.
  cbn [farthest]. pose proof (ofNat_nonneg n).
  unfold CONFIG.INITIAL_SCROLL_SPEED, CONFIG.METER_SCALE. qc_lra.
Qed.

Lemma farthest_mono (n m : nat) : (n <= m)%nat -> farthest n <= farthest m.
Proof.
  induction 1 as [|m _ IH]; [apply Qcle_refl|].
  eapply Qcle_trans; [exact IH | apply farthest_step].
Qed.

Lemma paced_fields (g g' : Game.t) :
  odometer g' = odometer g -> frameCount g' = frameCount g ->
  paced g -> paced g'.
Proof.
  unfold odometer, paced. intros E ->. injection E as -> ->. exact (fun H => H).
Qed.

Lemma update_paced (now : Qc) (g : Game.t) :
  cruising g -> paced g -> paced (update now g).
Proof.
  intros (C1 & C2 & C3) (P1 & P2). unfold paced.
  rewrite update_frameCount.
  assert (D : forall x, distance x = fst (odometer x)) by reflexivity.
  assert (Sp : forall x, scrollSpeed x = snd (odometer x)) by reflexivity.
  rewrite D, Sp, update_odometer.
  pose proof (ofNat_nonneg (frameCount g)) as N.
  pose proof (farthest_step (frameCount g)) as F.
  assert (G1 : snd (odometer g)
               <= CONFIG.INITIAL_SCROLL_SPEED
                  + ofNat (S (frameCount g)) * $0.001 /\
               fst (odometer g) <= farthest (S (frameCount g))).
  { rewrite <- D, <- Sp, ofNat_S. split; [qc_lra|].
    eapply Qcle_trans; [exact P2 | exact F]. }
  assert (G2 : snd (odometer (accrue g))
               <= CONFIG.INITIAL_SCROLL_SPEED
                  + ofNat (S (frameCount g)) * $0.001 /\
               fst (odometer (accrue g)) <= farthest (S (frameCount g))).
  { rewrite <- D, <- Sp, accrue_distance, accrue_scrollSpeed, ofNat_S.
    cbn [farthest].
    unfold CONFIG.INITIAL_SCROLL_SPEED, CONFIG.METER_SCALE, CONFIG.MAX_SPEED
      in *.
    generalize (farthest (frameCount g)), P2. intros f P2'.
    repeat match goal with
           | |- context [if ?c then _ else _] => destruct c eqn:?
           end; split; qc_lra. }
  destruct (state g); assumption.
Qed.

Lemma reachable_paced (g : Game.t) : reachable g -> paced g.
Proof.
  revert g. apply reachable_invariant;
    try (intros; match goal with H : paced _ |- _ =>
                   refine (paced_fields _ _ _ _ H); reflexivity end).
  - split; apply leb_le; reflexivity.
  - intros g _ _. split; apply leb_le; reflexivity.
  - intros g now R _. apply update_paced, reachable_cruising, R.
Qed.

Lemma update_state_victory (now : Qc) (g : Game.t) :
  state g = PLAYING \/ state g = EXPLODING ->
  state (update now g) = VICTORY ->
  CONFIG.WIN_DISTANCE <= distance (update now g).
Proof.
  intros [E|E].
  - rewrite update_not_exploding by (rewrite E; discriminate).
    case_if W.
    + intros _. assert (D : forall x, distance x = fst (odometer x))
        by reflexivity.
      rewrite D, victory_odometer, <- D. apply leb_le. exact W.
    + rewrite (proj1 (resolveCollisions_outcome _)).
      unfold beforeCollisions. rewrite spawnObstacle_state, steer_state.
      rewrite (proj1 (proj2 (beforeWinCheck_views g))), E.
      case_if H; discriminate.
  - rewrite (update_exploding now g E).
    destruct (snd (ParticleSystem.update (particleSystem g)));
      cbn; rewrite ?E; discriminate.
Qed.

Lemma reachable_victory (g : Game.t) :
  reachable g -> state g = VICTORY -> CONFIG.WIN_DISTANCE <= distance g.
Proof.
  revert g.
  apply (reachable_invariant
           (fun g => state g = VICTORY -> CONFIG.WIN_DISTANCE <= distance g)).
  - discriminate.
  - discriminate.
  - discriminate.
  - intros g k H. exact H.
  - intros g now H. exact H.
  - intros g now _ St _. apply update_state_victory, St.
Qed.

(** X3: in every reachable game the distance is at most what [frameCount]
    frames of a run without slow-down cover; so the state VICTORY, which is
    only reached with the distance at or above the win distance, is never
    reached before the frame counter has reached 3729. *)
Theorem victory_needs_3729_frames (g : Game.t) :
  reachable g ->
  distance g <= farthest (frameCount g) /\
  (state g = VICTORY ->
   CONFIG.WIN_DISTANCE <= distance g /\ (3729 <= frameCount g)%nat).
Proof.
  intros R. destruct (reachable_paced g R) as [_ P].
  split; [exact P|]. intros V.
  pose proof (reachable_victory g R V) as W. split; [exact W|].
  destruct (le_lt_dec 3729 (frameCount g)) as [L|L]; [exact L|].
  exfalso. assert (F : farthest (frameCount g) <= farthest 3728)
    by (apply farthest_mono; lia).
  assert (T : farthest 3728 < CONFIG.WIN_DISTANCE)
    by (apply ltb_lt; vm_compute; reflexivity).
  clear V R L. revert W P F T.
  generalize (farthest 3728) (farthest (frameCount g)) (distance g)
    CONFIG.WIN_DISTANCE.
  intros a b c d W P F T. qc_lra.
Qed.

(** ** The one-shot flags *)

(** The views of the game after a frame that starts outside of EXPLODING
    are those of the game at the win check; the frame counter apart, a
    frame that starts in EXPLODING keeps them. *)
Lemma update_summary (now : Qc) (g : Game.t) :
  state g <> EXPLODING ->
  marks (update now g) = marks (beforeWinCheck g) /\
  pooperSlot (update now g) = pooperSlot (beforeWinCheck g) /\
  odometer (update now g) = odometer (beforeWinCheck g).
Proof.
  intros E. rewrite (update_not_exploding now g E).
  case_if W; autorewrite with frames; [repeat split|].
  assert (P : forall x, marks x = snd (fst (passive x))) by reflexivity.
  assert (Sf : forall x, marks x = snd (fst (sideFields x))) by reflexivity.
  rewrite P, resolveCollisions_passive, <- P.
  unfold beforeCollisions.
  rewrite Sf, spawnObstacle_sideFields, <- Sf.
  autorewrite with frames. repeat split.
Qed.

Lemma update_exploding_summary (now : Qc) (g : Game.t) :
  state g = EXPLODING ->
  marks (update now g)
  = (S (frameCount g), hasSpawnedCarousel1 g, hasSpawnedCarousel2 g) /\
  pooperSlot (update now g) = pooperSlot g /\
  odometer (update now g) = odometer g.
Proof.
  intros E. rewrite (update_exploding now g E).
  destruct (snd (ParticleSystem.update (particleSystem g))); repeat split.
Qed.

Lemma carouselRule_flags (g : Game.t) :
  hasSpawnedCarousel1 (carouselRule g)
  = hasSpawnedCarousel1 g || (distance g >? $750) /\
  hasSpawnedCarousel2 (carouselRule g)
  = if negb (hasSpawnedCarousel1 g) && (distance g >? $750)
    then hasSpawnedCarousel2 g
    else hasSpawnedCarousel2 g || (distance g >? $1250).
Proof.
  unfold carouselRule, spawnCarousel. cbv zeta.
  destruct (hasSpawnedCarousel1 g) eqn:A, (hasSpawnedCarousel2 g) eqn:B,
    (distance g >? $750) eqn:C, (distance g >? $1250) eqn:D;
    cbn [negb andb orb]; cbn; rewrite ?A, ?B; split; reflexivity.
Qed.

Lemma flagged_fields (g g' : Game.t) :
  odometer g' = odometer g -> marks g' = marks g ->
  pooperSlot g' = pooperSlot g -> flagged g -> flagged g'.
Proof.
  unfold odometer, marks, pooperSlot, flagged.
  intros [= -> _] [= _ -> ->] [= -> _ ->]. exact (fun H => H).
Qed.

Lemma ltb_mono (a b c : Qc) : b <= c -> (a <? b) = true -> (a <? c) = true.
Proof. intros. qc_lra. Qed.

(** The flags and the distance at the win check. *)
Lemma beforeWinCheck_flags (g : Game.t) :
  let d' := distance g + scrollSpeed g * CONFIG.METER_SCALE in
  let p := pooperRule (accrue (ticked g)) in
  distance (beforeWinCheck g) = d' /\
  hasSpawnedCarousel1 (beforeWinCheck g)
  = hasSpawnedCarousel1 g || (d' >? $750) /\
  hasSpawnedCarousel2 (beforeWinCheck g)
  = (if negb (hasSpawnedCarousel1 g) && (d' >? $750)
     then hasSpawnedCarousel2 g
     else hasSpawnedCarousel2 g || (d' >? $1250)) /\
  hasSpawnedFirstPooper (beforeWinCheck g) = hasSpawnedFirstPooper p /\
  (poopingJJ p = None -> poopingJJ (beforeWinCheck g) = None).
Proof.
  intros d' p. unfold beforeWinCheck. fold p.
  set (u := updatePoopingJJ p).
  assert (D : forall x, distance x = fst (odometer x)) by reflexivity.
  assert (Du : distance u = d').
  { unfold u, p. rewrite D. autorewrite with frames. rewrite <- D.
    apply (accrue_distance (ticked g)). }
  assert (Mu : marks u = marks (ticked g))
    by (unfold u, p; autorewrite with frames; reflexivity).
  unfold marks in Mu. injection Mu as _ Mu1 Mu2.
  destruct (carouselRule_flags u) as (K1 & K2).
  rewrite Du, Mu1 in K1. rewrite Du, Mu1, Mu2 in K2.
  destruct (updatePoopingJJ_slot p) as (_ & U2 & U3). fold u in U2, U3.
  pose proof (carouselRule_pooperSlot u) as Pu.
  apply pooperSlot_fields in Pu. destruct Pu as (Q1 & _ & Q3).
  split; [rewrite D, carouselRule_odometer; exact Du|].
  split; [exact K1|]. split; [exact K2|].
  split; [rewrite Q3; exact U2|].
  intros N. rewrite Q1. apply U3, N.
Qed.

(** The first-spawn flag and the slot after the spawn rule of a frame. *)
Lemma pooperRule_flag (g : Game.t) :
  let d' := distance g + scrollSpeed g * CONFIG.METER_SCALE in
  let p := pooperRule (accrue (ticked g)) in
  (hasSpawnedFirstPooper g = false -> poopingJJ g = None) ->
  hasSpawnedFirstPooper p = hasSpawnedFirstPooper g || (d' >? $250) /\
  (hasSpawnedFirstPooper p = false -> poopingJJ p = None).
Proof.
  intros d' p F3. subst p.
  assert (Da : distance (accrue (ticked g)) = d')
    by apply (accrue_distance (ticked g)).
  pose proof (accrue_pooperSlot (ticked g)) as Pa.
  apply pooperSlot_fields in Pa. destruct Pa as (A1 & _ & A3).
  change (poopingJJ (ticked g)) with (poopingJJ g) in A1.
  change (hasSpawnedFirstPooper (ticked g))
    with (hasSpawnedFirstPooper g) in A3.
  destruct (pooperRule_cases (accrue (ticked g)))
    as [(Same & Why) | (_ & jj & _ & _ & Fl & Why)].
  - rewrite Same, A1, A3. rewrite Da, A1, A3 in Why. split; [|exact F3].
    destruct Why as [N | [[Fa Dl] | [Ft _]]].
    + destruct (hasSpawnedFirstPooper g) eqn:Fg; [reflexivity|].
      exfalso. apply N, F3. reflexivity.
    + rewrite Fa. cbn [orb]. symmetry. qc_lra.
    + rewrite Ft. reflexivity.
  - rewrite Fl. rewrite Da, A3 in Why. split; [|discriminate].
    destruct Why as [(Fa & Dl & _) | (Ft & _)].
    + rewrite Fa. cbn [orb]. symmetry. qc_lra.
    + rewrite Ft. reflexivity.
Qed.

Lemma flags_step (d d' : Qc) :
  d <= d' -> d' <= d + $0.8001 ->
  (d >? $250) || (d' >? $250) = (d' >? $250) /\
  (d >? $750) || (d' >? $750) = (d' >? $750) /\
  (if negb (d >? $750) && (d' >? $750) then (d >? $1250)
   else (d >? $1250) || (d' >? $1250)) = (d' >? $1250).
Proof.
  intros L H.
  destruct (d >? $250) eqn:A, (d' >? $250) eqn:A',
    (d >? $750) eqn:B, (d' >? $750) eqn:B',
    (d >? $1250) eqn:C, (d' >? $1250) eqn:C';
    cbn [negb andb orb]; repeat split; try reflexivity; exfalso; qc_lra.
Qed.

Lemma update_flagged (now : Qc) (g : Game.t) :
  cruising g -> flagged g -> flagged (update now g).
Proof.
  intros (C1 & C2 & C3) (F0 & F1 & F2 & F3).
  destruct (status_exploding (state g)) as [E|E].
  { destruct (update_exploding_summary now g E) as (M & P & O).
    unfold marks in M. apply pooperSlot_fields in P.
    destruct P as (P1 & _ & P3). unfold odometer in O.
    injection M as _ M1 M2. injection O as O _.
    unfold flagged. rewrite M1, M2, P1, P3, O. repeat split; assumption. }
  destruct (update_summary now g E) as (M & P & O).
  unfold marks in M. injection M as _ M1 M2.
  apply pooperSlot_fields in P. destruct P as (P1 & _ & P3).
  unfold odometer in O. injection O as O _.
  destruct (beforeWinCheck_flags g) as (B0 & B1 & B2 & B3 & B4).
  destruct (pooperRule_flag g F3) as (R1 & R2).
  destruct (flags_step (distance g)
              (distance g + scrollSpeed g * CONFIG.METER_SCALE))
    as (S0 & S1 & S2).
  { unfold CONFIG.METER_SCALE. qc_lra. }
  { unfold CONFIG.METER_SCALE. qc_lra. }
  unfold flagged. rewrite M1, M2, P1, P3, O, B0, B1, B2, B3, R1, F0, F1, F2.
  split; [exact S0|]. split; [exact S1|]. split; [exact S2|].
  intros Fl. apply B4, R2. rewrite R1, F0. exact Fl.
Qed.

Lemma reachable_flagged (g : Game.t) : reachable g -> flagged g.
Proof.
  revert g. apply reachable_invariant;
    try (intros; match goal with H : flagged _ |- _ =>
                   refine (flagged_fields _ _ _ _ _ H); reflexivity end).
  - repeat split.
  - intros g _ _. repeat split.
  - intros g now R _. apply update_flagged, reachable_cruising, R.
Qed.

(** X4: in every reachable game each one-shot spawn flag is set exactly
    when the distance has passed its threshold: the first antagonist at
    250 m, the first carousel at 750 m and the second at 1250 m; while the
    first-antagonist flag is clear the slot of the antagonist is empty. *)
Theorem spawn_flags_follow_distance (g : Game.t) :
  reachable g ->
  hasSpawnedFirstPooper g = (distance g >? $250) /\
  hasSpawnedCarousel1 g = (distance g >? $750) /\
  hasSpawnedCarousel2 g = (distance g >? $1250) /\
  (hasSpawnedFirstPooper g = false -> poopingJJ g = None).
Proof. intros R. exact (reachable_flagged g R). Qed.

(** ** What the spawns append *)

Lemma spawnTreeAt_appends (x y : Qc) (g : Game.t) :
  exists x', obstacles (spawnTreeAt x y g)
             = obstacles g ++ [Obstacle.new x' y Obstacle.tree].
Proof. unfold spawnTreeAt. cbv zeta. eexists. reflexivity. Qed.

Lemma Forall_snoc {A : Type} (P : A -> Prop) (l : list A) (a : A) :
  Forall P l -> P a -> Forall P (l ++ [a]).
Proof. intros L H. apply Forall_app. split; [exact L | repeat constructor; exact H]. Qed.

Section Appends.
Variable P : Obstacle.t -> Prop.

Lemma appends_nothing (f : Game.t -> Game.t) :
  (forall g, obstacles (f g) = obstacles g) -> appends P f.
Proof.
  intros H g. exists []. rewrite H, app_nil_r. split; constructor.
Qed.

Lemma appends_compose (f f' : Game.t -> Game.t) :
  appends P f -> appends P f' -> appends P (fun g => f' (f g)).
Proof.
  intros A A' g. destruct (A g) as (l & E & L).
  destruct (A' (f g)) as (l' & E' & L').
  exists (l ++ l'). rewrite E', E, app_assoc. split; [reflexivity|].
  apply Forall_app. split; assumption.
Qed.

Lemma appends_Forall (f : Game.t -> Game.t) (g : Game.t) :
  appends P f -> Forall P (obstacles g) -> Forall P (obstacles (f g)).
Proof.
  intros A L. destruct (A g) as (l & -> & L'). apply Forall_app.
  split; assumption.
Qed.

Hypothesis P_tree : forall x y, P (Obstacle.new x y Obstacle.tree).
Hypothesis P_rock : forall x y, P (Obstacle.new x y Obstacle.rock).
Hypothesis P_flag : forall x y, P (Obstacle.new x y Obstacle.flag).
Hypothesis P_ditch : forall x y, P (Obstacle.new x y Obstacle.ditch).

Lemma spawnTreeAt_spawns (x y : Qc) : appends P (spawnTreeAt x y).
Proof.
  intros g. destruct (spawnTreeAt_appends x y g) as [x' E].
  eexists. split; [exact E|]. repeat constructor. apply P_tree.
Qed.

Lemma spawnWallTrees_spawns : appends P spawnWallTrees.
Proof.
  intros g. unfold spawnWallTrees. cbv zeta.
  case_if D; [exists []; rewrite app_nil_r; split; constructor|].
  match goal with
  | |- context [spawnTreeAt ?b ?y (spawnTreeAt ?a ?y g)] =>
      set (g2 := spawnTreeAt b y (spawnTreeAt a y g));
      pose proof (appends_compose _ _ (spawnTreeAt_spawns a y)
                    (spawnTreeAt_spawns b y) g) as T2
  end.
  cbv beta in T2. fold g2 in T2.
  case_if S80; [|exact T2].
  case_if M; [|exact T2].
  match goal with
  | |- context [spawnTreeAt ?c ?y g2] =>
      destruct (spawnTreeAt_spawns c y g2) as (l3 & E3 & L3)
  end.
  destruct T2 as (l2 & E2 & L2).
  exists (l2 ++ l3). rewrite E3, E2, app_assoc. split; [reflexivity|].
  apply Forall_app. split; assumption.
Qed.

Lemma spawnInternalObstacle_spawns : appends P spawnInternalObstacle.
Proof.
  intros g. unfold spawnInternalObstacle. cbv zeta.
  break_tests; (eexists; split; [reflexivity|]); repeat constructor; auto.
Qed.

End Appends.

Lemma scenery_spawns (g : Game.t) :
  exists l, obstacles (spawnInternalObstacle g) = obstacles g ++ l
            /\ Forall scenery l.
Proof.
  apply spawnInternalObstacle_spawns; intros x y; exists x, y; auto.
Qed.

Lemma scenery_trees (g : Game.t) :
  exists l, obstacles (spawnWallTrees g) = obstacles g ++ l /\ Forall scenery l.
Proof. apply spawnWallTrees_spawns; intros x y; exists x, y; auto. Qed.

(** ** The hundred-metre marks *)

Lemma Math_floor_mono (a b : Qc) : a <= b -> (Math_floor a <= Math_floor b)%Z.
Proof. intros H. unfold Math_floor. apply Qfloor_resp_le. exact H. Qed.

Lemma Math_floor_positive (a : Qc) : (0 < Math_floor a)%Z -> 1 <= a.
Proof.
  intros H. unfold Math_floor in H.
  assert (L : (inject_Z 1 <= inject_Z (Qfloor a))%Q)
    by (rewrite <- Zle_Qle; lia).
  pose proof (Qfloor_le a) as F.
  unfold Qcle. change (this 1) with (inject_Z 1).
  eapply Qle_trans; [exact L | exact F].
Qed.

Lemma spawnObstacle_hundred (g : Game.t) :
  let cur := Math_floor (distance g / $100) in
  (lastHundredMeters g <? cur)%Z && (0 <? cur)%Z = true ->
  spawnObstacle g
  = spawnJJBarrier ((updatePath g) <| lastHundredMeters := cur |>).
Proof.
  intros cur H. unfold spawnObstacle. cbv zeta.
  assert (D : distance (updatePath g) = distance g).
  { assert (D : forall x, distance x = fst (odometer x)) by reflexivity.
    rewrite D, updatePath_odometer. reflexivity. }
  rewrite D, updatePath_lastHundredMeters. fold cur. rewrite H. reflexivity.
Qed.

Lemma spawnObstacle_no_hundred (g : Game.t) :
  let cur := Math_floor (distance g / $100) in
  (lastHundredMeters g <? cur)%Z && (0 <? cur)%Z = false ->
  lastHundredMeters (spawnObstacle g) = lastHundredMeters g /\
  exists l, obstacles (spawnObstacle g) = obstacles g ++ l /\ Forall scenery l.
Proof.
  intros cur H. unfold spawnObstacle. cbv zeta.
  assert (D : distance (updatePath g) = distance g).
  { assert (D : forall x, distance x = fst (odometer x)) by reflexivity.
    rewrite D, updatePath_odometer. reflexivity. }
  rewrite D, updatePath_lastHundredMeters. fold cur. rewrite H.
  set (u := updatePath g).
  assert (U : obstacles u = obstacles g) by apply updatePath_obstacles.
  assert (Lu : lastHundredMeters u = lastHundredMeters g)
    by apply updatePath_lastHundredMeters.
  rewrite <- U, <- Lu.
  set (w := if (frameCount u mod 10 =? 0)%nat then spawnWallTrees u else u).
  assert (W : lastHundredMeters w = lastHundredMeters u /\
              exists l, obstacles w = obstacles u ++ l /\ Forall scenery l).
  { unfold w. case_if F.
    - split; [apply spawnWallTrees_lastHundredMeters | apply scenery_trees].
    - split; [reflexivity|]. exists []. rewrite app_nil_r.
      split; constructor. }
  destruct W as (W1 & l1 & W2 & W3).
  case_if R.
  - rewrite spawnInternalObstacle_lastHundredMeters. split; [exact W1|].
    destruct (scenery_spawns w) as (l2 & E2 & L2).
    exists (l1 ++ l2). rewrite E2, W2, app_assoc. split; [reflexivity|].
    apply Forall_app. split; assumption.
  - split; [exact W1|]. exists l1. split; assumption.
Qed.

Lemma spawnJJBarrier_spawns (g : Game.t) :
  $100 <= distance g ->
  exists k,
    obstacles (spawnJJBarrier g)
    = obstacles g ++ [Obstacle.setKidOffsetX k
                        (Obstacle.new (pathCenter g) (CONFIG.GAME_HEIGHT + $150)
                           Obstacle.jj_barrier)] /\
    $100 <= pathCenter g + k /\ pathCenter g + k <= CONFIG.GAME_WIDTH - $100.
Proof.
  intros D. unfold spawnJJBarrier.
  assert (T : (distance g <? $100) = false) by qc_lra.
  rewrite T. cbv zeta. eexists. split; [reflexivity|].
  change (pathCenter (drawn g)) with (pathCenter g).
  change (pathWidth (drawn g)) with (pathWidth g).
  generalize (if random g >? $0.5
              then pathCenter g - (pathWidth g / $2 - $30)
              else pathCenter g + (pathWidth g / $2 - $30)).
  intros x. unfold Math_max, Math_min, CONFIG.GAME_WIDTH.
  generalize (pathCenter g). intros c.
  repeat match goal with
         | |- context [if ?c then _ else _] => destruct c eqn:?
         end; split; qc_lra.
Qed.

Lemma hundreds_fields (g g' : Game.t) :
  odometer g' = odometer g -> lastHundredMeters g' = lastHundredMeters g ->
  hundreds g -> hundreds g'.
Proof.
  unfold odometer, hundreds. intros [= -> _] ->. exact (fun H => H).
Qed.

Lemma Math_floor_below (a : Qc) (n : Z) :
  a < Q2Qc (inject_Z n) -> (Math_floor a < n)%Z.
Proof.
  intros H. unfold Math_floor. unfold Qclt in H. cbn [this Q2Qc] in H.
  rewrite Qred_correct in H. pose proof (Qfloor_le a) as F.
  rewrite Zlt_Qlt. eapply Qle_lt_trans; [exact F | exact H].
Qed.

(** The game at the call of [spawnObstacle]. *)
Lemma steer_beforeWinCheck (now : Qc) (g : Game.t) :
  let s := steer now (beforeWinCheck g) in
  distance s = distance g + scrollSpeed g * CONFIG.METER_SCALE /\
  lastHundredMeters s = lastHundredMeters g /\
  obstacles s = obstacles (beforeWinCheck g).
Proof.
  intros s. unfold s.
  assert (D : forall x, distance x = fst (odometer x)) by reflexivity.
  rewrite D, steer_odometer, <- D, beforeWinCheck_distance.
  rewrite steer_lastHundredMeters, steer_obstacles.
  destruct (beforeWinCheck_views g) as (_ & _ & B & _).
  unfold bystanders in B. injection B as _ _ _ _ B _.
  rewrite B. repeat split.
Qed.

Lemma update_hundreds (now : Qc) (g : Game.t) :
  cruising g -> hundreds g -> hundreds (update now g).
Proof.
  intros (C1 & C2 & C3) (H1 & H2 & H3).
  assert (D : forall x, distance x = fst (odometer x)) by reflexivity.
  destruct (status_exploding (state g)) as [E|E].
  { refine (hundreds_fields g _ _ _ (conj H1 (conj H2 H3))).
    - apply update_exploding_summary, E.
    - rewrite (update_exploding now g E).
      destruct (snd (ParticleSystem.update (particleSystem g))); reflexivity. }
  destruct (steer_beforeWinCheck now g) as (S1 & S2 & _).
  set (d' := distance g + scrollSpeed g * CONFIG.METER_SCALE) in *.
  assert (L : distance g / $100 <= d' / $100)
    by (unfold d', CONFIG.METER_SCALE; qc_lra).
  apply Math_floor_mono in L.
  assert (Du : distance (update now g) = d').
  { rewrite D, (proj2 (proj2 (update_summary now g E))), <- D.
    apply beforeWinCheck_distance. }
  unfold hundreds. rewrite Du.
  rewrite (update_not_exploding now g E), beforeWinCheck_distance.
  fold d'. case_if W.
  - assert (Lv : lastHundredMeters (victory (beforeWinCheck g))
                 = lastHundredMeters g).
    { destruct (beforeWinCheck_views g) as (_ & _ & B & _).
      unfold bystanders in B. injection B as _ _ _ _ B _.
      assert (V : forall x, lastHundredMeters (victory x)
                            = lastHundredMeters x) by reflexivity.
      rewrite V, B. reflexivity. }
    rewrite Lv. split; [exact H1|]. split; [lia|].
    intros Lt. exfalso. qc_lra.
  - assert (P : forall x, lastHundredMeters x = snd (fst (fst (passive x))))
      by reflexivity.
    rewrite P, resolveCollisions_passive, <- P. unfold beforeCollisions.
    set (s := steer now (beforeWinCheck g)) in *.
    destruct ((lastHundredMeters s <? Math_floor (distance s / $100))%Z
              && (0 <? Math_floor (distance s / $100))%Z) eqn:T.
    + rewrite (spawnObstacle_hundred s T), spawnJJBarrier_lastHundredMeters.
      cbn [lastHundredMeters setter set_lastHundredMeters].
      rewrite S1. apply andb_prop in T. destruct T as [_ T].
      rewrite S1 in T. apply Z.ltb_lt in T.
      assert (B : (Math_floor (d' / $100) < 20)%Z).
      { apply (Math_floor_below _ 20).
        change (Q2Qc (inject_Z 20)) with $20.
        unfold CONFIG.WIN_DISTANCE in W. clearbody d'. qc_lra. }
      split; [lia|]. split; [lia|]. reflexivity.
    + rewrite (proj1 (spawnObstacle_no_hundred s T)), S2.
      rewrite S1, S2 in T. apply andb_false_iff in T.
      rewrite Z.ltb_ge, Z.ltb_ge in T.
      split; [exact H1|]. split; [lia|]. intros _. lia.
Qed.

Lemma reachable_hundreds (g : Game.t) : reachable g -> hundreds g.
Proof.
  revert g. apply reachable_invariant;
    try (intros; match goal with H : hundreds _ |- _ =>
                   refine (hundreds_fields _ _ _ _ H); reflexivity end).
  - split; [split; discriminate|]. split; [discriminate | reflexivity].
  - intros g _ _. split; [split; discriminate|].
    split; [discriminate | reflexivity].
  - intros g now R _. apply update_hundreds, reachable_cruising, R.
Qed.

(** X5: in every reachable game [lastHundredMeters] lies between 0 and 19
    and never exceeds the number of whole hundreds of metres travelled;
    below the win distance it is exactly that number. *)
Theorem hundred_marks (g : Game.t) :
  reachable g ->
  (0 <= lastHundredMeters g <= 19)%Z /\
  (lastHundredMeters g <= Math_floor (distance g / $100))%Z /\
  (distance g < CONFIG.WIN_DISTANCE ->
   lastHundredMeters g = Math_floor (distance g / $100)).
Proof. intros R. exact (reachable_hundreds g R). Qed.

Lemma pathModel_pathCenter (g g' : Game.t) :
  pathModel g = pathModel g' -> pathCenter g = pathCenter g'.
Proof. unfold pathModel. intros [= A _]. exact A. Qed.

(** X6: in a frame of a reachable game that starts in PLAYING and stays
    short of the win distance, [spawnObstacle] adds a JJ barrier exactly
    when the distance enters a new hundred of metres: then the barrier is
    the only obstacle it adds, it lies on the centre of the path 150 below
    the playfield, and the kid on it stands between x = 100 and
    x = GAME_WIDTH - 100; in every other frame [spawnObstacle] only adds
    trees, rocks, flags and ditches. *)
Theorem hundred_metre_barrier (now : Qc) (g : Game.t) :
  reachable g -> state g = PLAYING ->
  distance g + scrollSpeed g * CONFIG.METER_SCALE < CONFIG.WIN_DISTANCE ->
  let d' := distance g + scrollSpeed g * CONFIG.METER_SCALE in
  ((Math_floor (distance g / $100) < Math_floor (d' / $100))%Z ->
   exists b,
     obstacles (beforeCollisions now g) = obstacles (beforeWinCheck g) ++ [b] /\
     Obstacle.type b = Obstacle.jj_barrier /\
     Obstacle.x b = pathCenter (beforeCollisions now g) /\
     Obstacle.y b = CONFIG.GAME_HEIGHT + $150 /\
     constructorBox b /\
     $100 <= Obstacle.x b + Obstacle.kidOffsetX b /\
     Obstacle.x b + Obstacle.kidOffsetX b <= CONFIG.GAME_WIDTH - $100) /\
  ((Math_floor (d' / $100) <= Math_floor (distance g / $100))%Z ->
   exists l,
     obstacles (beforeCollisions now g) = obstacles (beforeWinCheck g) ++ l /\
     Forall scenery l).
Proof.
  intros R P W d'.
  destruct (reachable_cruising g R) as (C1 & C2 & C3).
  destruct (reachable_hundreds g R) as (H1 & _ & H3).
  assert (Lt : distance g < CONFIG.WIN_DISTANCE).
  { clear H3. unfold CONFIG.METER_SCALE, CONFIG.WIN_DISTANCE in *. qc_lra. }
  specialize (H3 Lt).
  destruct (steer_beforeWinCheck now g) as (S1 & S2 & S3).
  unfold beforeCollisions. fold d' in S1.
  set (s := steer now (beforeWinCheck g)) in *.
  rewrite <- S3. split.
  - intros F.
    assert (T : (lastHundredMeters s <? Math_floor (distance s / $100))%Z
                && (0 <? Math_floor (distance s / $100))%Z = true).
    { rewrite S1, S2, H3. apply andb_true_intro. split; apply Z.ltb_lt; lia. }
    rewrite (spawnObstacle_hundred s T).
    set (u := (updatePath s) <| lastHundredMeters
                                := Math_floor (distance s / $100) |>).
    assert (Du : distance u = d').
    { assert (D : forall x, distance x = fst (odometer x)) by reflexivity.
      assert (E : forall x v, distance (x <| lastHundredMeters := v |>)
                              = distance x) by reflexivity.
      unfold u. rewrite E, D, updatePath_odometer, <- D. exact S1. }
    assert (Ou : obstacles u = obstacles s).
    { assert (E : forall x v, obstacles (x <| lastHundredMeters := v |>)
                              = obstacles x) by reflexivity.
      unfold u. rewrite E. apply updatePath_obstacles. }
    destruct (spawnJJBarrier_spawns u) as (k & B1 & B2 & B3).
    { rewrite Du. assert (1 <= d' / $100)
        by (apply Math_floor_positive; lia).
      clearbody d'. qc_lra. }
    eexists. rewrite <- Ou. split; [exact B1|].
    cbn [Obstacle.type Obstacle.x Obstacle.y Obstacle.kidOffsetX
         Obstacle.setKidOffsetX Obstacle.new].
    split; [reflexivity|].
    split; [|split; [reflexivity | split; [split; reflexivity|]]].
    + symmetry. apply pathModel_pathCenter, spawnJJBarrier_pathModel.
    + split; [exact B2 | exact B3].
  - intros F.
    assert (T : (lastHundredMeters s <? Math_floor (distance s / $100))%Z
                && (0 <? Math_floor (distance s / $100))%Z = false).
    { rewrite S1, S2, H3. apply andb_false_iff. left. apply Z.ltb_ge. exact F. }
    exact (proj2 (spawnObstacle_no_hundred s T)).
Qed.

(** ** The obstacles of the reachable games *)

Lemma sound_scenery (o : Obstacle.t) : scenery o -> sound o.
Proof.
  intros (x & y & [-> | [-> | [-> | ->]]]); unfold sound, constructorBox;
    cbn; repeat split; try discriminate; try congruence; try lia;
    try (apply leb_le; reflexivity); try (apply ltb_lt; reflexivity).
Qed.

Lemma sound_poop (x y : Qc) : sound (Obstacle.new x y Obstacle.poop).
Proof.
  unfold sound, constructorBox; cbn; repeat split; try discriminate;
    try congruence; lia.
Qed.

Lemma sound_carousel (x y : Qc) (ph : nat) :
  ph = 1%nat \/ ph = 2%nat ->
  sound (Obstacle.setPhase ph (Obstacle.new x y Obstacle.carousel)).
Proof.
  intros H. unfold sound, constructorBox; cbn; repeat split;
    try discriminate; try congruence; try lia; try (intros _; exact H).
Qed.

Lemma sound_barrier (x y k : Qc) :
  $100 <= x + k -> x + k <= CONFIG.GAME_WIDTH - $100 ->
  sound (Obstacle.setKidOffsetX k (Obstacle.new x y Obstacle.jj_barrier)).
Proof.
  intros A B. unfold sound, constructorBox; cbn; repeat split;
    try discriminate; try congruence; try lia; assumption.
Qed.

Lemma sound_setY (v : Qc) (o : Obstacle.t) : sound o -> sound (Obstacle.setY v o).
Proof. exact (fun H => H). Qed.

Lemma sound_setTriggered (o : Obstacle.t) :
  Obstacle.type o = Obstacle.carousel -> sound o ->
  sound (Obstacle.setTriggered true o).
Proof.
  intros T (A & B & C & D). unfold sound.
  cbn [Obstacle.setTriggered Obstacle.type Obstacle.triggered Obstacle.phase
       Obstacle.x Obstacle.kidOffsetX Obstacle.barrierState Obstacle.animTimer
       Obstacle.scaleX Obstacle.animationSpeed].
  split; [exact A|]. split; [exact B|]. split; [intros _; exact T | exact D].
Qed.

Ltac show_fields :=
  unfold sound;
  cbn [Obstacle.setAnimation Obstacle.type Obstacle.triggered Obstacle.phase
       Obstacle.x Obstacle.kidOffsetX Obstacle.barrierState Obstacle.animTimer
       Obstacle.scaleX Obstacle.animationSpeed].

Lemma sound_updateAnimation (o : Obstacle.t) :
  sound o -> sound (Obstacle.updateAnimation o).
Proof.
  intros S0. pose proof S0 as (A & B & C & D & E & F & G & H).
  unfold Obstacle.updateAnimation.
  destruct (Obstacle.type o) eqn:T; try exact S0.
  - (* ditch *)
    case_if L; [|exact S0]. show_fields.
    split; [exact A|]. rewrite !T. split; [exact B|]. split; [exact C|].
    split; [exact D|]. split; [exact E|]. split; [exact F|].
    split; [exact G|]. intros _. destruct (H eq_refl) as (H1 & H2 & H3).
    rewrite H3. split; [|split; [|reflexivity]]; qc_lra.
  - (* jj_barrier *)
    destruct (Obstacle.barrierState o) eqn:St; try exact S0;
      repeat match goal with
             | |- context [if ?c then _ else _] => destruct c eqn:?
             end; try exact S0; show_fields;
      (split; [exact A|]); rewrite !T;
      (split; [exact B|]); (split; [exact C|]);
      (split; [exact D|]); (split; [exact E|]);
      (split; [intros _; reflexivity|]); (split; [|exact H]);
      repeat match goal with
             | H : (_ <=? _)%nat = true |- _ => apply Nat.leb_le in H
             | H : (_ <=? _)%nat = false |- _ => apply Nat.leb_gt in H
             end;
      destruct G as [G1 G2]; (split; [|intros ?]);
      try discriminate; try lia; specialize (G2 eq_refl); lia.
Qed.

Lemma updatePoopingJJ_spawns : appends sound updatePoopingJJ.
Proof.
  intros g. unfold updatePoopingJJ, updateSleddingJJ, updateSquattingJJ, spawnPoop.
  cbv zeta. break_tests;
    first [ exists []; split; [symmetry; apply app_nil_r | constructor]
          | eexists; split; [reflexivity|];
            apply Forall_cons; [apply sound_poop | constructor] ].
Qed.

Lemma carouselRule_spawns : appends sound carouselRule.
Proof.
  intros g. unfold carouselRule, spawnCarousel.
  cbv zeta. break_tests;
    first [ exists []; split; [symmetry; apply app_nil_r | constructor]
          | eexists; split; [reflexivity|];
            apply Forall_cons; [apply sound_carousel; auto | constructor] ].
Qed.

Lemma spawnObstacle_appended : appends spawnable spawnObstacle.
Proof.
  intros g.
  destruct ((lastHundredMeters g <? Math_floor (distance g / $100))%Z
            && (0 <? Math_floor (distance g / $100))%Z) eqn:T.
  - rewrite (spawnObstacle_hundred g T).
    set (u := (updatePath g) <| lastHundredMeters
                                := Math_floor (distance g / $100) |>).
    assert (Du : distance u = distance g).
    { assert (D : forall x, distance x = fst (odometer x)) by reflexivity.
      assert (E : forall x v, distance (x <| lastHundredMeters := v |>)
                              = distance x) by reflexivity.
      unfold u. rewrite E, D, updatePath_odometer. reflexivity. }
    assert (Ou : obstacles u = obstacles g).
    { assert (E : forall x v, obstacles (x <| lastHundredMeters := v |>)
                              = obstacles x) by reflexivity.
      unfold u. rewrite E. apply updatePath_obstacles. }
    destruct (spawnJJBarrier_spawns u) as (k & B1 & B2 & B3).
    { rewrite Du. apply andb_prop in T. destruct T as [_ T].
      apply Z.ltb_lt, Math_floor_positive in T. qc_lra. }
    eexists. rewrite <- Ou. split; [exact B1|].
    apply Forall_cons; [|constructor]. right.
    eexists. eexists. exists k. split; [reflexivity|]. split; assumption.
  - destruct (proj2 (spawnObstacle_no_hundred g T)) as (l & E & L).
    exists l. split; [exact E|].
    revert L. apply Forall_impl. intros o H. left. exact H.
Qed.

Lemma sound_spawnable (o : Obstacle.t) : spawnable o -> sound o.
Proof.
  intros [H | (x & y & k & -> & A & B)];
    [apply sound_scenery, H | apply sound_barrier; assumption].
Qed.

Lemma spawnObstacle_spawns : appends sound spawnObstacle.
Proof.
  intros g. destruct (spawnObstacle_appended g) as (l & E & L).
  exists l. split; [exact E|]. revert L. apply Forall_impl, sound_spawnable.
Qed.

(** An obstacle that survives an iteration of the loop is the obstacle
    moved and animated, a carousel possibly with its [triggered] flag set. *)
Lemma stepObstacle_survivor (o o' : Obstacle.t) (g : Game.t) :
  snd (stepObstacle o g) = Some o' ->
  o' = Obstacle.updateAnimation (moved g o) \/
  Obstacle.type o = Obstacle.carousel /\
  o' = Obstacle.updateAnimation (Obstacle.setTriggered true (moved g o)).
Proof.
  unfold stepObstacle, moved, triggerCarouselEffect. cbv zeta.
  change (Obstacle.type (Obstacle.setY (Obstacle.y o - scrollSpeed g) o))
    with (Obstacle.type o).
  destruct (Obstacle.type o); break_tests; cbn [fst snd];
    intros [= <-]; auto.
Qed.

Lemma stepObstacle_sound (o o' : Obstacle.t) (g : Game.t) :
  snd (stepObstacle o g) = Some o' -> sound o -> sound o'.
Proof.
  intros H So. destruct (stepObstacle_survivor o o' g H) as [-> | [T ->]].
  - apply sound_updateAnimation, sound_setY, So.
  - apply sound_updateAnimation, sound_setTriggered; [exact T|].
    apply sound_setY, So.
Qed.

Lemma obstacleLoop_sound (l : list Obstacle.t) (g : Game.t) :
  Forall sound l -> Forall sound (snd (obstacleLoop l g)).
Proof.
  induction 1 as [|o l So _ IH]; cbn [obstacleLoop snd]; [constructor|].
  destruct (snd (stepObstacle o (fst (obstacleLoop l g)))) as [o'|] eqn:E;
    [|exact IH].
  constructor; [exact (stepObstacle_sound _ _ _ E So) | exact IH].
Qed.

Lemma resolveCollisions_obstacles (g : Game.t) :
  obstacles (resolveCollisions g) = snd (obstacleLoop (obstacles g) g).
Proof. reflexivity. Qed.

Lemma reachable_sound (g : Game.t) :
  reachable g -> Forall sound (obstacles g).
Proof.
  revert g.
  apply (reachable_invariant (fun g => Forall sound (obstacles g)));
    try (intros; assumption).
  - constructor.
  - intros; constructor.
  - intros g now _ _. revert g now.
    apply (update_invariant (fun g => Forall sound (obstacles g)));
      try (intros; assumption).
    + intros g. rewrite accrue_obstacles. exact (fun H => H).
    + intros g. rewrite pooperRule_obstacles. exact (fun H => H).
    + intros g. apply appends_Forall, updatePoopingJJ_spawns.
    + intros g. apply appends_Forall, carouselRule_spawns.
    + intros g now. rewrite steer_obstacles. exact (fun H => H).
    + intros g. apply appends_Forall, spawnObstacle_spawns.
    + intros g H. rewrite resolveCollisions_obstacles.
      apply obstacleLoop_sound, H.
Qed.

(** X7: every obstacle of a reachable game has the hitbox that the
    constructor gives to its type and is not of the type [kid]; only a
    carousel is ever triggered and a carousel has phase 1 or 2; the kid of
    a JJ barrier stands between x = 100 and x = GAME_WIDTH - 100; only a JJ
    barrier leaves the state [wait], its timer stays within 40 (within 10
    while cracking); the scale of a ditch stays between 0.1 and 1.55. *)
Theorem obstacles_sound (g : Game.t) (o : Obstacle.t) :
  reachable g -> In o (obstacles g) -> sound o.
Proof.
  intros R H. pose proof (reachable_sound g R) as F.
  rewrite Forall_forall in F. apply F, H.
Qed.

(** ** The loop over the obstacles, obstacle by obstacle *)

Ltac break_test :=
  match goal with
  | |- context [if ?c then _ else _] =>
      lazymatch c with
      | context [if _ then _ else _] => fail
      | context [match _ with _ => _ end] => fail
      | _ => destruct c
      end
  | |- context [match ?c with _ => _ end] =>
      lazymatch c with
      | context [if _ then _ else _] => fail
      | context [match _ with _ => _ end] => fail
      | _ => destruct c
      end
  end.

(** What an iteration leaves of the obstacle depends on the game through
    the position and the jumping flag of the player and the scroll speed
    only. *)
Lemma stepObstacle_snd_collider (o : Obstacle.t) (g g' : Game.t) :
  collider g = collider g' ->
  snd (stepObstacle o g) = snd (stepObstacle o g').
Proof.
  unfold collider. intros [= X Y J Sp].
  unfold stepObstacle, triggerCarouselEffect. cbv zeta.
  rewrite Sp, J.
  rewrite (checkCollision_position (player g) (player g') _ X Y).
  set (obs := Obstacle.setY (Obstacle.y o - scrollSpeed g') o).
  repeat (cbn [fst snd]; break_test); reflexivity.
Qed.

Lemma obstacleLoop_survivors (l : list Obstacle.t) (g : Game.t) :
  snd (obstacleLoop l g) = survivors g l.
Proof.
  induction l as [|o l IH]; cbn [obstacleLoop snd survivors flat_map];
    [reflexivity|].
  rewrite (stepObstacle_snd_collider o (fst (obstacleLoop l g)) g)
    by apply obstacleLoop_frame.
  fold (survivors g l). rewrite IH.
  destruct (snd (stepObstacle o g)); reflexivity.
Qed.

Lemma stepObstacle_fate (o : Obstacle.t) (g : Game.t) :
  match snd (stepObstacle o g) with
  | Some o' =>
      Obstacle.x o' = Obstacle.x o /\ Obstacle.type o' = Obstacle.type o /\
      Obstacle.width o' = Obstacle.width o /\
      Obstacle.height o' = Obstacle.height o /\
      Obstacle.y o' = Obstacle.y o - scrollSpeed g /\
      $(-100) <= Obstacle.y o'
  | None => Obstacle.y o - scrollSpeed g < $(-100)
  end.
Proof.
  assert (U : forall q,
             Obstacle.x (Obstacle.updateAnimation q) = Obstacle.x q /\
             Obstacle.type (Obstacle.updateAnimation q) = Obstacle.type q /\
             Obstacle.width (Obstacle.updateAnimation q) = Obstacle.width q /\
             Obstacle.height (Obstacle.updateAnimation q) = Obstacle.height q /\
             Obstacle.y (Obstacle.updateAnimation q) = Obstacle.y q).
  { intros [x y ty w h k b a r s sp ph tr]. unfold Obstacle.updateAnimation.
    cbn [Obstacle.type Obstacle.barrierState Obstacle.scaleX Obstacle.y].
    destruct ty; break_tests; repeat split. }
  unfold stepObstacle, triggerCarouselEffect. cbv zeta.
  set (obs := Obstacle.setY (Obstacle.y o - scrollSpeed g) o).
  match goal with
  | |- context [if Obstacle.y (snd ?t) <? _ then _ else _] => set (r := t)
  end.
  assert (R : Obstacle.x (snd r) = Obstacle.x o /\
              Obstacle.type (snd r) = Obstacle.type o /\
              Obstacle.width (snd r) = Obstacle.width o /\
              Obstacle.height (snd r) = Obstacle.height o /\
              Obstacle.y (snd r) = Obstacle.y o - scrollSpeed g).
  { unfold r. break_tests; repeat split. }
  destruct R as (R1 & R2 & R3 & R4 & R5).
  case_if L; cbn [snd].
  - rewrite <- R5. qc_lra.
  - destruct (U (snd r)) as (U1 & U2 & U3 & U4 & U5).
    rewrite U1, U2, U3, U4, U5, R1, R2, R3, R4.
    repeat split; try exact R5. qc_lra.
Qed.

(** X8: the loop over the obstacles treats every obstacle on its own: the
    obstacles after the loop are, in the same order, what one iteration on
    the game at the loop's entry leaves of each; an obstacle is removed
    exactly when the scroll takes it above y = -100, and one that stays
    keeps its x, type, width and height and has moved up by the scroll
    speed. *)
Theorem collision_loop_pointwise (g : Game.t) :
  obstacles (resolveCollisions g) = survivors g (obstacles g) /\
  (List.length (obstacles (resolveCollisions g))
   <= List.length (obstacles g))%nat /\
  forall o,
    match snd (stepObstacle o g) with
    | Some o' =>
        Obstacle.x o' = Obstacle.x o /\ Obstacle.type o' = Obstacle.type o /\
        Obstacle.width o' = Obstacle.width o /\
        Obstacle.height o' = Obstacle.height o /\
        Obstacle.y o' = Obstacle.y o - scrollSpeed g /\
        $(-100) <= Obstacle.y o'
    | None => Obstacle.y o - scrollSpeed g < $(-100)
    end.
Proof.
  assert (E : obstacles (resolveCollisions g) = survivors g (obstacles g)).
  { rewrite resolveCollisions_obstacles. apply obstacleLoop_survivors. }
  split; [exact E|]. split; [|intros o; apply stepObstacle_fate].
  rewrite E. generalize (obstacles g). intros l.
  induction l as [|o l IH]; cbn [survivors flat_map]; [apply le_n|].
  fold (survivors g l). rewrite length_app.
  destruct (snd (stepObstacle o g)); cbn [List.length]; lia.
Qed.

(** ** The trail of the skis *)

Lemma sweepTrails_In (speed : Qc) (ts : list Trail.t) (s' : Trail.t) :
  In s' (sweepTrails speed ts) ->
  exists s, In s ts /\ Trail.age s' = S (Trail.age s) /\
            (Trail.age s' <= 200)%nat /\ $(-100) <= Trail.y s' /\
            Trail.y s' = Trail.y s - speed /\ Trail.x s' = Trail.x s.
Proof.
  induction ts as [|s ts IH]; cbn [sweepTrails]; [intros []|]. cbv zeta.
  cbn [Trail.y Trail.age].
  destruct (Trail.y s - speed <? $(-100)) eqn:Y; cbn [orb].
  - intros H. destruct (IH H) as (s0 & I0 & R). exists s0. split; [right; exact I0 | exact R].
  - destruct (200 <? S (Trail.age s))%nat eqn:A.
    + intros H. destruct (IH H) as (s0 & I0 & R). exists s0.
      split; [right; exact I0 | exact R].
    + intros [<- | H].
      * exists s. split; [left; reflexivity|]. cbn [Trail.age Trail.y Trail.x].
        apply Nat.ltb_ge in A. repeat split; try assumption. qc_lra.
      * destruct (IH H) as (s0 & I0 & R). exists s0.
        split; [right; exact I0 | exact R].
Qed.

Lemma sweepTrails_sorted (speed : Qc) (ts : list Trail.t) :
  StronglySorted (fun a b => (Trail.age b < Trail.age a)%nat) ts ->
  StronglySorted (fun a b => (Trail.age b < Trail.age a)%nat)
                 (sweepTrails speed ts).
Proof.
  induction 1 as [|s ts St IH F]; cbn [sweepTrails]; [constructor|].
  cbv zeta. case_if D; [exact IH|].
  constructor; [exact IH|].
  rewrite Forall_forall in F |- *. intros s' H.
  destruct (sweepTrails_In speed ts s' H) as (s0 & I0 & A & _).
  cbn [Trail.age]. rewrite A. specialize (F s0 I0). lia.
Qed.

Lemma sweepTrails_tidy (speed : Qc) (ts : list Trail.t) :
  StronglySorted (fun a b => (Trail.age b < Trail.age a)%nat) ts ->
  tidy (sweepTrails speed ts).
Proof.
  intros St. split; [|apply sweepTrails_sorted, St].
  rewrite Forall_forall. intros s' H.
  destruct (sweepTrails_In speed ts s' H) as (s0 & _ & A & B & C & _).
  split; [lia | exact C].
Qed.

Lemma sorted_snoc (ts : list Trail.t) (s : Trail.t) :
  StronglySorted (fun a b => (Trail.age b < Trail.age a)%nat) ts ->
  Forall (fun a => (Trail.age s < Trail.age a)%nat) ts ->
  StronglySorted (fun a b => (Trail.age b < Trail.age a)%nat) (ts ++ [s]).
Proof.
  induction 1 as [|a ts St IH F]; intros O; cbn [app].
  - constructor; constructor.
  - inversion O as [|? ? Oa Ots]; subst.
    constructor; [apply IH, Ots|].
    apply Forall_app. split; [exact F | constructor; [exact Oa | constructor]].
Qed.

Lemma steer_trails (now : Qc) (g : Game.t) :
  trails (steer now g) = sweepTrails (scrollSpeed g) (trails g) \/
  exists x y,
    trails (steer now g)
    = sweepTrails (scrollSpeed g)
        (trails g ++ [ {| Trail.x := x; Trail.y := y; Trail.age := 0 |} ]).
Proof.
  unfold steer, updateTrails. cbv zeta.
  break_tests; (left; reflexivity) || (right; eexists; eexists; reflexivity).
Qed.

Lemma steer_tidy (now : Qc) (g : Game.t) :
  tidy (trails g) -> tidy (trails (steer now g)).
Proof.
  intros [F St]. destruct (steer_trails now g) as [-> | (x & y & ->)];
    apply sweepTrails_tidy; [exact St|].
  apply sorted_snoc; [exact St|].
  apply (Forall_impl _ (P := trailSample)); [|exact F].
  intros a [A _]. cbn [Trail.age]. lia.
Qed.

Lemma tidy_length (ts : list Trail.t) :
  tidy ts -> (List.length ts <= 200)%nat.
Proof.
  intros [F St].
  assert (H : (List.length ts <= match ts with
                                 | [] => 0
                                 | s :: _ => Trail.age s
                                 end)%nat).
  { induction St as [|s ts St IH O]; [apply le_n|].
    inversion F as [|? ? [A _] F']; subst. specialize (IH F').
    cbn [List.length]. destruct ts as [|s' ts]; [cbn; lia|].
    inversion O as [|? ? Hs _]; subst. cbn [List.length] in IH |- *. lia. }
  destruct ts as [|s ts]; [cbn; lia|].
  inversion F as [|? ? [A _] _]; subst. lia.
Qed.

Lemma update_tidy (now : Qc) (g : Game.t) :
  tidy (trails g) -> tidy (trails (update now g)).
Proof.
  revert g now.
  assert (B : forall x, trails x = snd (fst (fst (fst (fst (bystanders x))))))
    by reflexivity.
  assert (Sf : forall x, trails x = fst (fst (fst (sideFields x)))) by reflexivity.
  assert (Pa : forall x, trails x = fst (fst (fst (passive x)))) by reflexivity.
  apply (update_invariant (fun g => tidy (trails g)));
    try (intros g H; exact H).
  - intros g H. cbv beta in *. rewrite B, accrue_bystanders, <- B. exact H.
  - intros g H. cbv beta in *. rewrite B, pooperRule_bystanders, <- B. exact H.
  - intros g H. cbv beta in *. rewrite B, updatePoopingJJ_bystanders, <- B. exact H.
  - intros g H. cbv beta in *. rewrite B, carouselRule_bystanders, <- B. exact H.
  - intros g H _. exact H.
  - intros g now. apply steer_tidy.
  - intros g H. cbv beta in *. rewrite Sf, spawnObstacle_sideFields, <- Sf. exact H.
  - intros g H. cbv beta in *. rewrite Pa, resolveCollisions_passive, <- Pa. exact H.
Qed.

Lemma reachable_tidy (g : Game.t) : reachable g -> tidy (trails g).
Proof.
  revert g. apply (reachable_invariant (fun g => tidy (trails g)));
    try (intros; assumption).
  - split; constructor.
  - intros; split; constructor.
  - intros g now _ _. apply update_tidy.
Qed.

(** X9: the trail of a reachable game holds at most 200 samples, oldest
    first with strictly decreasing ages; every sample is between 1 and 200
    frames old and has not scrolled above y = -100. *)
Theorem trail_buffer (g : Game.t) :
  reachable g ->
  (List.length (trails g) <= 200)%nat /\
  StronglySorted (fun a b => (Trail.age b < Trail.age a)%nat) (trails g) /\
  forall s, In s (trails g) ->
    (1 <= Trail.age s <= 200)%nat /\ $(-100) <= Trail.y s.
Proof.
  intros R. pose proof (reachable_tidy g R) as T.
  split; [apply tidy_length, T|]. destruct T as [F St]. split; [exact St|].
  rewrite Forall_forall in F. exact F.
Qed.

(** ** The player *)

Lemma poised_pose (p p' : Player.t) : pose p' = pose p -> poised p -> poised p'.
Proof.
  unfold pose, poised. intros [= _ -> -> _ -> -> -> _ _]. exact (fun H => H).
Qed.

Lemma move_poised (dx : Qc) (p : Player.t) : poised p -> poised (Player.move dx p).
Proof.
  intros (A & B & C & D & E). unfold Player.move, poised. cbv zeta.
  cbn [Player.y Player.baseScale Player.angle Player.isJumping Player.scale].
  split; [exact A|]. split; [exact B|].
  case_if T; (split; [qc_lra|]); (split; [qc_lra | exact E]).
Qed.

Lemma jump_poised (now : Qc) (p : Player.t) : poised p -> poised (Player.jump now p).
Proof.
  intros H. pose proof H as (A & B & C & D & E). unfold Player.jump.
  case_if J; [exact H|].
  unfold poised.
  cbn [Player.y Player.baseScale Player.angle Player.isJumping Player.scale].
  repeat split; try assumption. discriminate.
Qed.

Lemma update_poised (now : Qc) (p : Player.t) :
  poised p -> poised (Player.update now p).
Proof.
  intros (A & B & C & D & E). unfold Player.update. cbv zeta.
  assert (An : $(-15) <= (if Math_abs (Player.angle p) >? $0.1
                          then Player.angle p * $0.9 else Player.angle p) /\
               (if Math_abs (Player.angle p) >? $0.1
                then Player.angle p * $0.9 else Player.angle p) <= $15).
  { case_if T; split; qc_lra. }
  destruct An as [An1 An2].
  destruct (Player.isJumping p) eqn:J.
  - case_if Pr; unfold poised;
      cbn [Player.y Player.baseScale Player.angle Player.isJumping Player.scale];
      repeat split; try assumption; try reflexivity; try discriminate.
  - unfold poised.
    cbn [Player.y Player.baseScale Player.angle Player.isJumping Player.scale].
    repeat split; assumption.
Qed.

Lemma steer_poised (now : Qc) (g : Game.t) :
  poised (player g) -> poised (player (steer now g)).
Proof.
  intros H. unfold steer, updateTrails. cbv zeta.
  break_tests; cbn [player setter set_player set_trails];
    apply update_poised; try apply move_poised; exact H.
Qed.

Lemma update_player_poised (now : Qc) (g : Game.t) :
  poised (player g) -> poised (player (update now g)).
Proof.
  revert g now.
  assert (B : forall x, player x = fst (fst (fst (fst (fst (bystanders x))))))
    by reflexivity.
  apply (update_invariant (fun g => poised (player g)));
    try (intros g H; exact H).
  - intros g H. cbv beta in *. rewrite B, accrue_bystanders, <- B. exact H.
  - intros g H. cbv beta in *. rewrite B, pooperRule_bystanders, <- B. exact H.
  - intros g H. cbv beta in *. rewrite B, updatePoopingJJ_bystanders, <- B. exact H.
  - intros g H. cbv beta in *. rewrite B, carouselRule_bystanders, <- B. exact H.
  - intros g H _. exact H.
  - intros g now. apply steer_poised.
  - intros g H. cbv beta in *. rewrite spawnObstacle_player. exact H.
  - intros g. cbv beta. apply poised_pose.
    assert (Pa : forall x, pose (player x) = snd (passive x)) by reflexivity.
    rewrite Pa, resolveCollisions_passive. reflexivity.
Qed.

Lemma reachable_poised (g : Game.t) : reachable g -> poised (player g).
Proof.
  revert g. apply (reachable_invariant (fun g => poised (player g)));
    try (intros; assumption).
  - repeat split; apply leb_le; reflexivity.
  - intros; repeat split; apply leb_le; reflexivity.
  - intros g now. apply jump_poised.
  - intros g now _ _. apply update_player_poised.
Qed.

(** X10: the player of a reachable game stays on the line y = 150 with
    base scale 0.8, leans by at most 15 degrees either way, and is drawn at
    the base scale whenever it is on the ground. *)
Theorem player_poised (g : Game.t) :
  reachable g ->
  Player.y (player g) = $150 /\ Player.baseScale (player g) = $0.8 /\
  $(-15) <= Player.angle (player g) /\ Player.angle (player g) <= $15 /\
  (Player.isJumping (player g) = false ->
   Player.scale (player g) = Player.baseScale (player g)).
Proof. intros R. exact (reachable_poised g R). Qed.

(** ** The antagonist *)

Lemma slotMannered_pooperSlot (g g' : Game.t) :
  pooperSlot g' = pooperSlot g -> slotMannered g -> slotMannered g'.
Proof.
  unfold pooperSlot, slotMannered. intros [= -> _ _]. exact (fun H => H).
Qed.

Lemma spawnPoopingJJ_mannered (forced : option JJ.kind) (g : Game.t) :
  slotMannered g -> slotMannered (spawnPoopingJJ forced g).
Proof.
  unfold slotMannered, spawnPoopingJJ. destruct (poopingJJ g) eqn:P.
  - rewrite P. exact (fun H => H).
  - intros _. cbv zeta. cbn [poopingJJ setter set_poopingJJ].
    unfold mannered.
    cbn [JJ.direction JJ.type JJ.state JJ.ropeElement JJ.poopTimer JJ.targetY
         JJ.y JJ.lifeTime].
    split; [case_if D; auto|].
    assert (L : $(-100) < $200) by (apply ltb_lt; reflexivity).
    assert (L' : $(-100) <= CONFIG.GAME_HEIGHT + $100)
      by (apply leb_le; reflexivity).
    assert (L'' : $(-100) <= $204 + ofNat 0 * $0.5)
      by (apply leb_le; reflexivity).
    destruct forced as [[|]|]; [| |case_if K];
      repeat split; try discriminate; try lia; try assumption;
      try reflexivity.
Qed.

Lemma pooperRule_mannered (g : Game.t) :
  slotMannered g -> slotMannered (pooperRule g).
Proof.
  intros H. unfold pooperRule. destruct (poopingJJ g) eqn:P; [exact H|].
  assert (E : forall x v, slotMannered (x <| lastPoopJJSpawn := v |>)
                          = slotMannered x) by reflexivity.
  assert (E' : forall x v, slotMannered (x <| hasSpawnedFirstPooper := v |>)
                           = slotMannered x) by reflexivity.
  cbv zeta. break_tests; rewrite ?E, ?E'; try exact H;
    apply spawnPoopingJJ_mannered, H.
Qed.

Ltac show_jj :=
  unfold slotMannered; cbn [poopingJJ setter set_poopingJJ];
  unfold mannered;
  cbn [JJ.direction JJ.type JJ.state JJ.ropeElement JJ.poopTimer JJ.targetY
       JJ.y JJ.lifeTime].

Ltac nat_tests :=
  repeat match goal with
         | H : (_ <? _)%nat = true |- _ => apply Nat.ltb_lt in H
         | H : (_ <? _)%nat = false |- _ => apply Nat.ltb_ge in H
         end.

Lemma updateSleddingJJ_mannered (jj : JJ.t) (g : Game.t) :
  JJ.type jj = JJ.sled -> mannered jj -> slotMannered g ->
  slotMannered (updateSleddingJJ jj g).
Proof.
  intros T [D M] Sg. rewrite T in M.
  destruct M as (M1 & M2 & M3 & M4 & M5 & M6 & M7).
  unfold updateSleddingJJ. destruct (JJ.state jj) eqn:St; [| |exact Sg].
  - (* entering *)
    destruct (M6 eq_refl) as (E1 & E2 & E3). cbv zeta. show_jj.
    split; [exact D|]. rewrite T, M4, E2, E3.
    assert (Z : ofNat 0 = 0) by reflexivity. rewrite Z.
    unfold CONFIG.GAME_HEIGHT.
    case_if Y; (split; [discriminate|]); (split; [exact M2|]);
      (split; [lia|]); (split; [reflexivity|]); (split; [qc_lra|]);
      (split; [|intros _; qc_lra]).
    + discriminate.
    + intros _. split; [qc_lra|]. split; reflexivity.
  - (* skiing *)
    cbv zeta.
    destruct (600 <? S (JJ.lifeTime jj))%nat eqn:L; cbn [andb].
    + case_if Y; [unfold slotMannered; cbn [poopingJJ setter set_poopingJJ];
                  exact I|].
      show_jj. rewrite T.
      split; [break_tests; auto|].
      split; [discriminate|]. split; [exact M2|].
      split; [case_if Pt; nat_tests; lia|]. split; [exact M4|].
      split; [qc_lra|]. split; [discriminate|].
      intros Lt. nat_tests. lia.
    + show_jj. rewrite T.
      split; [break_tests; auto|].
      split; [discriminate|]. split; [exact M2|].
      split; [case_if Pt; nat_tests; lia|]. split; [exact M4|].
      nat_tests.
      assert (Lt : (JJ.lifeTime jj <= 600)%nat) by lia.
      specialize (M7 Lt). rewrite ofNat_S.
      pose proof (ofNat_le _ _ Lt) as B.
      assert (Z : ofNat 600 = $600) by (apply Qc_is_canon; reflexivity).
      rewrite Z in B. unfold CONFIG.GAME_HEIGHT.
      split; [qc_lra|]. split; [discriminate|]. intros _. qc_lra.
Qed.

Lemma updateSquattingJJ_mannered (jj : JJ.t) (g : Game.t) :
  JJ.type jj = JJ.squat -> mannered jj -> slotMannered g ->
  slotMannered (updateSquattingJJ jj g).
Proof.
  intros T [D M] Sg. rewrite T in M.
  destruct M as (M1 & M2 & M3 & M4).
  unfold updateSquattingJJ. destruct (JJ.state jj) eqn:St; [|exact Sg|].
  - (* entering *)
    cbv zeta. show_jj. rewrite T. split; [exact D|].
    split; [discriminate|]. split; [exact M2|]. split; [discriminate|].
    intros _. split; [|reflexivity].
    rewrite (M3 eq_refl). apply leb_le. reflexivity.
  - (* crawling *)
    cbv zeta. destruct (M4 eq_refl) as [C1 C2].
    case_if Y; [unfold slotMannered; cbn [poopingJJ setter set_poopingJJ];
                exact I|].
    show_jj. rewrite T.
    split; [destruct D as [-> | ->]; break_tests; auto|].
    split; [discriminate|].
    split; [case_if Pt; nat_tests; lia|]. split; [discriminate|].
    intros _. split; [|exact C2].
    match type of Y with (?a <? _) = false => generalize a, Y end.
    intros a Ya. qc_lra.
Qed.

Lemma updatePoopingJJ_mannered (g : Game.t) :
  slotMannered g -> slotMannered (updatePoopingJJ g).
Proof.
  intros H. unfold updatePoopingJJ.
  destruct (poopingJJ g) as [jj|] eqn:P; [|exact H].
  assert (M : mannered jj) by (unfold slotMannered in H; rewrite P in H; exact H).
  destruct (JJ.type jj) eqn:T;
    [apply updateSleddingJJ_mannered | apply updateSquattingJJ_mannered];
    assumption.
Qed.

Lemma update_mannered (now : Qc) (g : Game.t) :
  slotMannered g -> slotMannered (update now g).
Proof.
  revert g now. apply update_invariant;
    try (intros; match goal with H : slotMannered _ |- _ =>
                   refine (slotMannered_pooperSlot _ _ _ H);
                   autorewrite with frames; reflexivity end).
  - exact pooperRule_mannered.
  - exact updatePoopingJJ_mannered.
Qed.

Lemma reachable_mannered (g : Game.t) : reachable g -> slotMannered g.
Proof.
  revert g. apply reachable_invariant;
    try (intros; match goal with H : slotMannered _ |- _ =>
                   refine (slotMannered_pooperSlot _ _ _ H); reflexivity end).
  - exact I.
  - intros; exact I.
  - intros g now _ _. apply update_mannered.
Qed.

(** X11: the antagonist in the slot of a reachable game moves in direction
    1 or -1.  A sled is entering or skiing and never on a rope, its poop
    timer stays within 60, its y is under 200 while it enters and never
    exceeds GAME_HEIGHT + 100, and during its first 600 frames of skiing y
    is at most 204 + 0.5 per frame; a squat is entering or crawling, its
    poop timer stays within 20, it waits at y = -100 until its first frame
    and then crawls on its rope with y at least -150. *)
Theorem antagonist_mannered (g : Game.t) (jj : JJ.t) :
  reachable g -> poopingJJ g = Some jj -> mannered jj.
Proof.
  intros R P. pose proof (reachable_mannered g R) as M.
  unfold slotMannered in M. rewrite P in M. exact M.
Qed.

(** ** The shape of the path *)

Lemma shaped_pathModel (g g' : Game.t) :
  pathModel g' = pathModel g -> shaped g -> shaped g'.
Proof.
  unfold pathModel, shaped. intros [= _ -> -> -> _ _ -> -> _].
  exact (fun H => H).
Qed.

Ltac show_path :=
  unfold shaped;
  cbn [pathTarget maxSplitDistance pathWidth targetPathWidth splitDistance
       isSplitting startSeparating splitTimer pathCenter
       setter set_pathCenter set_pathWidth set_targetPathWidth
       set_isSplitting set_startSeparating set_splitDistance set_splitTimer
       set_pathTarget set_rng drawn] in *.

Lemma rerollTarget_shaped (g : Game.t) : shaped g -> shaped (rerollTarget g).
Proof.
  intros H. unfold rerollTarget. rewrite (proj1 H). exact H.
Qed.

Lemma moveCenter_shaped (g : Game.t) : shaped g -> shaped (moveCenter g).
Proof.
  intros H. unfold moveCenter. cbv zeta. case_if B; exact H.
Qed.

Lemma ofNat_600 : ofNat 600 = $600.
Proof. apply Qc_is_canon. reflexivity. Qed.

(** The width after [adjustWidth]. *)
Lemma adjustWidth_pathWidth (g : Game.t) :
  pathWidth (adjustWidth g)
  = if pathWidth g <? targetPathWidth g
    then if pathWidth g + $0.5 >? targetPathWidth g
         then pathWidth g + $0.5 - $0.5 else pathWidth g + $0.5
    else if pathWidth g >? targetPathWidth g
         then pathWidth g - $0.5 else pathWidth g.
Proof.
  unfold adjustWidth. cbv zeta.
  destruct (pathWidth g <? targetPathWidth g); show_path;
    case_if T; reflexivity.
Qed.

Lemma adjustWidth_rest (g : Game.t) :
  pathTarget (adjustWidth g) = pathTarget g /\
  maxSplitDistance (adjustWidth g) = maxSplitDistance g /\
  targetPathWidth (adjustWidth g) = targetPathWidth g /\
  splitDistance (adjustWidth g) = splitDistance g.
Proof. unfold adjustWidth. cbv zeta. break_tests; repeat split. Qed.

Lemma adjustWidth_shaped (g : Game.t) : shaped g -> shaped (adjustWidth g).
Proof.
  intros (A & B & (n & N & C) & D & E).
  destruct (adjustWidth_rest g) as (R1 & R2 & R3 & R4).
  unfold shaped. rewrite R1, R2, R3, R4, adjustWidth_pathWidth.
  split; [exact A|]. split; [exact B|]. split; [|split; [exact D | exact E]].
  pose proof (ofNat_nonneg n) as P. pose proof (ofNat_le n 600 N) as Q.
  rewrite ofNat_600 in Q.
  destruct (pathWidth g <? targetPathWidth g) eqn:T1.
  - destruct D as [D | D]; rewrite D in *; [exfalso; qc_lra|].
    assert (Lt : (n < 600)%nat).
    { destruct (le_lt_dec 600 n) as [G|G]; [|exact G].
      apply ofNat_le in G. rewrite ofNat_600 in G. exfalso. qc_lra. }
    pose proof (ofNat_le (S n) 600 Lt) as Q'.
    rewrite ofNat_600, ofNat_S in Q'.
    case_if T2; [exfalso; qc_lra|].
    exists (S n). split; [lia|]. rewrite ofNat_S. qc_lra.
  - case_if T2; [|exists n; split; [exact N | exact C]].
    destruct n as [|n].
    + assert (Z : ofNat 0 = 0) by reflexivity. rewrite Z in *.
      destruct D as [D | D]; rewrite D in *; exfalso; qc_lra.
    + exists n. split; [lia|]. rewrite ofNat_S in C. qc_lra.
Qed.

Lemma startSplit_shaped (g : Game.t) : shaped g -> shaped (startSplit g).
Proof.
  intros H. unfold startSplit. cbv zeta. break_tests; exact H.
Qed.

Lemma widenForSplit_shaped (g : Game.t) : shaped g -> shaped (widenForSplit g).
Proof.
  intros (A & B & C & D & E). unfold widenForSplit. cbv zeta.
  break_tests; show_path; repeat split; tauto.
Qed.

Lemma separate_shaped (g : Game.t) : shaped g -> shaped (separate g).
Proof.
  intros (A & B & C & D & (E1 & E2)). unfold separate. cbv zeta.
  repeat match goal with
         | |- context [if ?c then _ else _] => destruct c eqn:?
         end; show_path;
    (split; [exact A|]); (split; [exact B|]); (split; [exact C|]);
    (split; [exact D|]); rewrite ?B in *; split; qc_lra.
Qed.

Lemma contract_shaped (g : Game.t) : shaped g -> shaped (contract g).
Proof.
  intros (A & B & C & D & (E1 & E2)). unfold contract. cbv zeta.
  repeat match goal with
         | |- context [if ?c then _ else _] => destruct c eqn:?
         end; show_path;
    (split; [exact A|]); (split; [exact B|]); (split; [exact C|]);
    (split; [auto|]); split; qc_lra.
Qed.

Lemma updatePath_shaped (g : Game.t) : shaped g -> shaped (updatePath g).
Proof.
  intros H. unfold updatePath. cbv zeta.
  apply contract_shaped, separate_shaped, widenForSplit_shaped,
    startSplit_shaped, adjustWidth_shaped, moveCenter_shaped,
    rerollTarget_shaped, H.
Qed.

Lemma reachable_shaped (g : Game.t) : reachable g -> shaped g.
Proof.
  revert g. apply reachable_ind.
  - split; [reflexivity|]. split; [reflexivity|].
    split; [exists 0%nat; split; [lia | apply Qc_is_canon; reflexivity]|].
    split; [left; reflexivity|].
    split; [apply Qcle_refl | apply leb_le; reflexivity].
  - intros e g _ IH.
    destruct (handle_pathModel e g) as [A | [(x & A & B) | ->]].
    + exact (shaped_pathModel _ _ A IH).
    + apply (shaped_pathModel _ _ B), updatePath_shaped.
      exact (shaped_pathModel _ _ A IH).
    + destruct IH as (A & B & _). cbn [handle].
      split; [exact A|]. split; [exact B|].
      split; [exists 0%nat; split; [lia | apply Qc_is_canon; reflexivity]|].
      split; [left; reflexivity|].
      split; [apply Qcle_refl | apply leb_le; reflexivity].
Qed.

(** X12: in every reachable game the target of the path centre is still
    undefined and [maxSplitDistance] is 250; the width of the path is 450
    plus a whole number of steps of 0.5 and stays between 450 and 750, and
    its target is 450 or 750 (the random width of a re-roll is never
    assigned); the fork distance stays between 0 and 251.5. *)
Theorem path_shape (g : Game.t) :
  reachable g ->
  pathTarget g = None /\ maxSplitDistance g = $250 /\
  (exists n, (n <= 600)%nat /\ pathWidth g = $450 + ofNat n * $0.5) /\
  ($450 <= pathWidth g /\ pathWidth g <= $750) /\
  (targetPathWidth g = $450 \/ targetPathWidth g = $750) /\
  (0 <= splitDistance g /\ splitDistance g <= $251.5).
Proof.
  intros R. destruct (reachable_shaped g R) as (A & B & (n & N & C) & D & E).
  split; [exact A|]. split; [exact B|].
  split; [exists n; split; [exact N | exact C]|].
  split; [|split; [exact D | exact E]].
  pose proof (ofNat_nonneg n) as P. pose proof (ofNat_le n 600 N) as Q.
  rewrite ofNat_600 in Q. rewrite C. split; qc_lra.
Qed.

(** ** The length of the death animation *)

Lemma fading_weaken (b b' : Qc) (ps : ParticleSystem.t) :
  b <= b' -> fading b ps -> fading b' ps.
Proof.
  intros L. unfold fading. apply Forall_impl. intros p [A B].
  split; [qc_lra | exact B].
Qed.

Lemma gameover_frames (nows : list Qc) (g : Game.t) :
  state g = GAMEOVER -> run (map frame nows) g = g.
Proof.
  intros St. induction nows as [|now nows IH]; [reflexivity|].
  change (run (map frame (now :: nows)) g)
    with (run (map frame nows) (gameLoop now g)).
  unfold gameLoop. rewrite St. exact IH.
Qed.

Lemma exploding_ends (k : nat) (g : Game.t) (nows : list Qc) :
  state g = EXPLODING ->
  fading (ofNat (S k) * $0.01) (particleSystem g) ->
  List.length nows = S k ->
  state (run (map frame nows) g) = GAMEOVER.
Proof.
  revert g nows. induction k as [|k IH]; intros g nows St F L;
    (destruct nows as [|now nows]; [discriminate L|]);
    change (run (map frame (now :: nows)) g)
      with (run (map frame nows) (gameLoop now g));
    unfold gameLoop; rewrite St, (update_exploding now g St).
  - destruct nows; [|discriminate L].
    assert (E : ParticleSystem.sweep (particleSystem g) = []).
    { apply (fading_nonpositive_empty _ _ (Qcle_refl _)).
      replace $0.01 with (ofNat 1 * $0.01) at 1; [exact F|].
      apply Qc_is_canon. reflexivity. }
    unfold ParticleSystem.update. rewrite E. reflexivity.
  - destruct (snd (ParticleSystem.update (particleSystem g))) eqn:U.
    + apply IH; [exact St | | cbn in L; lia].
      apply sweep_fading in F.
      change (particleSystem (ticked g))
        with (ParticleSystem.sweep (particleSystem g)).
      revert F. apply fading_weaken. rewrite (ofNat_S (S k)). qc_lra.
    + rewrite gameover_frames; reflexivity.
Qed.

Section Range.

(** [Math.random()] returns a number in [0, 1). *)
Hypothesis random_range : forall n, 0 <= Math_random n /\ Math_random n < 1.

Lemma spawnLoop_fading (count : nat) (x y : Qc) (col : string) (rng : nat)
      (ps : ParticleSystem.t) :
  fading $1.5 ps ->
  fading $1.5 (fst (ParticleSystem.spawnLoop count x y col rng ps)).
Proof.
  revert rng ps. induction count as [|count IH]; intros rng ps F;
    cbn [ParticleSystem.spawnLoop]; [exact F|].
  apply IH. apply Forall_app. split; [exact F|].
  constructor; [|constructor].
  cbn [ParticleSystem.spawnOne ParticleSystem.life ParticleSystem.decay].
  destruct (random_range (rng + 3)) as [L U]. split; qc_lra.
Qed.

Lemma triggerExplosion_fading (o : Obstacle.t) (g : Game.t) :
  fading $1.5 (particleSystem g) ->
  fading $1.5 (particleSystem (triggerExplosion o g)).
Proof.
  intros F. unfold triggerExplosion, ParticleSystem.spawnExplosion. cbv zeta.
  cbn [particleSystem setter set_particleSystem set_rng set_player set_audio
       set_state].
  apply spawnLoop_fading, spawnLoop_fading, F.
Qed.

Lemma stepObstacle_fading (o : Obstacle.t) (g : Game.t) :
  fading $1.5 (particleSystem g) ->
  fading $1.5 (particleSystem (fst (stepObstacle o g))).
Proof.
  intros F. unfold stepObstacle. cbv zeta.
  pose proof (triggerExplosion_fading
                (Obstacle.setY (Obstacle.y o - scrollSpeed g) o) g F) as X.
  destruct (triggerCarouselEffect_frame
              (Obstacle.setY (Obstacle.y o - scrollSpeed g) o) g)
    as (_ & _ & _ & _ & _ & _ & C).
  repeat (cbn [fst snd]; break_test); cbn [fst snd];
    rewrite ?C; assumption.
Qed.

Lemma obstacleLoop_fading (l : list Obstacle.t) (g : Game.t) :
  fading $1.5 (particleSystem g) ->
  fading $1.5 (particleSystem (fst (obstacleLoop l g))).
Proof.
  intros F. induction l as [|o l IH]; cbn [obstacleLoop fst]; [exact F|].
  apply stepObstacle_fading, IH.
Qed.

Lemma update_fading (now : Qc) (g : Game.t) :
  fading $1.5 (particleSystem g) ->
  fading $1.5 (particleSystem (update now g)).
Proof.
  revert g now.
  assert (B : forall x, particleSystem x
                        = snd (fst (fst (bystanders x)))) by reflexivity.
  assert (Sf : forall x, particleSystem x
                         = snd (fst (fst (sideFields x))))
    by reflexivity.
  apply (update_invariant (fun g => fading $1.5 (particleSystem g)));
    try (intros g H; exact H).
  - intros g H. cbv beta.
    change (particleSystem (ticked g))
      with (ParticleSystem.sweep (particleSystem g)).
    apply sweep_fading in H. revert H. apply fading_weaken. qc_lra.
  - intros g H. cbv beta in *. rewrite B, accrue_bystanders, <- B. exact H.
  - intros g H. cbv beta in *. rewrite B, pooperRule_bystanders, <- B.
    exact H.
  - intros g H. cbv beta in *. rewrite B, updatePoopingJJ_bystanders, <- B.
    exact H.
  - intros g H. cbv beta in *. rewrite B, carouselRule_bystanders, <- B.
    exact H.
  - intros g H _. exact H.
  - intros g now H. cbv beta in *. rewrite steer_particleSystem. exact H.
  - intros g H. cbv beta in *. rewrite Sf, spawnObstacle_sideFields, <- Sf.
    exact H.
  - intros g H. cbv beta in *.
    change (particleSystem (resolveCollisions g))
      with (particleSystem (fst (obstacleLoop (obstacles g) g))).
    apply obstacleLoop_fading, H.
Qed.

Lemma reachable_fading (g : Game.t) :
  reachable g -> fading $1.5 (particleSystem g).
Proof.
  revert g.
  apply (reachable_invariant (fun g => fading $1.5 (particleSystem g)));
    try (intros; assumption).
  - constructor.
  - intros; constructor.
  - intros g now _ _. apply update_fading.
Qed.

(** X13: when [Math.random()] returns numbers in [0, 1), the death
    animation of a reachable game ends within 150 frames: every particle
    has at most 1.5 of life left and loses at least 0.01 a frame, and from
    state EXPLODING any 150 frames or more bring the state GAMEOVER. *)
Theorem death_animation_ends (g : Game.t) (nows : list Qc) :
  reachable g -> state g = EXPLODING -> (150 <= List.length nows)%nat ->
  fading $1.5 (particleSystem g) /\
  state (run (map frame nows) g) = GAMEOVER.
Proof.
  intros R St L. pose proof (reachable_fading g R) as F.
  split; [exact F|].
  destruct (List.length nows) as [|k] eqn:E; [lia|].
  apply (exploding_ends k); [exact St | | exact E].
  revert F. apply fading_weaken.
  assert (K : (150 <= S k)%nat) by lia. apply ofNat_le in K.
  assert (Z : ofNat 150 = $150) by (apply Qc_is_canon; reflexivity).
  rewrite Z in K. qc_lra.
Qed.

End Range.

(** ** Steering *)

Lemma Player_update_x (now : Qc) (p : Player.t) :
  Player.x (Player.update now p) = Player.x p /\
  Player.y (Player.update now p) = Player.y p.
Proof. unfold Player.update. cbv zeta. break_tests; split; reflexivity. Qed.

Lemma heading_cases (g : Game.t) :
  let left := ArrowLeft (keys g) || KeyA (keys g) in
  let right := ArrowRight (keys g) || KeyD (keys g) in
  heading g = (if carouselActive g then $(-1) else 1)
              * ((if right then 1 else 0) - (if left then 1 else 0)).
Proof.
  unfold heading. cbv zeta.
  destruct (ArrowLeft (keys g) || KeyA (keys g)),
    (ArrowRight (keys g) || KeyD (keys g)), (carouselActive g);
    apply Qc_is_canon; reflexivity.
Qed.

Lemma steer_x (now : Qc) (g : Game.t) :
  Player.x (player (steer now g))
  = Player.x (player g) + heading g * CONFIG.PLAYER_SPEED /\
  Player.y (player (steer now g)) = Player.y (player g).
Proof.
  assert (T : forall x, player (updateTrails x) = player x) by reflexivity.
  assert (M : forall d, d <> 0 ->
            Player.x (Player.update now (Player.move (d * CONFIG.PLAYER_SPEED)
                                           (player g)))
            = Player.x (player g) + d * CONFIG.PLAYER_SPEED /\
            Player.y (Player.update now (Player.move (d * CONFIG.PLAYER_SPEED)
                                           (player g)))
            = Player.y (player g)).
  { intros d _. destruct (Player_update_x now
                            (Player.move (d * CONFIG.PLAYER_SPEED) (player g)))
      as [-> ->]. split; reflexivity. }
  assert (Z : Player.x (Player.update now (player g))
              = Player.x (player g) + 0 * CONFIG.PLAYER_SPEED /\
              Player.y (Player.update now (player g)) = Player.y (player g)).
  { destruct (Player_update_x now (player g)) as [-> ->].
    split; [|reflexivity]. generalize (Player.x (player g)). intros x.
    unfold CONFIG.PLAYER_SPEED. qc_lra. }
  unfold steer, heading. cbv zeta. rewrite T.
  destruct (ArrowLeft (keys g) || KeyA (keys g)),
    (ArrowRight (keys g) || KeyD (keys g)), (carouselActive g);
    match goal with
    | |- context [negb (?a =? 0)] =>
        let b := eval vm_compute in (negb (a =? 0)) in
        change (negb (a =? 0)) with b
    end; cbv iota;
    cbn [player setter set_player set_trails];
    break_tests; cbn [player setter set_player set_trails];
    first [ exact Z
          | apply M; intros E; apply eqb_eq in E; vm_compute in E;
            discriminate E ].
Qed.

Lemma heading_bystanders (g g' : Game.t) :
  bystanders g' = bystanders g ->
  heading g' = heading g /\ player g' = player g.
Proof.
  unfold bystanders, heading. intros [= -> _ -> _ _ ->]. split; reflexivity.
Qed.

Lemma pose_position (p p' : Player.t) :
  pose p' = pose p -> Player.x p' = Player.x p /\ Player.y p' = Player.y p.
Proof. unfold pose. intros [= -> -> _ _ _ _ _ _ _]. split; reflexivity. Qed.

Lemma update_position (now : Qc) (g : Game.t) :
  state g = PLAYING ->
  distance g + scrollSpeed g * CONFIG.METER_SCALE < CONFIG.WIN_DISTANCE ->
  Player.x (player (update now g))
  = Player.x (player g) + heading g * CONFIG.PLAYER_SPEED /\
  Player.y (player (update now g)) = Player.y (player g).
Proof.
  intros P W.
  rewrite update_not_exploding by (rewrite P; discriminate).
  rewrite beforeWinCheck_distance.
  assert (F : (distance g + scrollSpeed g * CONFIG.METER_SCALE
               >=? CONFIG.WIN_DISTANCE) = false) by (qc_prop; exact W).
  rewrite F.
  assert (Pa : forall x, pose (player x) = snd (passive x)) by reflexivity.
  destruct (pose_position (player (beforeCollisions now g))
              (player (resolveCollisions (beforeCollisions now g))))
    as [-> ->].
  { rewrite !Pa, resolveCollisions_passive. reflexivity. }
  unfold beforeCollisions. rewrite spawnObstacle_player.
  destruct (steer_x now (beforeWinCheck g)) as [-> ->].
  destruct (heading_bystanders (ticked g) (beforeWinCheck g)) as [-> ->].
  { exact (proj1 (proj2 (proj2 (beforeWinCheck_views g)))). }
  split; reflexivity.
Qed.

(** X14: in a frame that starts in PLAYING and stays short of the win
    distance, the player moves sideways by [PLAYER_SPEED] times the
    heading, which is the right key minus the left key (1 when held, either
    binding), negated while the controls are reversed as they were at the
    start of the frame; opposite keys cancel, jumping does not prevent
    steering, and y stays. *)
Theorem frame_steering (now : Qc) (g : Game.t) :
  state g = PLAYING ->
  distance g + scrollSpeed g * CONFIG.METER_SCALE < CONFIG.WIN_DISTANCE ->
  let left := ArrowLeft (keys g) || KeyA (keys g) in
  let right := ArrowRight (keys g) || KeyD (keys g) in
  Player.x (player (update now g))
  = Player.x (player g) + heading g * CONFIG.PLAYER_SPEED /\
  Player.y (player (update now g)) = Player.y (player g) /\
  heading g = (if carouselActive g then $(-1) else 1)
              * ((if right then 1 else 0) - (if left then 1 else 0)).
Proof.
  intros P W left right.
  destruct (update_position now g P W) as [X Y].
  split; [exact X|]. split; [exact Y | apply heading_cases].
Qed.

(** ** The snow patches of the background *)

Section Snow.

Hypothesis random_range : forall n, 0 <= Math_random n /\ Math_random n < 1.

Lemma spawnPatch_inBand (y0 : Qc) (rng : nat) (ps : BackgroundManager.t) :
  $(-100) <= y0 -> y0 <= BackgroundManager.height + $100 ->
  Forall inBand ps ->
  Forall inBand (fst (BackgroundManager.spawnPatch y0 rng ps)) /\
  List.length (fst (BackgroundManager.spawnPatch y0 rng ps))
  = S (List.length ps).
Proof.
  intros L U F. unfold BackgroundManager.spawnPatch. cbv zeta. cbn [fst].
  split; [|rewrite length_app; cbn [List.length]; lia].
  apply Forall_app. split; [exact F|]. constructor; [|constructor].
  unfold inBand. cbn [BackgroundManager.x BackgroundManager.y].
  destruct (random_range (rng + 2)) as [A B].
  unfold BackgroundManager.width, CONFIG.GAME_WIDTH in *.
  split; [split; qc_lra | split; assumption].
Qed.

Lemma resetLoop_inBand (count rng : nat) (ps : BackgroundManager.t) :
  Forall inBand ps ->
  Forall inBand (fst (BackgroundManager.resetLoop count rng ps)) /\
  List.length (fst (BackgroundManager.resetLoop count rng ps))
  = (List.length ps + count)%nat.
Proof.
  revert rng ps. induction count as [|count IH]; intros rng ps F;
    cbn [BackgroundManager.resetLoop]; [split; [exact F | cbn; lia]|].
  cbv zeta. destruct (random_range rng) as [A B].
  destruct (spawnPatch_inBand (Math_random rng * BackgroundManager.height)
              (rng + 1) ps) as [F' L'].
  - unfold BackgroundManager.height, CONFIG.GAME_HEIGHT. qc_lra.
  - unfold BackgroundManager.height, CONFIG.GAME_HEIGHT. qc_lra.
  - exact F.
  - destruct (IH (snd (BackgroundManager.spawnPatch
                         (Math_random rng * BackgroundManager.height)
                         (rng + 1) ps)) _ F') as [F'' L''].
    split; [exact F''|]. rewrite L'', L'. lia.
Qed.

Lemma updateLoop_inBand (s : Qc) (ps : BackgroundManager.t) (rng : nat) :
  0 <= s -> Forall inBand ps ->
  let r := BackgroundManager.updateLoop s ps rng in
  Forall inBand (fst (fst r)) /\ Forall inBand (snd (fst r)) /\
  (List.length (fst (fst r)) + List.length (snd (fst r)))%nat
  = List.length ps.
Proof.
  intros S0 F. induction F as [|p ps Hp F IH];
    cbn [BackgroundManager.updateLoop]; [repeat split; constructor|].
  cbv zeta in IH.
  destruct (BackgroundManager.updateLoop s ps rng) as [[kept pushed] rng'].
  cbn [fst snd] in IH. destruct IH as (K & P & L).
  cbn [BackgroundManager.y BackgroundManager.x].
  destruct (BackgroundManager.y p - s <? $(-100)) eqn:T; cbn [fst snd].
  - destruct (spawnPatch_inBand (BackgroundManager.height + $100) rng' pushed)
      as [P' L'].
    + unfold BackgroundManager.height, CONFIG.GAME_HEIGHT. qc_lra.
    + apply Qcle_refl.
    + exact P.
    + split; [exact K|]. split; [exact P'|]. rewrite L'. cbn [List.length]. lia.
  - split; [|split; [exact P | cbn [List.length]; lia]].
    constructor; [|exact K]. destruct Hp as [X [Y1 Y2]].
    unfold inBand. cbn [BackgroundManager.y BackgroundManager.x].
    split; [exact X|]. split; qc_lra.
Qed.

Lemma update_inBand (s : Qc) (ps : BackgroundManager.t) (rng : nat) :
  0 <= s -> Forall inBand ps ->
  Forall inBand (fst (BackgroundManager.update s ps rng)) /\
  List.length (fst (BackgroundManager.update s ps rng)) = List.length ps.
Proof.
  intros S0 F. pose proof (updateLoop_inBand s ps rng S0 F) as H.
  cbv zeta in H. unfold BackgroundManager.update.
  destruct (BackgroundManager.updateLoop s ps rng) as [[kept pushed] rng'].
  cbn [fst snd] in *. destruct H as (K & P & L).
  split; [apply Forall_app; split; assumption|].
  rewrite length_app. exact L.
Qed.

(** X15: when [Math.random()] returns numbers in [0, 1), the background
    holds exactly eight snow patches after [reset()] and after every
    [update] with a scroll speed that is not negative, and every patch
    lies within the playfield horizontally and between y = -100 and
    y = GAME_HEIGHT + 100: a patch that scrolls out at the top is replaced
    by one at the bottom in the same call. *)
Theorem background_keeps_eight_patches (speeds : list Qc) (rng : nat) :
  Forall (fun s => 0 <= s) speeds ->
  List.length (fst (scrolled speeds rng)) = 8%nat /\
  Forall inBand (fst (scrolled speeds rng)).
Proof.
  intros S0. unfold scrolled.
  assert (R : Forall inBand (fst (BackgroundManager.reset rng)) /\
              List.length (fst (BackgroundManager.reset rng)) = 8%nat).
  { destruct (resetLoop_inBand 8 rng [] (Forall_nil _)) as [F L].
    split; assumption. }
  revert R. generalize (BackgroundManager.reset rng).
  induction S0 as [|s speeds Hs _ IH]; intros st [F L]; cbn [fold_left].
  - split; assumption.
  - apply IH. destruct (update_inBand s (fst st) (snd st) Hs F) as [F' L'].
    split; [exact F' | rewrite L'; exact L].
Qed.

End Snow.

(** ** The audio *)

Lemma accrue_audio (g : Game.t) :
  audio (accrue g) = audio g.
Proof. unfold accrue. frame. Qed.

Lemma updateSleddingJJ_audio (jj : JJ.t) (g : Game.t) :
  audio (updateSleddingJJ jj g) = audio g.
Proof. unfold updateSleddingJJ, spawnPoop. frame. Qed.

Lemma updateSquattingJJ_audio (jj : JJ.t) (g : Game.t) :
  audio (updateSquattingJJ jj g) = audio g.
Proof. unfold updateSquattingJJ, spawnPoop. frame. Qed.

Lemma carouselRule_audio (g : Game.t) :
  audio (carouselRule g) = audio g.
Proof. unfold carouselRule, spawnCarousel. frame. Qed.

Lemma steer_audio (now : Qc) (g : Game.t) :
  audio (steer now g) = audio g.
Proof. unfold steer, updateTrails. frame. Qed.

Lemma spawnJJBarrier_audio (g : Game.t) :
  audio (spawnJJBarrier g) = audio g.
Proof. unfold spawnJJBarrier. frame. Qed.

Lemma spawnTreeAt_audio (x y : Qc) (g : Game.t) :
  audio (spawnTreeAt x y g) = audio g.
Proof. unfold spawnTreeAt. frame. Qed.

Lemma spawnInternalObstacle_audio (g : Game.t) :
  audio (spawnInternalObstacle g) = audio g.
Proof. unfold spawnInternalObstacle. frame. Qed.

Lemma rerollTarget_audio (g : Game.t) :
  audio (rerollTarget g) = audio g.
Proof. unfold rerollTarget. frame. Qed.

Lemma moveCenter_audio (g : Game.t) :
  audio (moveCenter g) = audio g.
Proof. unfold moveCenter. frame. Qed.

Lemma adjustWidth_audio (g : Game.t) :
  audio (adjustWidth g) = audio g.
Proof. unfold adjustWidth. frame. Qed.

Lemma startSplit_audio (g : Game.t) :
  audio (startSplit g) = audio g.
Proof. unfold startSplit. frame. Qed.

Lemma widenForSplit_audio (g : Game.t) :
  audio (widenForSplit g) = audio g.
Proof. unfold widenForSplit. frame. Qed.

Lemma separate_audio (g : Game.t) :
  audio (separate g) = audio g.
Proof. unfold separate. frame. Qed.

Lemma contract_audio (g : Game.t) :
  audio (contract g) = audio g.
Proof. unfold contract. frame. Qed.

#[local] Hint Rewrite
  accrue_audio updateSleddingJJ_audio updateSquattingJJ_audio
  carouselRule_audio steer_audio spawnJJBarrier_audio spawnTreeAt_audio
  spawnInternalObstacle_audio rerollTarget_audio moveCenter_audio
  adjustWidth_audio startSplit_audio widenForSplit_audio separate_audio
  contract_audio
  : frames.

Lemma updatePoopingJJ_audio (g : Game.t) :
  audio (updatePoopingJJ g) = audio g.
Proof. unfold updatePoopingJJ. frames. Qed.

#[local] Hint Rewrite updatePoopingJJ_audio : frames.

Lemma updatePath_audio (g : Game.t) :
  audio (updatePath g) = audio g.
Proof. unfold updatePath. frames. Qed.

#[local] Hint Rewrite updatePath_audio : frames.

Lemma spawnWallTrees_audio (g : Game.t) :
  audio (spawnWallTrees g) = audio g.
Proof. unfold spawnWallTrees. frames. Qed.

#[local] Hint Rewrite spawnWallTrees_audio : frames.

Lemma spawnObstacle_audio (g : Game.t) :
  audio (spawnObstacle g) = audio g.
Proof. unfold spawnObstacle. frames. Qed.

#[local] Hint Rewrite spawnObstacle_audio : frames.

Lemma heard_snoc (log : list cue) (c : cue) :
  heard (log ++ [c]) = perform (heard log) c.
Proof. unfold heard. rewrite fold_left_app. reflexivity. Qed.

Lemma tuned_fields (g g' : Game.t) :
  audio g' = audio g -> state g' = state g -> tuned g -> tuned g'.
Proof. unfold tuned. intros -> ->. exact (fun H => H). Qed.

Lemma tuned_quiet (g g' : Game.t) (c : cue) :
  c = playGagi \/ c = playSpiegelei ->
  audio g' = audio g ++ [c] -> state g' = state g -> tuned g -> tuned g'.
Proof.
  unfold tuned. intros C -> ->. rewrite heard_snoc.
  destruct C as [-> | ->]; exact (fun H => H).
Qed.

Lemma tuned_stop (g g' : Game.t) :
  audio g' = audio g ++ [audioStop] -> state g' <> PLAYING -> tuned g'.
Proof.
  unfold tuned. intros -> St. rewrite heard_snoc. cbn [perform].
  split; [|discriminate]. cbn [AudioManager.stop AudioManager.isPlaying].
  destruct (state g'); congruence.
Qed.

Lemma tuned_start (g g' : Game.t) :
  audio g' = audio g ++ [audioStart] -> state g' = PLAYING -> tuned g'.
Proof.
  unfold tuned. intros -> ->. rewrite heard_snoc. cbn [perform].
  unfold AudioManager.start, AudioManager.init.
  destruct (heard (audio g)) as [[|] [|]]; split; reflexivity.
Qed.

Lemma spawnPoopingJJ_tuned (forced : option JJ.kind) (g : Game.t) :
  tuned g -> tuned (spawnPoopingJJ forced g).
Proof.
  intros H. unfold spawnPoopingJJ. destruct (poopingJJ g); [exact H|].
  refine (tuned_quiet g _ playGagi _ _ _ H); [auto | |];
    cbv zeta; break_tests; reflexivity.
Qed.

Lemma pooperRule_tuned (g : Game.t) : tuned g -> tuned (pooperRule g).
Proof.
  intros H. unfold pooperRule. cbv zeta.
  assert (E : forall x v, tuned (x <| lastPoopJJSpawn := v |>) = tuned x)
    by reflexivity.
  assert (E' : forall x v, tuned (x <| hasSpawnedFirstPooper := v |>)
                           = tuned x) by reflexivity.
  break_tests; rewrite ?E, ?E'; try exact H; apply spawnPoopingJJ_tuned, H.
Qed.

Lemma stepObstacle_tuned (o : Obstacle.t) (g : Game.t) :
  tuned g -> tuned (fst (stepObstacle o g)).
Proof.
  intros H. unfold stepObstacle, triggerCarouselEffect. cbv zeta.
  set (obs := Obstacle.setY (Obstacle.y o - scrollSpeed g) o).
  assert (X : tuned (triggerExplosion obs g)).
  { apply (tuned_stop g); [reflexivity | discriminate]. }
  assert (Y : forall b, tuned (g <| audio := audio g ++ [playSpiegelei] |>
                                 <| carouselActive := b |>)).
  { intros b. refine (tuned_quiet g _ playSpiegelei _ _ _ H); auto. }
  repeat (cbn [fst snd]; break_test); cbn [fst snd];
    first [exact H | exact X | apply Y].
Qed.

Lemma obstacleLoop_tuned (l : list Obstacle.t) (g : Game.t) :
  tuned g -> tuned (fst (obstacleLoop l g)).
Proof.
  intros H. induction l as [|o l IH]; cbn [obstacleLoop fst]; [exact H|].
  apply stepObstacle_tuned, IH.
Qed.

Lemma update_tuned (now : Qc) (g : Game.t) : tuned g -> tuned (update now g).
Proof.
  revert g now. apply update_invariant;
    try (intros; match goal with H : tuned _ |- _ =>
                   refine (tuned_fields _ _ _ _ H);
                   autorewrite with frames; reflexivity end).
  - intros g _. apply (tuned_stop g); [reflexivity | discriminate].
  - exact pooperRule_tuned.
  - intros g _ _. apply (tuned_stop g); [reflexivity | discriminate].
  - intros g H.
    assert (E : forall x v, tuned (x <| obstacles := v |>) = tuned x)
      by reflexivity.
    unfold resolveCollisions. cbv zeta. rewrite E.
    apply obstacleLoop_tuned, H.
Qed.

Lemma reachable_tuned (g : Game.t) : reachable g -> tuned g.
Proof.
  revert g. apply reachable_invariant;
    try (intros; match goal with H : tuned _ |- _ =>
                   refine (tuned_fields _ _ _ _ H); reflexivity end).
  - split; [reflexivity | discriminate].
  - intros g _ _. apply (tuned_start (g <| state := PLAYING |>));
      reflexivity.
  - intros g _. apply (tuned_start g); reflexivity.
  - intros g now _ _. apply update_tuned.
Qed.

(** X16: in every reachable game the audio manager is playing exactly when
    the state is PLAYING, and it is then initialized, so that the guard of
    [playGagi], [playSpiegelei] and [updateSkiSound] on these flags lets
    the call through; at the scroll speeds of the reachable games the
    volume of the ski sound is the speed divided by 10, between 0.35 and
    0.8001, and neither bound of the clamp to [0.2, 1] applies. *)
Theorem ski_sound_follows_state (g : Game.t) (jumping : bool) :
  reachable g ->
  (AudioManager.isPlaying (heard (audio g)) = true <-> state g = PLAYING) /\
  (state g = PLAYING ->
   AudioManager.plays true (heard (audio g)) = true /\
   AudioManager.updateSkiSound (scrollSpeed g) jumping (heard (audio g))
   = Some (if jumping then 0 else scrollSpeed g / $10)) /\
  $0.35 <= scrollSpeed g / $10 /\ scrollSpeed g / $10 <= $0.8001.
Proof.
  intros R. destruct (reachable_tuned g R) as [T1 T2].
  destruct (reachable_cruising g R) as (C1 & C2 & _).
  split; [|split].
  - rewrite T1. destruct (state g); split; congruence.
  - intros P. rewrite P in T1. specialize (T2 T1).
    unfold AudioManager.plays, AudioManager.updateSkiSound.
    rewrite T1, T2. cbn [negb orb]. split; [reflexivity|].
    destruct jumping; [reflexivity|]. f_equal.
    unfold Math_min, Math_max.
    assert (A : ($0.2 <? scrollSpeed g / $10) = true) by qc_lra.
    rewrite A.
    assert (B : (scrollSpeed g / $10 <? 1) = true) by qc_lra.
    rewrite B. reflexivity.
  - split; qc_lra.
Qed.

(** ** Restart, and the states in which nothing runs *)

Lemma restart_keeps (g : Game.t) :
  pathTarget g = None -> maxSplitDistance g = $250 ->
  restart g
  = (startGame Game.new) <| keys := keys g |> <| cameraX := cameraX g |>
      <| splitTimer := splitTimer g |> <| audio := audio g ++ [audioStart] |>
      <| rng := rng g |>.
Proof.
  destruct g. cbn [pathTarget maxSplitDistance]. intros -> ->. reflexivity.
Qed.

(** X17: [restart()] on a reachable game gives the game of a first start,
    except that the held keys, the camera position, the split timer, the
    audio calls made so far and the cursor of the random numbers are
    carried over. *)
Theorem restart_is_fresh_start (g : Game.t) :
  reachable g ->
  restart g
  = (startGame Game.new) <| keys := keys g |> <| cameraX := cameraX g |>
      <| splitTimer := splitTimer g |> <| audio := audio g ++ [audioStart] |>
      <| rng := rng g |>.
Proof.
  intros R. destruct (reachable_shaped g R) as (A & B & _).
  apply restart_keeps; assumption.
Qed.

Lemma update_hiddenWhenDead (now : Qc) (g : Game.t) :
  state g = PLAYING \/ state g = EXPLODING ->
  hiddenWhenDead g -> hiddenWhenDead (update now g).
Proof.
  intros [P|E] H.
  - rewrite update_not_exploding by (rewrite P; discriminate).
    case_if W; [intros [X|X]; discriminate X|].
    destruct (resolveCollisions_outcome (beforeCollisions now g)) as [S O].
    cbv zeta in S, O. unfold hiddenWhenDead. rewrite S, O.
    case_if Hit; [reflexivity|].
    unfold beforeCollisions. rewrite spawnObstacle_state, steer_state.
    rewrite (proj1 (proj2 (beforeWinCheck_views g))), P.
    intros [X|X]; discriminate X.
  - rewrite (update_exploding now g E).
    specialize (H (or_introl E)).
    destruct (snd (ParticleSystem.update (particleSystem g)));
      intros _; exact H.
Qed.

Lemma reachable_hiddenWhenDead (g : Game.t) : reachable g -> hiddenWhenDead g.
Proof.
  revert g. apply reachable_invariant.
  - intros [X|X]; discriminate X.
  - intros g _ _ [X|X]; discriminate X.
  - intros g _ [X|X]; discriminate X.
  - intros g k H. exact H.
  - intros g now H. unfold hiddenWhenDead.
    cbn [state player setter set_player]. intros X. specialize (H X).
    unfold Player.jump. case_if J; exact H.
  - intros g now _. apply update_hiddenWhenDead.
Qed.

(** X18: in a reachable game that is exploding or over the player is
    hidden: its opacity is 0 from the collision until [restart()]. *)
Theorem dead_player_hidden (g : Game.t) :
  reachable g -> state g = EXPLODING \/ state g = GAMEOVER ->
  Player.opacity (player g) = 0.
Proof. intros R. exact (reachable_hiddenWhenDead g R). Qed.

Lemma idle_step (e : event) (g : Game.t) :
  state g = MENU \/ state g = GAMEOVER \/ state g = VICTORY -> quiet e ->
  handle e g = g <| keys := keys (handle e g) |>.
Proof.
  intros S Q. destruct e as [code now | code | now | |];
    try contradiction; cbn [handle].
  - cbv zeta. destruct (isJumpKey code); [|reflexivity].
    change (state (g <| keys := setKey code true (keys g) |>)) with (state g).
    destruct S as [S | [S | S]]; rewrite S; reflexivity.
  - reflexivity.
  - unfold gameLoop. destruct S as [S | [S | S]]; rewrite S;
      destruct g; reflexivity.
Qed.

(** X19: on the start screen, after a game over and after a victory,
    frames and key events change nothing but the record of the held keys:
    no frame runs and a jump key does not start a jump, until the start or
    restart button is clicked. *)
Theorem idle_states_frozen (es : list event) (g : Game.t) :
  state g = MENU \/ state g = GAMEOVER \/ state g = VICTORY ->
  Forall quiet es ->
  run es g = g <| keys := keys (run es g) |>.
Proof.
  intros S Q. revert g S. induction Q as [|e es Qe _ IH]; intros g S.
  - destruct g; reflexivity.
  - change (run (e :: es) g) with (run es (handle e g)).
    pose proof (idle_step e g S Qe) as E.
    set (h := handle e g) in *.
    assert (S' : state h = MENU \/ state h = GAMEOVER \/ state h = VICTORY)
      by (rewrite E; exact S).
    specialize (IH h S'). set (k := keys (run es h)) in *.
    rewrite IH, E. destruct g; reflexivity.
Qed.

(** ** The animation of the barrier *)

Lemma barrier_step (s : Qc) (o : Obstacle.t) (n : nat) :
  Obstacle.type o = Obstacle.jj_barrier ->
  (Obstacle.barrierState o, Obstacle.animTimer o) = barrierPhase n ->
  let o' := Obstacle.updateAnimation (Obstacle.setY (Obstacle.y o - s) o) in
  Obstacle.type o' = Obstacle.jj_barrier /\
  (Obstacle.barrierState o', Obstacle.animTimer o') = barrierPhase (S n).
Proof.
  intros T P. cbv zeta. unfold Obstacle.updateAnimation.
  cbn [Obstacle.setY Obstacle.type Obstacle.barrierState Obstacle.animTimer
       Obstacle.y].
  rewrite T. unfold barrierPhase in *.
  destruct (n <=? 40)%nat eqn:A; [|destruct (n <=? 51)%nat eqn:B];
    injection P as St Ht; rewrite St;
    cbn [Obstacle.setY Obstacle.animTimer]; rewrite ?Ht;
    repeat match goal with
           | |- context [if ?c then _ else _] => destruct c eqn:?
           end;
    cbn [Obstacle.setAnimation Obstacle.type Obstacle.barrierState
         Obstacle.animTimer Obstacle.setY]; rewrite ?St, ?Ht;
    repeat match goal with
           | H : (_ <=? _)%nat = true |- _ => apply Nat.leb_le in H
           | H : (_ <=? _)%nat = false |- _ => apply Nat.leb_gt in H
           end;
    (split; [exact T|]); try (exfalso; lia); f_equal; lia.
Qed.

Lemma scrollBy_snoc (speeds : list Qc) (s : Qc) (o : Obstacle.t) :
  scrollBy (speeds ++ [s]) o
  = Obstacle.updateAnimation
      (Obstacle.setY (Obstacle.y (scrollBy speeds o) - s) (scrollBy speeds o)).
Proof. unfold scrollBy. rewrite fold_left_app. reflexivity. Qed.

(** X20: once the kid of a JJ barrier has started to jump, the barrier
    goes through its animation on a fixed schedule whatever the scroll
    speeds: it is in state [jump] for 40 more frames, in state [crack] for
    the next 11, and in state [done] with its timer at 11 from the 52nd
    frame on. *)
Theorem barrier_schedule (speeds : list Qc) (o : Obstacle.t) :
  Obstacle.type o = Obstacle.jj_barrier ->
  Obstacle.barrierState o = Obstacle.jump -> Obstacle.animTimer o = 0%nat ->
  Obstacle.type (scrollBy speeds o) = Obstacle.jj_barrier /\
  (Obstacle.barrierState (scrollBy speeds o),
   Obstacle.animTimer (scrollBy speeds o))
  = barrierPhase (List.length speeds).
Proof.
  intros T B A. induction speeds as [|s speeds IH] using rev_ind.
  - split; [exact T|]. cbn. rewrite B, A. reflexivity.
  - destruct IH as [T' P]. rewrite scrollBy_snoc, length_app.
    cbn [List.length]. rewrite Nat.add_1_r.
    exact (barrier_step s _ _ T' P).
Qed.

(** ** The reversal of the controls *)

Lemma unreversed_fields (g g' : Game.t) :
  marks g' = marks g -> carouselActive g' = carouselActive g ->
  obstacles g' = obstacles g -> unreversed g -> unreversed g'.
Proof.
  unfold marks, unreversed. intros [= _ -> _] -> ->. exact (fun H => H).
Qed.

Lemma marks_first_carousel (g g' : Game.t) :
  marks g' = marks g -> hasSpawnedCarousel1 g' = hasSpawnedCarousel1 g.
Proof. unfold marks. intros [= _ M _]. exact M. Qed.

Lemma steer_carouselActive (now : Qc) (g : Game.t) :
  carouselActive (steer now g) = carouselActive g.
Proof.
  unfold steer, updateTrails. cbv zeta.
  repeat match goal with
         | |- context [if ?c then _ else _] => destruct c eqn:?
         end;
    cbn [carouselActive setter set_player set_trails];
    assumption || reflexivity.
Qed.

Lemma updatePoopingJJ_poops (g : Game.t) :
  exists l, obstacles (updatePoopingJJ g) = obstacles g ++ l /\
            Forall (fun o => Obstacle.type o = Obstacle.poop) l.
Proof.
  unfold updatePoopingJJ, updateSleddingJJ, updateSquattingJJ, spawnPoop.
  cbv zeta. break_tests;
    first [ exists []; split; [symmetry; apply app_nil_r | constructor]
          | eexists; split; [reflexivity|];
            apply Forall_cons; [reflexivity | constructor] ].
Qed.

Lemma spawnObstacle_no_carousel (g : Game.t) :
  exists l, obstacles (spawnObstacle g) = obstacles g ++ l /\
            Forall (fun o => Obstacle.type o <> Obstacle.carousel) l.
Proof.
  destruct (spawnObstacle_appended g) as (l & E & L). exists l.
  split; [exact E|]. revert L. apply Forall_impl.
  intros o [(x & y & [-> | [-> | [-> | ->]]]) | (x & y & k & -> & _)];
    discriminate.
Qed.

Lemma stepObstacle_unreversed (o : Obstacle.t) (g : Game.t) :
  Obstacle.type o <> Obstacle.carousel ->
  carouselActive (fst (stepObstacle o g)) = carouselActive g.
Proof.
  intros T. unfold stepObstacle. cbv zeta.
  change (Obstacle.type (Obstacle.setY (Obstacle.y o - scrollSpeed g) o))
    with (Obstacle.type o).
  pose proof (triggerExplosion_carouselActive
                (Obstacle.setY (Obstacle.y o - scrollSpeed g) o) g) as X.
  destruct (Obstacle.type o); try congruence;
    repeat (cbn [fst snd]; break_test); cbn [fst snd];
    first [reflexivity | exact X].
Qed.

Lemma obstacleLoop_unreversed (l : list Obstacle.t) (g : Game.t) :
  Forall (fun o => Obstacle.type o <> Obstacle.carousel) l ->
  carouselActive (fst (obstacleLoop l g)) = carouselActive g /\
  Forall (fun o => Obstacle.type o <> Obstacle.carousel)
         (snd (obstacleLoop l g)).
Proof.
  induction 1 as [|o l To _ [IH1 IH2]]; cbn [obstacleLoop fst snd];
    [split; [reflexivity | constructor]|].
  rewrite (stepObstacle_unreversed o _ To). split; [exact IH1|].
  pose proof (stepObstacle_fate o (fst (obstacleLoop l g))) as F.
  destruct (snd (stepObstacle o (fst (obstacleLoop l g)))) as [o'|];
    [|exact IH2].
  constructor; [|exact IH2]. destruct F as (_ & -> & _). exact To.
Qed.

Lemma update_unreversed (now : Qc) (g : Game.t) :
  unreversed g -> unreversed (update now g).
Proof.
  revert g now.
  assert (B : forall x, carouselActive x
                        = snd (fst (fst (fst (bystanders x)))))
    by reflexivity.
  assert (Sf : forall x, carouselActive x = snd (sideFields x))
    by reflexivity.
  assert (Sm : forall x, marks x = snd (fst (sideFields x))) by reflexivity.
  assert (Pm : forall x, marks x = snd (fst (passive x))) by reflexivity.
  apply update_invariant; try (intros g H; exact H).
  - intros g. apply unreversed_fields;
      [apply accrue_marks | rewrite !B, accrue_bystanders; reflexivity
       | apply accrue_obstacles].
  - intros g. apply unreversed_fields;
      [apply pooperRule_marks
      | rewrite !B, pooperRule_bystanders; reflexivity
      | apply pooperRule_obstacles].
  - intros g H F. unfold unreversed in *.
    assert (M : marks (updatePoopingJJ g) = marks g)
      by apply updatePoopingJJ_marks.
    apply marks_first_carousel in M. rewrite M in F.
    destruct (H F) as [A O].
    rewrite B, updatePoopingJJ_bystanders, <- B.
    split; [exact A|].
    destruct (updatePoopingJJ_poops g) as (l & -> & L).
    apply Forall_app. split; [exact O|].
    revert L. apply Forall_impl. intros o ->. discriminate.
  - intros g H F. pose proof (proj1 (carouselRule_flags g)) as K.
    rewrite F in K. symmetry in K. apply orb_false_elim in K.
    destruct K as [K1 K2].
    assert (E : carouselRule g = g).
    { unfold carouselRule. rewrite K1, K2. cbn [negb andb].
      assert (N : ($1250 <? distance g) = false) by qc_lra.
      rewrite N, andb_false_r. reflexivity. }
    rewrite E. apply H. exact K1.
  - intros g H _. exact H.
  - intros g now. apply unreversed_fields;
      [apply steer_marks | apply steer_carouselActive | apply steer_obstacles].
  - intros g H F. unfold unreversed in *.
    assert (M : marks (spawnObstacle g) = marks g)
      by (rewrite !Sm, spawnObstacle_sideFields; reflexivity).
    apply marks_first_carousel in M. rewrite M in F.
    destruct (H F) as [A O].
    rewrite Sf, spawnObstacle_sideFields, <- Sf. split; [exact A|].
    destruct (spawnObstacle_no_carousel g) as (l & -> & L).
    apply Forall_app. split; assumption.
  - intros g H F. unfold unreversed in *.
    assert (M : marks (resolveCollisions g) = marks g)
      by (rewrite !Pm, resolveCollisions_passive; reflexivity).
    apply marks_first_carousel in M. rewrite M in F.
    destruct (H F) as [A O].
    destruct (obstacleLoop_unreversed (obstacles g) g O) as [L1 L2].
    split; [|exact L2].
    change (carouselActive (resolveCollisions g))
      with (carouselActive (fst (obstacleLoop (obstacles g) g))).
    rewrite L1. exact A.
Qed.

Lemma reachable_unreversed (g : Game.t) : reachable g -> unreversed g.
Proof.
  revert g. apply reachable_invariant; try (intros; assumption).
  - intros _. split; [reflexivity | constructor].
  - intros g _ _ _. split; [reflexivity | constructor].
  - intros g now _ _. apply update_unreversed.
Qed.

(** X21: the controls of a reachable game are reversed only beyond 750 m,
    and up to 750 m there is no carousel among the obstacles: the
    reversal needs a carousel, and the first one is spawned in the frame
    in which the distance first exceeds 750. *)
Theorem reversal_only_beyond_750 (g : Game.t) :
  reachable g ->
  (carouselActive g = true -> $750 < distance g) /\
  (distance g <= $750 ->
   forall o, In o (obstacles g) -> Obstacle.type o <> Obstacle.carousel).
Proof.
  intros R. pose proof (reachable_unreversed g R) as U.
  destruct (reachable_flagged g R) as (_ & F1 & _).
  unfold unreversed in U. rewrite F1 in U. split.
  - intros A. destruct (distance g >? $750) eqn:D; [qc_prop; exact D|].
    destruct (U eq_refl) as [C _]. congruence.
  - intros D. assert (N : (distance g >? $750) = false) by qc_lra.
    destruct (U N) as [_ O]. rewrite Forall_forall in O. exact O.
Qed.

End Properties.

(** ** Concrete games *)

(** The frame of [crashGame] ends in an explosion; the same frame at the win
    distance ends in victory, the rock unmoved. *)
Example crash_or_win :
  state (@update samplePlatform 0 crashGame) = EXPLODING /\
  state (@update samplePlatform 0 winningCrashGame) = VICTORY /\
  firstn 1 (obstacles (@update samplePlatform 0 winningCrashGame))
  = obstacles winningCrashGame.
Proof. vm_compute. repeat split. Qed.

Lemma win_check_precedes_collisions_witness :
  state (@update samplePlatform 0 winningCrashGame) = VICTORY /\
  player (@update samplePlatform 0 winningCrashGame) = player winningCrashGame.
Proof.
  destruct (@win_check_precedes_collisions samplePlatform 0 winningCrashGame)
    as (_ & V & P & _).
  - reflexivity.
  - apply leb_le. vm_compute. reflexivity.
  - split; assumption.
Defined.

Lemma fatal_collision_explodes_witness :
  state (@update samplePlatform 0 crashGame) = EXPLODING /\
  distance (@run samplePlatform [frame 1; keydown "Space" $2; frame $3]
              (@update samplePlatform 0 crashGame))
  = distance (@update samplePlatform 0 crashGame).
Proof.
  destruct (@fatal_collision_explodes samplePlatform 0 crashGame
              (Obstacle.new $512 $165 Obstacle.rock)
              [frame 1; keydown "Space" $2; frame $3])
    as (_ & E & _ & D & _).
  - reflexivity.
  - apply ltb_lt. vm_compute. reflexivity.
  - vm_compute. left. reflexivity.
  - discriminate.
  - vm_compute. reflexivity.
  - vm_compute. reflexivity.
  - repeat constructor.
  - split; assumption.
Defined.

Lemma exploding_resolves_when_particles_gone_witness :
  state (@update samplePlatform 1 (@update samplePlatform 0 crashGame))
  = if snd (ParticleSystem.update
              (particleSystem (@update samplePlatform 0 crashGame)))
    then EXPLODING else GAMEOVER.
Proof.
  assert (E : state (@update samplePlatform 0 crashGame) = EXPLODING)
    by (vm_compute; reflexivity).
  exact (proj1 (@exploding_resolves_when_particles_gone samplePlatform 1 []
                  (@update samplePlatform 0 crashGame) E)).
Defined.

Lemma jump_immunity_witness :
  Player.isJumping
    (@Player.update samplePlatform $800 (Player.jump 0 createPlayer)) = false.
Proof.
  pose proof (@jump_immunity samplePlatform $800
                (crashGame <| player := Player.jump 0 createPlayer |>)
                midCarousel) as H.
  cbv zeta in H. destruct H as (_ & _ & _ & _ & H & _).
  change (player (crashGame <| player := Player.jump 0 createPlayer |>))
    with (Player.jump 0 createPlayer) in H.
  assert (J : Player.isJumping (Player.jump 0 createPlayer) = true)
    by reflexivity.
  specialize (H J). destruct H as (H & _). apply H.
  apply leb_le. vm_compute. reflexivity.
Defined.

Lemma carousel_effect_once_witness :
  @lifetimeDispatches samplePlatform [crashGame; crashGame; crashGame]
    midCarousel = 1%nat.
Proof.
  pose proof (proj1 (@carousel_effect_once samplePlatform
                       [crashGame; crashGame; crashGame] crashGame midCarousel
                       1%nat eq_refl)) as H.
  rewrite H. vm_compute. reflexivity.
Defined.

Lemma jumping_reachable (n : nat) : reachable (env := samplePlatform) (jumping n).
Proof. exists (clickStart :: holdSpace $5 n 0). reflexivity. Qed.

Lemma pair_fields {A B : Type} (a c : A) (b d : B) :
  (a, b) = (c, d) -> a = c /\ b = d.
Proof. intros [= -> ->]. split; reflexivity. Qed.

Lemma this_eq (x c : Qc) (q : Q) : this x = q -> (q == this c)%Q -> x = c.
Proof. intros H E. apply Qc_is_canon. rewrite H. exact E. Qed.

(** Taking the last component off an equation between tuples. *)
Ltac peel E H := apply pair_fields in E; destruct E as [E H].

(** The session that holds the space bar goes through a fork.  After 750
    frames no split is under way and [updatePath] is about to start one;
    after 1500 frames the fork is closing, the lanes 126 apart and the path
    at its full width of 750. *)
Lemma forkStart_fields :
  isSplitting (jumping 750) = false /\
  isSplitting (@updatePath samplePlatform (jumping 750)) = true.
Proof.
  assert (E : @forkFields samplePlatform (jumping 750)
              = (false, true, false, 0%Q, 450%Q, 450%Q, (23247 # 80)%Q, 45%nat))
    by (vm_compute; reflexivity).
  unfold forkFields in E.
  peel E L. peel E D. peel E T. peel E W. peel E Sd. peel E C. peel E U.
  split; [exact E | exact U].
Qed.

Lemma forkClosing_fields :
  isSplitting (jumping 1500) = false /\
  contracting (jumping 1500) = true /\
  splitDistance (jumping 1500) = $126 /\
  pathWidth (jumping 1500) = $750 /\
  targetPathWidth (jumping 1500) = $750 /\
  distance (jumping 1500) = $637.425 /\
  List.length (obstacles (jumping 1500)) = 37%nat.
Proof.
  assert (E : @forkFields samplePlatform (jumping 1500)
              = (false, false, true, 126%Q, 750%Q, 750%Q, (25497 # 40)%Q, 37%nat))
    by (vm_compute; reflexivity).
  unfold forkFields in E.
  peel E L. peel E D. peel E T. peel E W. peel E Sd. peel E C. peel E U.
  split; [exact E|]. split; [exact C|].
  split; [apply (this_eq _ _ _ Sd); reflexivity|].
  split; [apply (this_eq _ _ _ W); reflexivity|].
  split; [apply (this_eq _ _ _ T); reflexivity|].
  split; [apply (this_eq _ _ _ D); reflexivity | exact L].
Qed.

(** C7 on that session: the split that [updatePath] starts after 750 frames
    starts from a fork distance of 0, and on the closing fork after 1500
    frames, where the fork distance is positive, [updatePath] starts no
    split. *)
Lemma fork_invariant_witness :
  (isSplitting (jumping 750) = false /\
   isSplitting (@updatePath samplePlatform (jumping 750)) = true /\
   splitDistance (jumping 750) = 0) /\
  (isSplitting (jumping 1500) = false /\
   splitDistance (jumping 1500) = $126 /\
   isSplitting (@updatePath samplePlatform (jumping 1500)) = false).
Proof.
  destruct forkStart_fields as (I & T).
  destruct forkClosing_fields as (I' & _ & D' & _).
  destruct (@fork_invariant samplePlatform (jumping 750) (jumping_reachable 750))
    as (_ & _ & S & _).
  destruct (@fork_invariant samplePlatform (jumping 1500)
              (jumping_reachable 1500)) as (_ & _ & _ & N).
  split.
  - split; [exact I|]. split; [exact T | exact (S I T)].
  - split; [exact I'|]. split; [exact D'|]. apply (N I').
    rewrite D'. apply ltb_lt. reflexivity.
Defined.

(** The spawn log of a session that has not reached 250 m is empty; the
    session of 1600 frames has two spawns, at 250.2531 m and 650.4575 m. *)
Example spawnLog_runs :
  @spawnLog samplePlatform (clickStart :: holdSpace $5 40 0) Game.new [] = [] /\
  map (fun s => (this (fst s), snd s))
      (@spawnLog samplePlatform (clickStart :: holdSpace $5 1600 0) Game.new [])
  = [((260183 # 400)%Q, JJ.squat); ((2502531 # 10000)%Q, JJ.squat)].
Proof. split; vm_compute; reflexivity. Qed.

(** The fork of the session that holds the space bar: after 1300 frames the
    split is under way with the lanes 75 apart, after 1500 frames the fork
    is closing with the lanes 126 apart. *)
Example fork_cycle :
  let g := jumping 1300 in
  let g' := jumping 1500 in
  (isSplitting g, contracting g, this (splitDistance g)) = (true, false, 75%Q) /\
  (isSplitting g', contracting g', splitDistance g') = (false, true, $126).
Proof.
  intros g g'. split.
  - assert (E : @forkFields samplePlatform g
                = (true, true, false, 75%Q, (1449 # 2)%Q, 750%Q,
                   (107887 # 200)%Q, 38%nat))
      by (vm_compute; reflexivity).
    unfold forkFields in E. subst g.
    peel E L. peel E D. peel E T. peel E W. peel E Sd. peel E C. peel E U.
    rewrite E, C, Sd. reflexivity.
  - destruct forkClosing_fields as (I & C & D & _). subst g'.
    rewrite I, C, D. reflexivity.
Qed.

Lemma longJumpSession_reachable : reachable (env := samplePlatform) longJumpSession.
Proof. exists longJumpEvents. unfold longJumpSession. reflexivity. Qed.

Lemma probe_fields (g : Game.t) (s : status) (n : nat) (t : option Qc) (c : Q) :
  (state g, Game.frameCount g, pathTarget g, this (pathCenter g)) = (s, n, t, c) ->
  state g = s /\ Game.frameCount g = n /\ pathTarget g = t /\
  this (pathCenter g) = c.
Proof. intros [= A B C D]. auto. Qed.

(** C2 fails on the code.  After [longJumpSession] the game is still
    PLAYING (the player has never touched an obstacle), the target of the
    path is still undefined, and the centre of the path is at -16.03, left
    of the playfield [0, 1024]. *)
Theorem pathCenter_leaves_playfield :
  reachable (env := samplePlatform) longJumpSession /\
  state longJumpSession = PLAYING /\
  Game.frameCount longJumpSession = 600%nat /\
  pathTarget longJumpSession = None /\
  pathCenter longJumpSession = $(-16.03) /\
  ~ (0 <= pathCenter longJumpSession /\
     pathCenter longJumpSession <= CONFIG.GAME_WIDTH).
Proof.
  destruct (probe_fields longJumpSession PLAYING 600%nat None (-1603 # 100)%Q)
    as (E1 & E2 & E3 & E4); [vm_compute; reflexivity|].
  assert (C : pathCenter longJumpSession = $(-16.03)).
  { apply Qc_is_canon. rewrite E4. vm_compute. reflexivity. }
  split; [exact longJumpSession_reachable|].
  repeat (split; [assumption|]).
  rewrite C. intros [H _]. apply leb_le in H. vm_compute in H. discriminate.
Qed.

(** ** Sessions for the further properties *)

Lemma shortSession_reachable : reachable (env := samplePlatform) shortSession.
Proof. exists shortEvents. unfold shortSession. reflexivity. Qed.

Lemma crashSession_reachable : reachable (env := samplePlatform) crashSession.
Proof. exists crashEvents. unfold crashSession. reflexivity. Qed.

Lemma carouselSession_reachable :
  reachable (env := samplePlatform) carouselSession.
Proof. exists carouselEvents. unfold carouselSession. reflexivity. Qed.

(** After [carouselSession] the game is still PLAYING, at 813.722 m, with
    the controls reversed and the player on the ground at x = -576. *)
Lemma carouselSession_fields :
  state carouselSession = PLAYING /\
  carouselActive carouselSession = true /\
  distance carouselSession = $813.722 /\
  Player.x (player carouselSession) = $(-576) /\
  Player.isJumping (player carouselSession) = false.
Proof.
  assert (E : sessionFields carouselSession
              = (PLAYING, true, (406861 # 500)%Q, (-576)%Q, false))
    by (vm_compute; reflexivity).
  unfold sessionFields in E.
  peel E J. peel E X. peel E D. peel E A.
  split; [exact E|]. split; [exact A|].
  split; [apply (this_eq _ _ _ D); reflexivity|].
  split; [apply (this_eq _ _ _ X); reflexivity | exact J].
Qed.

Lemma crashSession_exploding : state crashSession = EXPLODING.
Proof. vm_compute. reflexivity. Qed.

Lemma speed_and_distance_bounds_witness :
  CONFIG.INITIAL_SCROLL_SPEED <= scrollSpeed shortSession /\
  scrollSpeed shortSession <= CONFIG.MAX_SPEED + $0.001 /\
  0 <= distance shortSession.
Proof.
  exact (@speed_and_distance_bounds samplePlatform shortSession
           shortSession_reachable).
Defined.

Lemma victory_needs_3729_frames_witness :
  distance shortSession <= farthest (Game.frameCount shortSession) /\
  (state shortSession = VICTORY ->
   CONFIG.WIN_DISTANCE <= distance shortSession /\
   (3729 <= Game.frameCount shortSession)%nat).
Proof.
  exact (@victory_needs_3729_frames samplePlatform shortSession
           shortSession_reachable).
Defined.

(** After [carouselSession], at 813.722 m, the first antagonist and the
    first carousel have been spawned and the second carousel has not; after
    [shortSession], at 1.0503 m, no flag is set and the slot of the
    antagonist is empty. *)
Lemma spawn_flags_follow_distance_witness :
  (distance carouselSession = $813.722 /\
   hasSpawnedFirstPooper carouselSession = true /\
   hasSpawnedCarousel1 carouselSession = true /\
   hasSpawnedCarousel2 carouselSession = false) /\
  (distance shortSession = $1.0503 /\
   hasSpawnedFirstPooper shortSession = false /\
   hasSpawnedCarousel1 shortSession = false /\
   poopingJJ shortSession = None).
Proof.
  destruct carouselSession_fields as (_ & _ & D & _).
  assert (D' : distance shortSession = $1.0503)
    by (apply Qc_is_canon; vm_compute; reflexivity).
  destruct (@spawn_flags_follow_distance samplePlatform carouselSession
              carouselSession_reachable) as (A & B & C & _).
  destruct (@spawn_flags_follow_distance samplePlatform shortSession
              shortSession_reachable) as (A' & B' & _ & S').
  rewrite D in A, B, C. rewrite D' in A', B'.
  assert (F : hasSpawnedFirstPooper shortSession = false)
    by (rewrite A'; reflexivity).
  split.
  - split; [exact D|]. rewrite A, B, C. repeat split; reflexivity.
  - split; [exact D'|]. split; [exact F|]. rewrite B'.
    split; [reflexivity | exact (S' F)].
Defined.

(** After [carouselSession], at 813.722 m, eight hundred-metre marks have
    been passed. *)
Lemma hundred_marks_witness :
  distance carouselSession = $813.722 /\
  lastHundredMeters carouselSession = 8%Z.
Proof.
  destruct carouselSession_fields as (_ & _ & D & _).
  split; [exact D|].
  destruct (@hundred_marks samplePlatform carouselSession
              carouselSession_reachable) as (_ & _ & H).
  rewrite D in H. apply H. apply ltb_lt. reflexivity.
Defined.

(** The frame 275 of the session that holds the space bar takes the
    distance from 99.6401 to 100.0175: it spawns the first barrier. *)
Lemma hundred_metre_barrier_witness :
  exists b,
    obstacles (@beforeCollisions samplePlatform $1375 (jumping 274))
    = obstacles (@beforeWinCheck samplePlatform (jumping 274)) ++ [b] /\
    Obstacle.type b = Obstacle.jj_barrier /\
    Obstacle.x b = pathCenter (@beforeCollisions samplePlatform $1375 (jumping 274)) /\
    Obstacle.y b = CONFIG.GAME_HEIGHT + $150 /\
    constructorBox b /\
    $100 <= Obstacle.x b + Obstacle.kidOffsetX b /\
    Obstacle.x b + Obstacle.kidOffsetX b <= CONFIG.GAME_WIDTH - $100.
Proof.
  destruct (pair_fields (state (jumping 274)) PLAYING
              (this (distance (jumping 274)), this (scrollSpeed (jumping 274)))
              (99.6401, 1887 # 500)%Q) as [P D];
    [vm_compute; reflexivity|].
  apply pair_fields in D. destruct D as [D Sp].
  assert (Dq : distance (jumping 274) = $99.6401)
    by (apply Qc_is_canon; rewrite D; reflexivity).
  assert (Sq : scrollSpeed (jumping 274) = $3.774)
    by (apply Qc_is_canon; rewrite Sp; reflexivity).
  refine (proj1 (@hundred_metre_barrier samplePlatform $1375 (jumping 274)
                   (jumping_reachable 274) P _) _).
  - rewrite Dq, Sq. apply ltb_lt. reflexivity.
  - rewrite Dq, Sq. reflexivity.
Defined.

Lemma obstacles_sound_witness :
  exists o, In o (obstacles (jumping 10)) /\ sound o.
Proof.
  assert (B : match obstacles (jumping 10) with
              | _ :: _ => true
              | [] => false
              end = true) by (vm_compute; reflexivity).
  destruct (obstacles (jumping 10)) as [|o l] eqn:E; [discriminate B|].
  exists o. split; [left; reflexivity|].
  apply (@obstacles_sound samplePlatform (jumping 10) o (jumping_reachable 10)).
  rewrite E. left. reflexivity.
Defined.

Lemma trail_buffer_witness :
  (List.length (trails shortSession) <= 200)%nat /\
  StronglySorted (fun a b => (Trail.age b < Trail.age a)%nat)
                 (trails shortSession) /\
  forall s, In s (trails shortSession) ->
    (1 <= Trail.age s <= 200)%nat /\ $(-100) <= Trail.y s.
Proof.
  exact (@trail_buffer samplePlatform shortSession shortSession_reachable).
Defined.

(** After [carouselSession] the player has jumped, steered 1088 px to the
    left and landed. *)
Lemma player_poised_witness :
  (Player.x (player carouselSession) = $(-576) /\
   Player.isJumping (player carouselSession) = false) /\
  Player.y (player carouselSession) = $150 /\
  Player.baseScale (player carouselSession) = $0.8 /\
  $(-15) <= Player.angle (player carouselSession) /\
  Player.angle (player carouselSession) <= $15 /\
  Player.scale (player carouselSession)
  = Player.baseScale (player carouselSession).
Proof.
  destruct carouselSession_fields as (_ & _ & _ & X & J).
  destruct (@player_poised samplePlatform carouselSession
              carouselSession_reachable) as (A & B & C & D & E).
  split; [split; [exact X | exact J]|].
  split; [exact A|]. split; [exact B|]. split; [exact C|].
  split; [exact D | exact (E J)].
Defined.

(** After 700 frames of the session that holds the space bar a squat is
    crawling across the path. *)
Lemma antagonist_mannered_witness :
  exists jj, poopingJJ (jumping 700) = Some jj /\ mannered jj.
Proof.
  assert (B : match poopingJJ (jumping 700) with
              | Some _ => true
              | None => false
              end = true) by (vm_compute; reflexivity).
  destruct (poopingJJ (jumping 700)) as [jj|] eqn:E; [|discriminate B].
  exists jj. split; [reflexivity|].
  exact (@antagonist_mannered samplePlatform (jumping 700) jj
           (jumping_reachable 700) E).
Defined.

(** After 1500 frames of the session that holds the space bar the path has
    widened, in 600 steps, to its full width of 750, and the fork is
    closing with the lanes 126 apart. *)
Lemma path_shape_witness :
  (pathWidth (jumping 1500) = $750 /\
   targetPathWidth (jumping 1500) = $750 /\
   splitDistance (jumping 1500) = $126) /\
  pathTarget (jumping 1500) = None /\
  maxSplitDistance (jumping 1500) = $250 /\
  (exists n, (n <= 600)%nat /\
             pathWidth (jumping 1500) = $450 + ofNat n * $0.5) /\
  ($450 <= pathWidth (jumping 1500) /\ pathWidth (jumping 1500) <= $750) /\
  (targetPathWidth (jumping 1500) = $450 \/
   targetPathWidth (jumping 1500) = $750) /\
  (0 <= splitDistance (jumping 1500) /\ splitDistance (jumping 1500) <= $251.5).
Proof.
  destruct forkClosing_fields as (_ & _ & D & W & T & _).
  split; [split; [exact W|]; split; [exact T | exact D]|].
  exact (@path_shape samplePlatform (jumping 1500) (jumping_reachable 1500)).
Defined.

Lemma death_animation_ends_witness :
  fading $1.5 (particleSystem crashSession) /\
  state (@run samplePlatform (map frame (repeat 0 150)) crashSession)
  = GAMEOVER.
Proof.
  apply (@death_animation_ends samplePlatform samplePlatform_range
           crashSession (repeat 0 150) crashSession_reachable
           crashSession_exploding).
  rewrite repeat_length. apply le_n.
Defined.

(** The left key moves the player of a started game from 512 to 504. *)
Lemma frame_steering_witness :
  let g := (startGame Game.new) <| keys := mkKeys true false false false |> in
  Player.x (player (@update samplePlatform 0 g)) = $504.
Proof.
  intros g.
  destruct (@frame_steering samplePlatform 0 g) as (X & _ & H).
  - reflexivity.
  - apply ltb_lt. vm_compute. reflexivity.
  - rewrite X. apply Qc_is_canon. vm_compute. reflexivity.
Defined.

Lemma background_keeps_eight_patches_witness :
  List.length (fst (@scrolled samplePlatform [$3.5; $4] 0)) = 8%nat.
Proof.
  apply (@background_keeps_eight_patches samplePlatform samplePlatform_range
           [$3.5; $4] 0%nat).
  repeat constructor; apply leb_le; reflexivity.
Defined.

Lemma ski_sound_follows_state_witness :
  AudioManager.updateSkiSound (scrollSpeed shortSession) false
    (heard (audio shortSession))
  = Some (scrollSpeed shortSession / $10).
Proof.
  destruct (@ski_sound_follows_state samplePlatform shortSession false
              shortSession_reachable) as (_ & H & _).
  apply H. vm_compute. reflexivity.
Defined.

Lemma restart_is_fresh_start_witness :
  restart shortSession
  = (startGame Game.new) <| keys := keys shortSession |>
      <| cameraX := cameraX shortSession |>
      <| splitTimer := splitTimer shortSession |>
      <| audio := audio shortSession ++ [audioStart] |>
      <| rng := rng shortSession |>.
Proof.
  exact (@restart_is_fresh_start samplePlatform shortSession
           shortSession_reachable).
Defined.

Lemma dead_player_hidden_witness :
  Player.opacity (player crashSession) = 0.
Proof.
  exact (@dead_player_hidden samplePlatform crashSession
           crashSession_reachable (or_introl crashSession_exploding)).
Defined.

Lemma idle_states_frozen_witness :
  let es := [frame 0; keydown "Space" 1; keyup "Space"] in
  @run samplePlatform es Game.new
  = Game.new <| keys := keys (@run samplePlatform es Game.new) |>.
Proof.
  intros es.
  apply (@idle_states_frozen samplePlatform es Game.new).
  - left. reflexivity.
  - repeat constructor.
Defined.

(** A barrier whose kid has just started to jump is cracking after 41
    frames. *)
Lemma barrier_schedule_witness :
  let o := Obstacle.setAnimation 0 0 Obstacle.jump 0
             (Obstacle.new $512 $500 Obstacle.jj_barrier) in
  Obstacle.barrierState (scrollBy (repeat $4 41) o) = Obstacle.crack.
Proof.
  intros o.
  destruct (barrier_schedule (repeat $4 41) o) as [_ H];
    [reflexivity | reflexivity | reflexivity |].
  apply pair_fields in H. exact (proj1 H).
Defined.

(** After [carouselSession] the controls are reversed, beyond 750 m; after
    1500 frames of the session that holds the space bar, at 637.425 m, none
    of the 37 obstacles is a carousel. *)
Lemma reversal_only_beyond_750_witness :
  (carouselActive carouselSession = true /\
   $750 < distance carouselSession) /\
  (distance (jumping 1500) = $637.425 /\
   List.length (obstacles (jumping 1500)) = 37%nat /\
   forall o, In o (obstacles (jumping 1500)) ->
             Obstacle.type o <> Obstacle.carousel).
Proof.
  destruct carouselSession_fields as (_ & A & _).
  destruct forkClosing_fields as (_ & _ & _ & _ & _ & D & L).
  split.
  - split; [exact A|].
    exact (proj1 (@reversal_only_beyond_750 samplePlatform carouselSession
                    carouselSession_reachable) A).
  - split; [exact D|]. split; [exact L|].
    apply (proj2 (@reversal_only_beyond_750 samplePlatform (jumping 1500)
                    (jumping_reachable 1500))).
    rewrite D. apply leb_le. reflexivity.
Defined.
